(** * lib/Sema/TypeChecker.cpp: the type-checking driver

    A shallow embedding of the driver of semantic analysis: the lookup of
    literal protocols and of the standard library module, the syntactic
    conformance pre-filter, the binding of extensions to the types they
    extend and the loop of performTypeChecking that binds the extensions
    of the visible modules, the pass that tries to add [final], and the
    loop that type-checks function bodies and external definitions until
    no work is left, with the later run of typeCheckExternalDefinitions.

    The functions of the type checker that live in other files
    (validateType, validateDecl, typeCheckAbstractFunctionBody,
    computeCaptures, typeCheckDecl, the addImplicit... family) are the
    variables of the sections below: every theorem holds for whatever they
    do, or under the hypothesis on them that its statement spells out. *)

From Stdlib Require Import Ascii String.
From stdpp Require Import base option list gmap strings.

Set Warnings "-register-all".

(** ** Source locations, identifiers, diagnostics *)

(** A [SourceLoc] wraps a pointer into a source buffer; the null pointer is
    the invalid location. *)
Definition SourceLoc := option nat.

Definition SourceLoc_isValid (loc : SourceLoc) : bool :=
  match loc with Some _ => true | None => false end.

Definition Identifier := string.

(** ** Literal protocols: getProtocol and getLiteralProtocol *)

Module Literal.

(** The members of [KnownProtocolKind] that this file names. The
    enumeration is generated from swift/AST/KnownProtocols.def, which has
    more entries; [OtherKnownProtocol] stands for them, by name. *)
Inductive KnownProtocolKind :=
  | ArrayLiteralConvertible
  | DictionaryLiteralConvertible
  | NilLiteralConvertible
  | IntegerLiteralConvertible
  | FloatLiteralConvertible
  | BooleanLiteralConvertible
  | CharacterLiteralConvertible
  | ExtendedGraphemeClusterLiteralConvertible
  | StringLiteralConvertible
  | StringInterpolationConvertible
  | OtherKnownProtocol (name : string).

(** [getProtocolName]: the PROTOCOL macro stringifies the entry's name. *)
Definition getProtocolName (kind : KnownProtocolKind) : string :=
  (match kind with
  | ArrayLiteralConvertible => "ArrayLiteralConvertible"
  | DictionaryLiteralConvertible => "DictionaryLiteralConvertible"
  | NilLiteralConvertible => "NilLiteralConvertible"
  | IntegerLiteralConvertible => "IntegerLiteralConvertible"
  | FloatLiteralConvertible => "FloatLiteralConvertible"
  | BooleanLiteralConvertible => "BooleanLiteralConvertible"
  | CharacterLiteralConvertible => "CharacterLiteralConvertible"
  | ExtendedGraphemeClusterLiteralConvertible =>
      "ExtendedGraphemeClusterLiteralConvertible"
  | StringLiteralConvertible => "StringLiteralConvertible"
  | StringInterpolationConvertible => "StringInterpolationConvertible"
  | OtherKnownProtocol name => name
  end)%string.

Inductive MagicIdentifierKind := File | Line | Column | Function.

(** The expression classes [getLiteralProtocol] tells apart. ArrayExpr and
    DictionaryExpr are collection expressions; the eight classes from
    NilLiteralExpr to MagicIdentifierLiteralExpr derive from LiteralExpr;
    [OtherExpr] is any other expression class (a call, a reference, a
    closure, ...), numbered. *)
Inductive ExprKind :=
  | ArrayExpr
  | DictionaryExpr
  | NilLiteralExpr
  | IntegerLiteralExpr
  | FloatLiteralExpr
  | BooleanLiteralExpr
  | CharacterLiteralExpr
  | StringLiteralExpr (isSingleExtendedGraphemeCluster : bool)
  | InterpolatedStringLiteralExpr
  | MagicIdentifierLiteralExpr (kind : MagicIdentifierKind)
  | OtherExpr (class : nat).

Record Expr := mkExpr { getKind : ExprKind; getLoc : SourceLoc }.

(** [isa<LiteralExpr>]. *)
Definition isa_LiteralExpr (k : ExprKind) : bool :=
  match k with
  | NilLiteralExpr | IntegerLiteralExpr | FloatLiteralExpr
  | BooleanLiteralExpr | CharacterLiteralExpr | StringLiteralExpr _
  | InterpolatedStringLiteralExpr | MagicIdentifierLiteralExpr _ => true
  | ArrayExpr | DictionaryExpr | OtherExpr _ => false
  end.

(** A protocol declaration, by identity. *)
Definition ProtocolDecl := nat.

Inductive Diagnostic :=
  | missing_protocol (loc : SourceLoc) (name : Identifier).

(** The part of the type checker [getProtocol] reads and writes: the
    context's table of known protocols, the per-declaration flags
    [hasType] and [isInvalid], and the diagnostics emitted so far (oldest
    first). *)
Record TypeChecker := mkTC {
  Context_getProtocol : KnownProtocolKind -> option ProtocolDecl;
  hasType : ProtocolDecl -> bool;
  isInvalid : ProtocolDecl -> bool;
  Diags : list Diagnostic
}.

Definition diagnose (d : Diagnostic) (tc : TypeChecker) : TypeChecker :=
  mkTC (Context_getProtocol tc) (hasType tc) (isInvalid tc) (Diags tc ++ [d]).

Section WithValidateDecl.

(** [TypeChecker::validateDecl], defined in TypeCheckDecl.cpp. *)
Variable validateDecl : ProtocolDecl -> TypeChecker -> TypeChecker.

(** Lines 69-83. *)
Definition getProtocol (loc : SourceLoc) (kind : KnownProtocolKind)
    (tc : TypeChecker) : option ProtocolDecl * TypeChecker :=
  let protocol := Context_getProtocol tc kind in
  let tc1 :=
    if negb (bool_decide (is_Some protocol)) && SourceLoc_isValid loc
    then diagnose (missing_protocol loc (getProtocolName kind)) tc
    else tc in
  match protocol with
  | Some p =>
      if negb (hasType tc1 p) then
        let tc2 := validateDecl p tc1 in
        if isInvalid tc2 p then (None, tc2) else (Some p, tc2)
      else (Some p, tc1)
  | None => (None, tc1)
  end.

(** Lines 85-146, test by test in the order of the source. *)
Definition getLiteralProtocol (expr : Expr) (tc : TypeChecker)
    : option ProtocolDecl * TypeChecker :=
  let loc := getLoc expr in
  match getKind expr with
  | ArrayExpr => getProtocol loc ArrayLiteralConvertible tc
  | DictionaryExpr => getProtocol loc DictionaryLiteralConvertible tc
  | k =>
      if negb (isa_LiteralExpr k) then (None, tc) else
      match k with
      | NilLiteralExpr => getProtocol loc NilLiteralConvertible tc
      | IntegerLiteralExpr => getProtocol loc IntegerLiteralConvertible tc
      | FloatLiteralExpr => getProtocol loc FloatLiteralConvertible tc
      | BooleanLiteralExpr => getProtocol loc BooleanLiteralConvertible tc
      | CharacterLiteralExpr =>
          getProtocol loc CharacterLiteralConvertible tc
      | StringLiteralExpr single =>
          if single
          then getProtocol loc ExtendedGraphemeClusterLiteralConvertible tc
          else getProtocol loc StringLiteralConvertible tc
      | InterpolatedStringLiteralExpr =>
          getProtocol loc StringInterpolationConvertible tc
      | MagicIdentifierLiteralExpr File
      | MagicIdentifierLiteralExpr Function =>
          getProtocol loc StringLiteralConvertible tc
      | MagicIdentifierLiteralExpr Line
      | MagicIdentifierLiteralExpr Column =>
          getProtocol loc IntegerLiteralConvertible tc
      | _ => (None, tc)
      end
  end.

End WithValidateDecl.

(** The table of section 4.4 of the specification, row by row: the
    capability each kind of expression requires, none for an expression
    that is in no row. A character literal is in no row. *)
Definition spec_table (k : ExprKind) : option KnownProtocolKind :=
  match k with
  | NilLiteralExpr => Some NilLiteralConvertible
  | IntegerLiteralExpr => Some IntegerLiteralConvertible
  | FloatLiteralExpr => Some FloatLiteralConvertible
  | BooleanLiteralExpr => Some BooleanLiteralConvertible
  | StringLiteralExpr true => Some ExtendedGraphemeClusterLiteralConvertible
  | StringLiteralExpr false => Some StringLiteralConvertible
  | InterpolatedStringLiteralExpr => Some StringInterpolationConvertible
  | ArrayExpr => Some ArrayLiteralConvertible
  | DictionaryExpr => Some DictionaryLiteralConvertible
  | MagicIdentifierLiteralExpr File
  | MagicIdentifierLiteralExpr Function => Some StringLiteralConvertible
  | MagicIdentifierLiteralExpr Line
  | MagicIdentifierLiteralExpr Column => Some IntegerLiteralConvertible
  | CharacterLiteralExpr | OtherExpr _ => None
  end.

(** The table with the row the code has and the specification lacks. *)
Definition code_table (k : ExprKind) : option KnownProtocolKind :=
  match k with
  | CharacterLiteralExpr => Some CharacterLiteralConvertible
  | _ => spec_table k
  end.

(** What a lookup through a table returns: the registry's answer for the
    row's capability, nothing (and no effect) without a row. *)
Definition lookup_through (validateDecl : ProtocolDecl -> TypeChecker -> TypeChecker)
    (table : ExprKind -> option KnownProtocolKind) (expr : Expr)
    (tc : TypeChecker) : option ProtocolDecl * TypeChecker :=
  match table (getKind expr) with
  | Some kind => getProtocol validateDecl (getLoc expr) kind tc
  | None => (None, tc)
  end.

(** *** Results on the literal protocols *)

Lemma getProtocol_absent validateDecl loc kind tc :
  Context_getProtocol tc kind = None ->
  getProtocol validateDecl loc kind tc =
    (None, if SourceLoc_isValid loc
           then diagnose (missing_protocol loc (getProtocolName kind)) tc
           else tc).
Proof.
  intros Habsent. unfold getProtocol. rewrite Habsent.
  rewrite bool_decide_eq_false_2 by (intros [p Hp]; discriminate).
  reflexivity.
Qed.

Lemma getProtocol_present validateDecl loc kind tc p :
  Context_getProtocol tc kind = Some p -> hasType tc p = true ->
  getProtocol validateDecl loc kind tc = (Some p, tc).
Proof.
  intros Hp Hty. unfold getProtocol. rewrite Hp.
  rewrite bool_decide_eq_true_2 by eauto. simpl. by rewrite Hty.
Qed.

Lemma code_table_none k :
  code_table k = None <-> exists class, k = OtherExpr class.
Proof.
  split.
  - destruct k as [| | | | | | |[]| |[]|c]; simpl; try discriminate. eauto.
  - intros [c ->]. reflexivity.
Qed.

Lemma getLiteralProtocol_lookup validateDecl expr tc :
  getLiteralProtocol validateDecl expr tc =
    lookup_through validateDecl code_table expr tc.
Proof.
  destruct expr as [k loc]. unfold getLiteralProtocol, lookup_through. simpl.
  destruct k as [| | | | | | |[]| |[]|c]; reflexivity.
Qed.

(** C5, as amended. getLiteralProtocol is a total function, and on every
    expression it returns what the registry answers for the capability of
    the expression's row in the specification's table extended with the
    row "character literal, character-literal-convertible": nil, integer,
    float, boolean, character, single-grapheme-cluster string, general
    string, interpolated string, array, dictionary, magic file/function
    and magic line/column map as listed; an expression has no row exactly
    when it is no literal, array or dictionary expression, and then the
    result is none and the type checker is left as it was; and where the
    registry holds the row's protocol, already typed, that protocol is
    the result. *)
Theorem getLiteralProtocol_table :
  (forall validateDecl expr tc,
     getLiteralProtocol validateDecl expr tc =
       lookup_through validateDecl code_table expr tc) /\
  (forall k, code_table k =
     match k with
     | CharacterLiteralExpr => Some CharacterLiteralConvertible
     | _ => spec_table k
     end) /\
  (forall k, code_table k = None <-> exists class, k = OtherExpr class) /\
  (forall validateDecl class loc tc,
     getLiteralProtocol validateDecl (mkExpr (OtherExpr class) loc) tc =
       (None, tc)) /\
  (forall validateDecl expr tc kind p,
     code_table (getKind expr) = Some kind ->
     Context_getProtocol tc kind = Some p -> hasType tc p = true ->
     getLiteralProtocol validateDecl expr tc = (Some p, tc)).
Proof.
  split; [exact getLiteralProtocol_lookup|].
  split; [reflexivity|].
  split; [exact code_table_none|].
  split; [reflexivity|].
  intros vd expr tc kind p Hrow Hp Hty.
  rewrite getLiteralProtocol_lookup. unfold lookup_through. rewrite Hrow.
  by apply getProtocol_present.
Qed.

(** A registry that knows [CharacterLiteralConvertible] as protocol 7,
    already typed. *)
Definition tc_with_character : TypeChecker :=
  mkTC (fun kind => match kind with
                    | CharacterLiteralConvertible => Some 7
                    | _ => None
                    end)
       (fun _ => true) (fun _ => false) [].

(** C5, as stated, fails: a character literal is outside the
    specification's table, and getLiteralProtocol maps it to a capability. *)
Lemma getLiteralProtocol_character_outside_table :
  spec_table CharacterLiteralExpr = None /\
  getLiteralProtocol (fun _ tc => tc) (mkExpr CharacterLiteralExpr (Some 0))
    tc_with_character = (Some 7, tc_with_character) /\
  ~ (forall validateDecl expr tc,
       getLiteralProtocol validateDecl expr tc =
         lookup_through validateDecl spec_table expr tc).
Proof.
  split; [reflexivity|]. split; [reflexivity|].
  intros Hall.
  specialize (Hall (fun _ tc => tc) (mkExpr CharacterLiteralExpr (Some 0))
                tc_with_character).
  discriminate Hall.
Qed.

(** C8, as amended. When the registry lacks the required capability,
    getProtocol returns none; it emits exactly one diagnostic
    (missing_protocol, at the lookup's location, naming the capability)
    when that location is valid, and none when it is not; it changes
    nothing else. getLiteralProtocol, its caller here, hands the none on
    and returns normally with the same state. *)
Theorem getProtocol_missing validateDecl loc kind tc :
  Context_getProtocol tc kind = None ->
  getProtocol validateDecl loc kind tc =
    (None, if SourceLoc_isValid loc
           then diagnose (missing_protocol loc (getProtocolName kind)) tc
           else tc) /\
  Diags (getProtocol validateDecl loc kind tc).2 =
    Diags tc ++ (if SourceLoc_isValid loc
                 then [missing_protocol loc (getProtocolName kind)]
                 else []) /\
  (forall expr, getLoc expr = loc -> code_table (getKind expr) = Some kind ->
     getLiteralProtocol validateDecl expr tc =
       getProtocol validateDecl loc kind tc).
Proof.
  intros Habsent. rewrite getProtocol_absent by done.
  split; [reflexivity|]. split.
  - simpl. destruct (SourceLoc_isValid loc); simpl; [done|].
    by rewrite app_nil_r.
  - intros expr <- Hrow.
    rewrite getLiteralProtocol_lookup. unfold lookup_through. rewrite Hrow.
    by apply getProtocol_absent.
Qed.

(** An empty registry. *)
Definition tc_empty : TypeChecker :=
  mkTC (fun _ => None) (fun _ => true) (fun _ => false) [].

Lemma getProtocol_missing_witness :
  Context_getProtocol tc_empty IntegerLiteralConvertible = None /\
  Diags (getProtocol (fun _ tc => tc) (Some 3) IntegerLiteralConvertible
           tc_empty).2 =
    [missing_protocol (Some 3) "IntegerLiteralConvertible"].
Proof.
  split; [reflexivity|].
  destruct (getProtocol_missing (fun _ tc => tc) (Some 3)
              IntegerLiteralConvertible tc_empty eq_refl) as (_ & Hd & _).
  exact Hd.
Defined.

(** C8, as stated, fails: a lookup whose location is invalid emits no
    diagnostic although the capability is absent. *)
Lemma getProtocol_missing_invalid_loc_silent :
  Context_getProtocol tc_empty IntegerLiteralConvertible = None /\
  getProtocol (fun _ tc => tc) None IntegerLiteralConvertible tc_empty =
    (None, tc_empty) /\
  ~ (forall validateDecl loc kind tc,
       Context_getProtocol tc kind = None ->
       exists d, Diags (getProtocol validateDecl loc kind tc).2 =
                   Diags tc ++ [d]).
Proof.
  split; [reflexivity|]. split; [reflexivity|].
  intros Hall.
  destruct (Hall (fun _ tc => tc) None IntegerLiteralConvertible tc_empty
              eq_refl) as [d Hd].
  discriminate Hd.
Qed.

(** *** What a lookup can return *)

Lemma getProtocol_Some validateDecl loc kind tc p :
  (getProtocol validateDecl loc kind tc).1 = Some p <->
  Context_getProtocol tc kind = Some p /\
  (hasType tc p = true \/ isInvalid (validateDecl p tc) p = false).
Proof.
  unfold getProtocol.
  destruct (Context_getProtocol tc kind) as [q|] eqn:Hq.
  - rewrite bool_decide_eq_true_2 by eauto. simpl.
    destruct (hasType tc q) eqn:Hty; simpl.
    + split; [intros [= ->]; auto|]. by intros [[= ->] _].
    + destruct (isInvalid (validateDecl q tc) q) eqn:Hinv; simpl.
      * split; [discriminate|]. intros [[= ->] [?|?]]; congruence.
      * split; [intros [= ->]; auto|]. by intros [[= ->] _].
  - rewrite bool_decide_eq_false_2 by (intros [? ?]; discriminate).
    destruct (SourceLoc_isValid loc); simpl; (split; [discriminate|]);
      by intros [? _].
Qed.

(** X1. getLiteralProtocol returns a protocol [p] exactly when the
    expression has a row in the table (the one of the code, with the
    character literal), the registry holds [p] for the row's capability,
    and [p] either has its type already or is not invalid once
    validateDecl has run on it. So the result is never a protocol other
    than the registry's for that literal, never one for a non-literal,
    and never one that validation has just found invalid. *)
Theorem getLiteralProtocol_Some validateDecl expr tc p :
  (getLiteralProtocol validateDecl expr tc).1 = Some p <->
  exists kind,
    code_table (getKind expr) = Some kind /\
    Context_getProtocol tc kind = Some p /\
    (hasType tc p = true \/ isInvalid (validateDecl p tc) p = false).
Proof.
  rewrite getLiteralProtocol_lookup. unfold lookup_through.
  destruct (code_table (getKind expr)) as [kind|] eqn:Hrow.
  - rewrite getProtocol_Some. split; [eauto|].
    by intros (k & [= ->] & H).
  - simpl. split; [discriminate|]. by intros (k & Hk & _).
Qed.

End Literal.

(** ** The standard library module: getStdlibModule *)

Module StdlibLookup.

Definition ModuleDecl := nat.

(** The type checker's cached module (null at first), and the calls made
    to [Context.recordKnownProtocols], oldest first. *)
Record TypeChecker := mkTC {
  StdlibModule : option ModuleDecl;
  RecordKnownProtocolsCalls : list ModuleDecl
}.

(** What a call finds around it: the answer of
    [Context.getStdlibModule()] at that moment, and the parent module of
    the declaration context it was passed. A null pointer is [None]. *)
Record Query := mkQuery {
  Context_getStdlibModule : option ModuleDecl;
  dc_getParentModule : option ModuleDecl
}.

(** Lines 148-160. [None] is the failed assertion of line 157. *)
Definition getStdlibModule (q : Query) (tc : TypeChecker)
    : option (ModuleDecl * TypeChecker) :=
  match StdlibModule tc with
  | Some M => Some (M, tc)
  | None =>
      let StdlibModule := Context_getStdlibModule q in
      let StdlibModule :=
        match StdlibModule with
        | Some _ => StdlibModule
        | None => dc_getParentModule q
        end in
      match StdlibModule with
      | Some M =>
          Some (M, mkTC (Some M) (RecordKnownProtocolsCalls tc ++ [M]))
      | None => None
      end
  end.

(** Calls one after the other, with their answers. *)
Fixpoint getStdlibModules (queries : list Query) (tc : TypeChecker)
    : option (list ModuleDecl * TypeChecker) :=
  match queries with
  | [] => Some ([], tc)
  | q :: rest =>
      '(M, tc) ← getStdlibModule q tc;
      '(Ms, tc) ← getStdlibModules rest tc;
      Some (M :: Ms, tc)
  end.

Lemma getStdlibModules_cached queries tc M :
  StdlibModule tc = Some M ->
  getStdlibModules queries tc = Some (replicate (length queries) M, tc).
Proof.
  intros Hcached. induction queries as [|q rest IH]; simpl; [done|].
  unfold getStdlibModule. rewrite Hcached. simpl. by rewrite IH.
Qed.

(** X2. getStdlibModule looks the module up once. Whatever the callers
    and whatever they find around them: with a module cached, every call
    answers it and nothing else happens. Without, the first call decides:
    it takes the context's standard library module, or else the parent
    module of its declaration context, records the known protocols on
    it, and every later call answers the same module, whatever it passes
    and whatever the context would answer by then, without recording
    again; if the first call finds neither, its assertion fails. *)
Theorem getStdlibModule_caches queries tc :
  getStdlibModules queries tc =
  match StdlibModule tc, queries with
  | Some M, _ => Some (replicate (length queries) M, tc)
  | None, [] => Some ([], tc)
  | None, q :: rest =>
      match Context_getStdlibModule q, dc_getParentModule q with
      | Some M, _ | None, Some M =>
          Some (replicate (length queries) M,
                mkTC (Some M) (RecordKnownProtocolsCalls tc ++ [M]))
      | None, None => None
      end
  end.
Proof.
  destruct (StdlibModule tc) as [M|] eqn:Hcached.
  { by apply getStdlibModules_cached. }
  destruct queries as [|q rest]; [done|].
  cbn [getStdlibModules]. unfold getStdlibModule. rewrite Hcached.
  destruct (Context_getStdlibModule q) as [M|],
    (dc_getParentModule q) as [M'|]; simpl; try done;
    by erewrite getStdlibModules_cached by reflexivity.
Qed.

End StdlibLookup.

(** ** Type representations, as written in the source text *)

(** One component of a dotted type name: a plain identifier, or an
    identifier with generic arguments. *)
Inductive ComponentIdentTypeRepr :=
  | SimpleIdentTypeRepr (loc : SourceLoc) (Id : Identifier)
  | GenericIdentTypeRepr (loc : SourceLoc) (Id : Identifier) (numArgs : nat).

(** A type representation: a dotted name, which has at least one
    component ([getComponentRange().back()] is the last one), or any
    other syntax (a composition, a function type, an array, ...). *)
Inductive TypeRepr :=
  | IdentTypeRepr (front : list ComponentIdentTypeRepr)
                  (back : ComponentIdentTypeRepr)
  | OtherTypeRepr (syntax : nat).

(** ** The syntactic conformance pre-filter: mayConformToKnownProtocol *)

Module Conformance.

(** An entry of an inheritance clause; its representation is null when
    the entry was not written in source. *)
Record TypeLoc := mkTypeLoc { getTypeRepr : option TypeRepr }.

(** The function is a template over the declaration's class; all it asks
    of the class is [getInherited]. *)
Class Inherits (DeclTy : Type) := getInherited : DeclTy -> list TypeLoc.

(** [llvm::StringSwitch<T>(s).Case(c1, v1)...Case(cn, vn).Default(d)]: the
    value of the first case whose string equals [s], the default when none
    does. *)
Fixpoint StringSwitch {T} (s : string) (cases : list (string * T))
    (default : T) : T :=
  match cases with
  | [] => default
  | (c, v) :: rest =>
      if String.eqb s c then v else StringSwitch s rest default
  end.

Section WithKnownProtocols.

(** The names listed in swift/AST/KnownProtocols.def, in its order. The
    file is not part of the sources; the names are taken as given. *)
Variable KnownProtocols_def : list string.

Definition matchesKnownProtocol (name : Identifier) : bool :=
  StringSwitch name (map (fun Name => (Name, true)) KnownProtocols_def) false.

(** Lines 306-329. *)
Fixpoint mayConform_loop (inherited : list TypeLoc) : bool :=
  match inherited with
  | [] => false
  | entry :: rest =>
      match getTypeRepr entry with
      | Some (IdentTypeRepr _ (SimpleIdentTypeRepr _ lastSimpleID)) =>
          if matchesKnownProtocol lastSimpleID then true
          else mayConform_loop rest
      | _ => mayConform_loop rest
      end
  end.

Definition mayConformToKnownProtocol `{Inherits DeclTy} (D : DeclTy) : bool :=
  mayConform_loop (getInherited D).

(** The entries the scan looks at: those written as a dotted name whose
    last component is a plain identifier. *)
Definition endsInSimpleIdent (entry : TypeLoc) : bool :=
  match getTypeRepr entry with
  | Some (IdentTypeRepr _ (SimpleIdentTypeRepr _ _)) => true
  | _ => false
  end.

Lemma matchesKnownProtocol_spec name :
  matchesKnownProtocol name = true <-> In name KnownProtocols_def.
Proof.
  unfold matchesKnownProtocol.
  induction KnownProtocols_def as [|n names IH]; simpl.
  - split; [discriminate|tauto].
  - destruct (String.eqb_spec name n) as [->|Hne].
    + split; auto.
    + rewrite IH. split; [tauto|]. intros [Heq|Hin]; [congruence|done].
Qed.

Lemma mayConform_loop_spec inherited :
  mayConform_loop inherited = true <->
  exists entry front loc name,
    In entry inherited /\
    getTypeRepr entry = Some (IdentTypeRepr front (SimpleIdentTypeRepr loc name)) /\
    In name KnownProtocols_def.
Proof.
  induction inherited as [|entry rest IH]; simpl.
  - split; [discriminate|]. intros (? & ? & ? & ? & [] & _).
  - assert (Hskip : (forall front loc name,
              getTypeRepr entry = Some (IdentTypeRepr front (SimpleIdentTypeRepr loc name)) ->
              ~ In name KnownProtocols_def) ->
            (mayConform_loop rest = true <->
             exists entry0 front loc name,
               (entry = entry0 \/ In entry0 rest) /\
               getTypeRepr entry0 = Some (IdentTypeRepr front (SimpleIdentTypeRepr loc name)) /\
               In name KnownProtocols_def)).
    { intros Hno. rewrite IH. split.
      - intros (e & f & l & n & Hin & Hr & Hn). exists e, f, l, n. auto.
      - intros (e & f & l & n & [<-|Hin] & Hr & Hn).
        + exfalso. eapply Hno; eauto.
        + exists e, f, l, n. auto. }
    destruct (getTypeRepr entry) as [[front [loc name|loc name k]|syn]|] eqn:Hrepr;
      try (apply Hskip; intros; discriminate).
    destruct (matchesKnownProtocol name) eqn:Hm.
    + split; [|done]. intros _. exists entry, front, loc, name.
      split; [auto|]. split; [done|]. by apply matchesKnownProtocol_spec.
    + apply Hskip. intros f l n [= -> -> ->] Hin.
      apply matchesKnownProtocol_spec in Hin. congruence.
Qed.

Lemma mayConform_loop_filter inherited :
  mayConform_loop (List.filter endsInSimpleIdent inherited) =
  mayConform_loop inherited.
Proof.
  induction inherited as [|entry rest IH]; [done|].
  simpl. unfold endsInSimpleIdent at 1.
  destruct (getTypeRepr entry) as [[front [loc name|loc name k]|syn]|] eqn:Hrepr;
    simpl; rewrite ?Hrepr; try exact IH.
  by rewrite IH.
Qed.

(** C7. mayConformToKnownProtocol(D) is true if and only if some entry of
    D's written inheritance list is a dotted name whose last component is
    a plain identifier equal, character for character, to one of the
    names of KnownProtocols.def; the answer depends on the written text
    only, and the entries whose last component is no plain identifier
    (or that have no dotted-name representation) can be dropped without
    changing it. *)
Theorem mayConformToKnownProtocol_iff `{Inherits DeclTy} (D : DeclTy) :
  (mayConformToKnownProtocol D = true <->
   exists entry front loc name,
     In entry (getInherited D) /\
     getTypeRepr entry = Some (IdentTypeRepr front (SimpleIdentTypeRepr loc name)) /\
     In name KnownProtocols_def) /\
  mayConform_loop (List.filter endsInSimpleIdent (getInherited D)) =
    mayConformToKnownProtocol D /\
  ((forall entry, In entry (getInherited D) -> endsInSimpleIdent entry = false) ->
   mayConformToKnownProtocol D = false).
Proof.
  unfold mayConformToKnownProtocol. split; [apply mayConform_loop_spec|].
  split; [apply mayConform_loop_filter|].
  intros Hnone. rewrite <- mayConform_loop_filter.
  replace (List.filter endsInSimpleIdent (getInherited D)) with (@nil TypeLoc);
    [done|].
  symmetry. induction (getInherited D) as [|e l IH]; [done|].
  simpl. rewrite Hnone by (simpl; auto). apply IH. intros e' He'.
  apply Hnone. simpl. auto.
Qed.

Lemma mayConform_loop_app l1 l2 :
  mayConform_loop (l1 ++ l2) = mayConform_loop l1 || mayConform_loop l2.
Proof.
  induction l1 as [|entry rest IH]; [done|]. simpl.
  destruct (getTypeRepr entry) as [[front [loc name|loc name k]|syn]|];
    try exact IH.
  by destruct (matchesKnownProtocol name).
Qed.

(** X3. The answer of mayConformToKnownProtocol does not depend on how
    the inheritance clause is arranged: an empty clause gives false, the
    clause made of two clauses gives true exactly when one of the two
    does, and reordering the entries changes nothing. *)
Theorem mayConform_loop_arrangement :
  mayConform_loop [] = false /\
  (forall l1 l2,
     mayConform_loop (l1 ++ l2) = mayConform_loop l1 || mayConform_loop l2) /\
  (forall l1 l2, l1 ≡ₚ l2 -> mayConform_loop l1 = mayConform_loop l2).
Proof.
  split; [done|]. split; [exact mayConform_loop_app|].
  intros l1 l2 Hperm.
  induction Hperm as [|x l l' _ IH|x y l|l l' l'' _ IH1 _ IH2].
  - done.
  - change (x :: l) with ([x] ++ l). change (x :: l') with ([x] ++ l').
    by rewrite !mayConform_loop_app, IH.
  - change (y :: x :: l) with ([y] ++ [x] ++ l).
    change (x :: y :: l) with ([x] ++ [y] ++ l).
    rewrite !mayConform_loop_app.
    destruct (mayConform_loop [x]), (mayConform_loop [y]); reflexivity.
  - by rewrite IH1.
Qed.

End WithKnownProtocols.

(** The match is exact: a name that differs in case only, or a qualified
    name whose last component carries generic arguments, does not match. *)
#[local] Instance list_Inherits : Inherits (list TypeLoc) := fun l => l.

Example mayConform_exact :
  let known := ["Equatable"; "Hashable"; "IntegerLiteralConvertible"]%string in
  let written name := mkTypeLoc (Some (IdentTypeRepr [] (SimpleIdentTypeRepr None name))) in
  mayConformToKnownProtocol known [written "Printable"; written "Hashable"]%string = true /\
  mayConformToKnownProtocol known [written "hashable"]%string = false /\
  mayConformToKnownProtocol known
    [mkTypeLoc (Some (IdentTypeRepr [SimpleIdentTypeRepr None "Swift"]
       (GenericIdentTypeRepr None "Hashable" 1)))]%string = false /\
  mayConformToKnownProtocol known
    [mkTypeLoc (Some (IdentTypeRepr [SimpleIdentTypeRepr None "Swift"]
       (SimpleIdentTypeRepr None "Equatable")))]%string = true /\
  mayConformToKnownProtocol known [mkTypeLoc None; mkTypeLoc (Some (OtherTypeRepr 0))] = false.
Proof. repeat split. Qed.

End Conformance.

(** ** Binding an extension to the type it extends: bindExtensionDecl *)

Module Binder.

(** A generic parameter list: its parameters, and the list of the
    enclosing context it is chained to, if any. *)
Inductive GenericParamList := mkGenericParamList {
  getParams : list Identifier;
  getSourceRange : SourceLoc * SourceLoc;
  getOuterParameters : option GenericParamList
}.

Definition size (gp : GenericParamList) : nat := length (getParams gp).

Definition setOuterParameters (outer : option GenericParamList)
    (gp : GenericParamList) : GenericParamList :=
  mkGenericParamList (getParams gp) (getSourceRange gp) outer.

(** A struct, class, enum or protocol declaration. *)
Record NominalTypeDecl := mkNominal {
  nominal_id : nat;
  nominal_name : Identifier;
  getGenericParams : option GenericParamList
}.

(** Semantic types, as far as the binder tells them apart. The classes
    are those of swift/AST/Types.h, which is not among the sources:
    [NominalType] is the type of a non-generic struct, class, enum or
    protocol; [UnboundGenericType] names a generic one without arguments;
    [NameAliasType] is sugar for the type it abbreviates. *)
Inductive Type_ :=
  | NominalType (decl : NominalTypeDecl)
  | UnboundGenericType (decl : NominalTypeDecl)
  | BoundGenericType (decl : NominalTypeDecl) (args : list Type_)
  | NameAliasType (name : Identifier) (underlying : Type_)
  | ErrorType
  | OtherType (class : nat).

Fixpoint getDesugaredType (t : Type_) : Type_ :=
  match t with
  | NameAliasType _ underlying => getDesugaredType underlying
  | _ => t
  end.

(** [t->is<NominalType>()] and [t->is<UnboundGenericType>()] look at the
    type behind the sugar. *)
Definition is_NominalType (t : Type_) : bool :=
  match getDesugaredType t with NominalType _ => true | _ => false end.

Definition is_UnboundGenericType (t : Type_) : bool :=
  match getDesugaredType t with UnboundGenericType _ => true | _ => false end.

Definition getAnyNominal (t : Type_) : option NominalTypeDecl :=
  match getDesugaredType t with
  | NominalType d | UnboundGenericType d | BoundGenericType d _ => Some d
  | _ => None
  end.

(** What type validation leaves on a component of the dotted name: the
    type it was bound to, or the declaration (a nominal type declaration,
    or any other), or neither (a module, say). *)
Inductive ValueDecl :=
  | NominalDecl (d : NominalTypeDecl)
  | OtherValueDecl (n : nat).

Inductive Binding :=
  | BoundType (type : Type_)
  | BoundDecl (decl : ValueDecl)
  | NotBound.

Record RefComponent := mkRef {
  NameLoc : SourceLoc;
  Name : Identifier;
  GenericParams : option GenericParamList
}.

Definition DeclContext := nat.

Record ExtensionDecl := mkExtension {
  ext_id : nat;
  getDeclContext : DeclContext;
  getRefComponents : list RefComponent;
  getExtendedType : option Type_;
  isInvalid : bool
}.

Definition setInvalid (ED : ExtensionDecl) : ExtensionDecl :=
  mkExtension (ext_id ED) (getDeclContext ED) (getRefComponents ED)
    (getExtendedType ED) true.

Definition setExtendedType (t : Type_) (ED : ExtensionDecl) : ExtensionDecl :=
  mkExtension (ext_id ED) (getDeclContext ED) (getRefComponents ED)
    (Some t) (isInvalid ED).

Definition setRefComponents (refs : list RefComponent) (ED : ExtensionDecl)
    : ExtensionDecl :=
  mkExtension (ext_id ED) (getDeclContext ED) refs
    (getExtendedType ED) (isInvalid ED).

Inductive Diagnostic :=
  | extension_metatype (loc : SourceLoc)
  | extension_generic_params_for_non_generic (loc : SourceLoc) (name : Identifier)
  | extension_generic_params_for_non_generic_type
      (loc : SourceLoc) (declaredTypeOf : NominalTypeDecl)
      (highlight : SourceLoc * SourceLoc)
  | extended_type_here (at_decl : NominalTypeDecl)
  | extension_generic_wrong_number_of_parameters
      (loc : SourceLoc) (declaredTypeOf : NominalTypeDecl)
      (tooMany : bool) (numHave numExpected : nat)
      (highlight : SourceLoc * SourceLoc)
  | non_nominal_extension (at_extension : nat) (isProtocol : bool) (type : Type_).

Inductive TypeResolutionOptions := TR_Default | TR_AllowUnboundGenerics.

(** The part of the type checker and of the AST the binder writes: the
    diagnostics it emitted (oldest first), the calls it made to
    validateType (each with the components it passed), and every nominal
    type's list of extensions, by the identities of the declarations. *)
Record TypeChecker := mkTC {
  Diags : list Diagnostic;
  ValidateTypeCalls : list (list ComponentIdentTypeRepr);
  Extensions : gmap nat (list nat)
}.

Definition diagnose (d : Diagnostic) (tc : TypeChecker) : TypeChecker :=
  mkTC (Diags tc ++ [d]) (ValidateTypeCalls tc) (Extensions tc).

Definition getExtensions (tc : TypeChecker) (nominal : NominalTypeDecl)
    : list nat :=
  default [] (Extensions tc !! nominal_id nominal).

(** [nominal->addExtension(ED)] appends to the nominal type's list. *)
Definition addExtension (nominal : NominalTypeDecl) (ED : ExtensionDecl)
    (tc : TypeChecker) : TypeChecker :=
  mkTC (Diags tc) (ValidateTypeCalls tc)
    (<[nominal_id nominal := getExtensions tc nominal ++ [ext_id ED]]>
       (Extensions tc)).

(** [TC.Context.Id_Type]. *)
Definition Id_Type : Identifier := "Type"%string.

(** Lines 190-202: one SimpleIdentTypeRepr per component; a component
    named [Type] that is not the first stops the synthesis, with the
    location to diagnose. *)
Fixpoint synthesizeComponents (refs : list RefComponent)
    (components : list ComponentIdentTypeRepr)
    : SourceLoc + list ComponentIdentTypeRepr :=
  match refs with
  | [] => inr components
  | ref :: rest =>
      if String.eqb (Name ref) Id_Type
         && negb (bool_decide (components = []))
      then inl (NameLoc ref)
      else synthesizeComponents rest
             (components ++ [SimpleIdentTypeRepr (NameLoc ref) (Name ref)])
  end.

(** Lines 217-225: the nominal type declaration a component refers to. *)
Definition referencedTypeDecl (ident : Binding) : option NominalTypeDecl :=
  match ident with
  | BoundType type =>
      match type with
      | UnboundGenericType d => Some d
      | NominalType d => Some d
      | _ => None
      end
  | BoundDecl decl =>
      match decl with
      | NominalDecl d => Some d
      | OtherValueDecl _ => None
      end
  | NotBound => None
  end.

(** How one turn of the loop of lines 214-287 ends: it goes on to the next
    component, with the component and the running outer list as it left
    them, or it returns from bindExtensionDecl. *)
Inductive Turn :=
  | Continue (ref : RefComponent) (outerGenericParams : option GenericParamList)
  | Return.

(** Lines 216-286, one component. *)
Definition checkComponent (ident : Binding) (ref : RefComponent)
    (outerGenericParams : option GenericParamList) (tc : TypeChecker)
    : Turn * TypeChecker :=
  match referencedTypeDecl ident with
  | None =>
      match GenericParams ref with
      | Some _ =>
          (Continue (mkRef (NameLoc ref) (Name ref) None) outerGenericParams,
           diagnose (extension_generic_params_for_non_generic
                       (NameLoc ref) (Name ref)) tc)
      | None => (Continue ref outerGenericParams, tc)
      end
  | Some typeDecl =>
      match getGenericParams typeDecl, GenericParams ref with
      | Some _, None => (Continue ref outerGenericParams, tc)
      | None, Some params =>
          (Continue (mkRef (NameLoc ref) (Name ref) None) outerGenericParams,
           diagnose (extended_type_here typeDecl)
             (diagnose (extension_generic_params_for_non_generic_type
                          (NameLoc ref) typeDecl (getSourceRange params)) tc))
      | None, None => (Continue ref outerGenericParams, tc)
      | Some expected, Some params =>
          if negb (size params =? size expected) then
            let numHave := size params in
            let numExpected := size expected in
            (Return,
             diagnose (extension_generic_wrong_number_of_parameters
                         (NameLoc ref) typeDecl (numExpected <? numHave)
                         numHave numExpected (getSourceRange params)) tc)
          else
            let chained := setOuterParameters outerGenericParams params in
            (Continue (mkRef (NameLoc ref) (Name ref) (Some chained))
               (Some chained), tc)
      end
  end.

(** [components[i]], as type validation left it. *)
Definition getBinding (bound : list Binding) (i : nat) : Binding :=
  default NotBound (bound !! i).

(** Lines 214-287: the components from index [i] on. The result holds
    the components as the loop left them (those it did not reach are
    untouched) and whether the loop ran to its end ([true]) or returned
    from bindExtensionDecl ([false]). *)
Fixpoint checkComponents (i : nat) (bound : list Binding)
    (refs : list RefComponent) (outerGenericParams : option GenericParamList)
    (tc : TypeChecker) : bool * list RefComponent * TypeChecker :=
  match refs with
  | [] => (true, [], tc)
  | ref :: rest =>
      match checkComponent (getBinding bound i) ref outerGenericParams tc with
      | (Continue ref' outer', tc') =>
          let '(completed, rest', tc'') :=
            checkComponents (S i) bound rest outer' tc' in
          (completed, ref' :: rest', tc'')
      | (Return, tc') => (false, ref :: rest, tc')
      end
  end.

Inductive Validation :=
  | ValidationFailed
  | Validated (bound : list Binding) (type : Type_).

Section WithValidateType.

(** [TypeChecker::validateType], defined in TypeCheckType.cpp: it fails,
    or it binds every component of the representation and yields the
    type the representation denotes. *)
Variable validateType :
  list ComponentIdentTypeRepr -> DeclContext -> TypeResolutionOptions ->
  Validation.

(** Lines 183-301. *)
Definition bindExtensionDecl (ED : ExtensionDecl) (tc : TypeChecker)
    : ExtensionDecl * TypeChecker :=
  match getExtendedType ED with
  | Some _ => (ED, tc)
  | None =>
      let dc := getDeclContext ED in
      match synthesizeComponents (getRefComponents ED) [] with
      | inl loc =>
          (setExtendedType ErrorType (setInvalid ED),
           diagnose (extension_metatype loc) tc)
      | inr components =>
          let tc :=
            mkTC (Diags tc) (ValidateTypeCalls tc ++ [components])
              (Extensions tc) in
          match validateType components dc TR_AllowUnboundGenerics with
          | ValidationFailed =>
              (setExtendedType ErrorType (setInvalid ED), tc)
          | Validated bound extendedTy =>
              let '(completed, refs, tc) :=
                checkComponents 0 bound (getRefComponents ED) None tc in
              let ED := setRefComponents refs ED in
              if negb completed then
                (setExtendedType ErrorType (setInvalid ED), tc)
              else if negb (is_NominalType extendedTy)
                      && negb (is_UnboundGenericType extendedTy) then
                (setExtendedType ErrorType (setInvalid ED),
                 diagnose (non_nominal_extension (ext_id ED) false extendedTy)
                   tc)
              else
                let ED := setExtendedType extendedTy ED in
                match getAnyNominal extendedTy with
                | Some nominal => (ED, addExtension nominal ED tc)
                | None => (ED, tc)
                end
          end
      end
  end.

End WithValidateType.

(** *** The walk over the components *)

(** The one turn that returns: the component and the type it refers to
    both have generic parameters, and not the same number of them. *)
Definition arityMismatch (ident : Binding) (ref : RefComponent) : bool :=
  match referencedTypeDecl ident, GenericParams ref with
  | Some typeDecl, Some params =>
      match getGenericParams typeDecl with
      | Some expected => negb (size params =? size expected)
      | None => false
      end
  | _, _ => false
  end.

Definition isArityDiagnostic (d : Diagnostic) : bool :=
  match d with
  | extension_generic_wrong_number_of_parameters _ _ _ _ _ _ => true
  | _ => false
  end.

(** [tc'] is [tc] with the diagnostics [ds] added, and nothing else. *)
Definition emitted (tc tc' : TypeChecker) (ds : list Diagnostic) : Prop :=
  tc' = mkTC (Diags tc ++ ds) (ValidateTypeCalls tc) (Extensions tc).

Lemma emitted_nil tc : emitted tc tc [].
Proof. unfold emitted. destruct tc. simpl. by rewrite app_nil_r. Qed.

Lemma emitted_diagnose tc d : emitted tc (diagnose d tc) [d].
Proof. reflexivity. Qed.

Lemma emitted_trans tc1 tc2 tc3 ds1 ds2 :
  emitted tc1 tc2 ds1 -> emitted tc2 tc3 ds2 -> emitted tc1 tc3 (ds1 ++ ds2).
Proof. unfold emitted. intros -> ->. simpl. by rewrite app_assoc. Qed.

Lemma checkComponent_Continue ident ref outer tc ref' outer' tc' :
  checkComponent ident ref outer tc = (Continue ref' outer', tc') ->
  arityMismatch ident ref = false /\
  exists ds, emitted tc tc' ds /\ Forall (fun d => isArityDiagnostic d = false) ds.
Proof.
  unfold checkComponent, arityMismatch.
  destruct (referencedTypeDecl ident) as [typeDecl|].
  - destruct (getGenericParams typeDecl) as [expected|],
      (GenericParams ref) as [params|]; simpl.
    + destruct (size params =? size expected); simpl; [|discriminate].
      intros [= <- <- <-]. split; [done|]. exists []. split; [apply emitted_nil|done].
    + intros [= <- <- <-]. split; [done|]. exists []. split; [apply emitted_nil|done].
    + intros [= <- <- <-]. split; [done|]. eexists [_; _]. split.
      * eapply (emitted_trans _ _ _ [_] [_]); apply emitted_diagnose.
      * by repeat constructor.
    + intros [= <- <- <-]. split; [done|]. exists []. split; [apply emitted_nil|done].
  - destruct (GenericParams ref) as [params|]; intros [= <- <- <-]; (split; [done|]).
    + eexists [_]. split; [apply emitted_diagnose|]. by repeat constructor.
    + exists []. split; [apply emitted_nil|done].
Qed.

Lemma checkComponent_Return ident ref outer tc tc' :
  checkComponent ident ref outer tc = (Return, tc') ->
  exists typeDecl params expected,
    referencedTypeDecl ident = Some typeDecl /\
    GenericParams ref = Some params /\
    getGenericParams typeDecl = Some expected /\
    size params <> size expected /\
    tc' = diagnose (extension_generic_wrong_number_of_parameters
                      (NameLoc ref) typeDecl (size expected <? size params)
                      (size params) (size expected) (getSourceRange params)) tc.
Proof.
  unfold checkComponent.
  destruct (referencedTypeDecl ident) as [typeDecl|].
  - destruct (getGenericParams typeDecl) as [expected|] eqn:He,
      (GenericParams ref) as [params|]; try discriminate.
    destruct (Nat.eqb_spec (size params) (size expected)); simpl; [discriminate|].
    intros [= <-]. exists typeDecl, params, expected. repeat split; auto.
  - destruct (GenericParams ref); discriminate.
Qed.

Lemma checkComponent_mismatch ident ref outer tc :
  arityMismatch ident ref = true ->
  (checkComponent ident ref outer tc).1 = Return.
Proof.
  destruct (checkComponent ident ref outer tc) as [[ref' outer'|] tc'] eqn:Hc;
    [|done].
  apply checkComponent_Continue in Hc as [Hno _]. congruence.
Qed.

(** The walk adds diagnostics and nothing else. *)
Lemma checkComponents_emitted i bound refs outer tc :
  exists ds, emitted tc (checkComponents i bound refs outer tc).2 ds.
Proof.
  revert i outer tc. induction refs as [|ref rest IH]; intros i outer tc; simpl.
  - exists []. apply emitted_nil.
  - destruct (checkComponent (getBinding bound i) ref outer tc)
      as [[ref' outer'|] tc'] eqn:Hc.
    + apply checkComponent_Continue in Hc as (_ & ds & Hds & _).
      destruct (IH (S i) outer' tc') as [ds' Hds'].
      destruct (checkComponents (S i) bound rest outer' tc') as [[c r] tc''].
      exists (ds ++ ds'). eapply emitted_trans; eauto.
    + apply checkComponent_Return in Hc as (? & ? & ? & _ & _ & _ & _ & ->).
      eexists. apply emitted_diagnose.
Qed.

(** The walk runs to its end exactly when no component has an arity
    mismatch. *)
Lemma checkComponents_completed i bound refs outer tc :
  (checkComponents i bound refs outer tc).1.1 = true <->
  forall k ref, refs !! k = Some ref ->
    arityMismatch (getBinding bound (i + k)) ref = false.
Proof.
  revert i outer tc. induction refs as [|ref rest IH]; intros i outer tc; simpl.
  - split; [|done]. intros _ k r Hk. by rewrite lookup_nil in Hk.
  - destruct (checkComponent (getBinding bound i) ref outer tc)
      as [[ref' outer'|] tc'] eqn:Hc.
    + apply checkComponent_Continue in Hc as (Hno & _).
      specialize (IH (S i) outer' tc').
      destruct (checkComponents (S i) bound rest outer' tc') as [[c r] tc''].
      simpl in *. rewrite IH. split.
      * intros Hrest [|k] r' Hk; simpl in Hk.
        -- injection Hk as <-. by rewrite Nat.add_0_r.
        -- rewrite Nat.add_succ_r. by apply Hrest.
      * intros Hall k r' Hk. rewrite <- Nat.add_succ_r. by apply Hall.
    + simpl. split; [discriminate|]. intros Hall.
      apply checkComponent_Return in Hc
        as (td & params & expected & Htd & Hp & He & Hne & _).
      specialize (Hall 0 ref eq_refl). rewrite Nat.add_0_r in Hall.
      unfold arityMismatch in Hall. rewrite Htd, Hp, He in Hall.
      apply negb_false_iff, Nat.eqb_eq in Hall. done.
Qed.

(** A walk over components of which one has an arity mismatch stops at
    the first such component. *)
Lemma checkComponents_first_mismatch i bound refs outer tc k ref :
  refs !! k = Some ref ->
  arityMismatch (getBinding bound (i + k)) ref = true ->
  exists j first typeDecl params expected recovered,
    j <= k /\ refs !! j = Some first /\
    referencedTypeDecl (getBinding bound (i + j)) = Some typeDecl /\
    GenericParams first = Some params /\
    getGenericParams typeDecl = Some expected /\
    size params <> size expected /\
    (forall m r, m < j -> refs !! m = Some r ->
       arityMismatch (getBinding bound (i + m)) r = false) /\
    (checkComponents i bound refs outer tc).1.1 = false /\
    Forall (fun d => isArityDiagnostic d = false) recovered /\
    emitted tc (checkComponents i bound refs outer tc).2
      (recovered ++
       [extension_generic_wrong_number_of_parameters
          (NameLoc first) typeDecl (size expected <? size params)
          (size params) (size expected) (getSourceRange params)]).
Proof.
  revert i outer tc k. induction refs as [|ref0 rest IH]; intros i outer tc k Hk Hmis.
  { by rewrite lookup_nil in Hk. }
  simpl.
  destruct (checkComponent (getBinding bound i) ref0 outer tc)
    as [[ref' outer'|] tc'] eqn:Hc.
  - pose proof Hc as Hc'.
    apply checkComponent_Continue in Hc' as (Hno & ds & Hds & Hnon).
    destruct k as [|k].
    { simpl in Hk. injection Hk as <-. rewrite Nat.add_0_r in Hmis. congruence. }
    simpl in Hk. rewrite <- Nat.add_succ_comm in Hmis.
    destruct (IH (S i) outer' tc' k Hk Hmis)
      as (j & first & td & params & expected & recovered & Hjk & Hj & Htd & Hp
          & He & Hne & Hbefore & Hab & Hrec & Hem).
    destruct (checkComponents (S i) bound rest outer' tc') as [[c r] tc''].
    simpl in *.
    exists (S j), first, td, params, expected, (ds ++ recovered).
    split; [lia|]. split; [done|].
    split; [by rewrite <- Nat.add_succ_comm|].
    split; [done|]. split; [done|]. split; [done|].
    split.
    { intros [|m] r0 Hm Hr0; simpl in Hr0.
      - injection Hr0 as <-. by rewrite Nat.add_0_r.
      - rewrite <- Nat.add_succ_comm. apply Hbefore; [lia|done]. }
    split; [done|]. split; [by apply Forall_app|].
    rewrite <- app_assoc. eapply emitted_trans; eauto.
  - apply checkComponent_Return in Hc
      as (td & params & expected & Htd & Hp & He & Hne & ->).
    exists 0, ref0, td, params, expected, [].
    split; [lia|]. split; [done|]. split; [by rewrite Nat.add_0_r|].
    split; [done|]. split; [done|]. split; [done|].
    split; [intros m r Hm; lia|].
    split; [done|]. split; [done|]. apply emitted_diagnose.
Qed.

(** *** The synthesis of the type representation *)

Definition toSimpleIdent (ref : RefComponent) : ComponentIdentTypeRepr :=
  SimpleIdentTypeRepr (NameLoc ref) (Name ref).

Definition namedType (ref : RefComponent) : Prop := Name ref = Id_Type.

#[local] Instance namedType_dec ref : Decision (namedType ref).
Proof. unfold namedType. apply _. Defined.

Lemma synthesizeComponents_from components refs :
  components <> [] ->
  synthesizeComponents refs components =
    match list_find namedType refs with
    | Some (_, ref) => inl (NameLoc ref)
    | None => inr (components ++ map toSimpleIdent refs)
    end.
Proof.
  revert components. induction refs as [|ref rest IH]; intros components Hne.
  - simpl. by rewrite app_nil_r.
  - cbn [synthesizeComponents list_find].
    rewrite (bool_decide_eq_false_2 _ Hne). simpl negb.
    destruct (String.eqb_spec (Name ref) Id_Type) as [Heq|Hneq].
    + by rewrite decide_True.
    + rewrite decide_False by done. simpl.
      rewrite IH by (by destruct components).
      destruct (list_find namedType rest) as [[j r]|]; simpl; [done|].
      by rewrite <- app_assoc.
Qed.

Lemma synthesizeComponents_top ref rest :
  synthesizeComponents (ref :: rest) [] =
    match list_find namedType rest with
    | Some (_, r) => inl (NameLoc r)
    | None => inr (map toSimpleIdent (ref :: rest))
    end.
Proof.
  cbn [synthesizeComponents]. rewrite bool_decide_eq_true_2 by done.
  rewrite andb_false_r. by rewrite synthesizeComponents_from.
Qed.

(** *** Results on bindExtensionDecl *)

Section Results.

Variable validateType :
  list ComponentIdentTypeRepr -> DeclContext -> TypeResolutionOptions ->
  Validation.

(** C10. For an extension that is not bound yet: if a component of its
    dotted name other than the first is named [Type], bindExtensionDecl
    emits extension_metatype at the first such component, marks the
    extension invalid, sets its extended type to the error type, and
    returns without a call to validateType (and without any other
    effect). *)
Theorem bindExtensionDecl_metatype ED tc i ref :
  getExtendedType ED = None ->
  getRefComponents ED !! i = Some ref -> 0 < i -> Name ref = Id_Type ->
  exists j first,
    0 < j <= i /\ getRefComponents ED !! j = Some first /\
    Name first = Id_Type /\
    (forall k r, 0 < k < j -> getRefComponents ED !! k = Some r ->
       Name r <> Id_Type) /\
    bindExtensionDecl validateType ED tc =
      (setExtendedType ErrorType (setInvalid ED),
       diagnose (extension_metatype (NameLoc first)) tc) /\
    isInvalid (bindExtensionDecl validateType ED tc).1 = true /\
    getExtendedType (bindExtensionDecl validateType ED tc).1 = Some ErrorType /\
    ValidateTypeCalls (bindExtensionDecl validateType ED tc).2 =
      ValidateTypeCalls tc.
Proof.
  intros Hunbound Hi Hpos Hname.
  unfold bindExtensionDecl. rewrite Hunbound.
  destruct (getRefComponents ED) as [|ref0 rest] eqn:Hrefs.
  { by rewrite lookup_nil in Hi. }
  destruct i as [|i]; [lia|]. simpl in Hi.
  rewrite synthesizeComponents_top.
  destruct (list_find namedType rest) as [[j first]|] eqn:Hfind.
  - apply list_find_Some in Hfind as (Hj & Hfirst & Hbefore).
    exists (S j), first. simpl.
    split.
    { split; [lia|]. destruct (decide (j <= i)) as [|Hgt]; [lia|].
      exfalso. apply (Hbefore i ref); [done|lia|done]. }
    split; [done|]. split; [done|]. split; [|done].
    intros [|k] r Hk Hr; [lia|]. simpl in Hr. apply (Hbefore k r); [done|lia].
  - exfalso. apply list_find_None in Hfind.
    eapply Forall_lookup_1 in Hfind; [|exact Hi]. by apply Hfind.
Qed.

(** C3. For an extension that is not bound yet and whose walk over the
    components is reached (no metatype component, validateType
    succeeded): if some component and the nominal type it denotes both
    carry generic parameter lists of different sizes, bindExtensionDecl
    emits one arity diagnostic, for the first such component, telling
    whether the extension has too many parameters and how many it has and
    should have; it marks the extension invalid, sets its extended type to
    the error type and returns from the walk at once: every diagnostic
    before that one is a recovery of an earlier component, none follows,
    and the extension is registered with no type. That is the only
    check of the walk that ends it: a walk runs to its last component
    exactly when no component has such a mismatch, the other checks going
    on to the next component. *)
Theorem bindExtensionDecl_arity_mismatch ED tc components bound extendedTy i ref :
  getExtendedType ED = None ->
  synthesizeComponents (getRefComponents ED) [] = inr components ->
  validateType components (getDeclContext ED) TR_AllowUnboundGenerics =
    Validated bound extendedTy ->
  getRefComponents ED !! i = Some ref ->
  arityMismatch (getBinding bound i) ref = true ->
  (exists j first typeDecl params expected recovered,
     j <= i /\ getRefComponents ED !! j = Some first /\
     referencedTypeDecl (getBinding bound j) = Some typeDecl /\
     GenericParams first = Some params /\
     getGenericParams typeDecl = Some expected /\
     size params <> size expected /\
     (forall m r, m < j -> getRefComponents ED !! m = Some r ->
        arityMismatch (getBinding bound m) r = false) /\
     isInvalid (bindExtensionDecl validateType ED tc).1 = true /\
     getExtendedType (bindExtensionDecl validateType ED tc).1 = Some ErrorType /\
     Diags (bindExtensionDecl validateType ED tc).2 =
       Diags tc ++ recovered ++
       [extension_generic_wrong_number_of_parameters
          (NameLoc first) typeDecl (size expected <? size params)
          (size params) (size expected) (getSourceRange params)] /\
     Forall (fun d => isArityDiagnostic d = false) recovered /\
     Extensions (bindExtensionDecl validateType ED tc).2 = Extensions tc) /\
  (forall i' bound' refs outer tc',
     (checkComponents i' bound' refs outer tc').1.1 = true <->
     forall k r, refs !! k = Some r ->
       arityMismatch (getBinding bound' (i' + k)) r = false).
Proof.
  intros Hunbound Hsyn Hval Hi Hmis.
  split; [|apply checkComponents_completed].
  unfold bindExtensionDecl. rewrite Hunbound, Hsyn, Hval.
  set (tc0 := mkTC (Diags tc) (ValidateTypeCalls tc ++ [components]) (Extensions tc)).
  destruct (checkComponents_first_mismatch 0 bound (getRefComponents ED) None
              tc0 i ref Hi Hmis)
    as (j & first & td & params & expected & recovered & Hji & Hj & Htd & Hp
        & He & Hne & Hbefore & Hab & Hrec & Hem).
  exists j, first, td, params, expected, recovered.
  destruct (checkComponents 0 bound (getRefComponents ED) None tc0)
    as [[completed refs] tc1].
  simpl in Hab, Hem. subst completed. simpl.
  rewrite Hem. simpl.
  repeat (split; [done|]). done.
Qed.

(** C4. A call on an extension that is already bound changes nothing. A
    call on one that is not always leaves it bound: either to the type
    validateType resolved, which then is a nominal or unbound generic
    type, with the invalid mark as it was and the extension appended to
    the extension list of that type's declaration; or, on each of the
    four ways to fail (a metatype component, a failed validation, an
    arity mismatch, a resolved type that is neither nominal nor unbound
    generic), to the error type, with the invalid mark set and no
    extension list changed. Either way a second call changes nothing. *)
Theorem bindExtensionDecl_binds_once ED tc ED' tc' :
  bindExtensionDecl validateType ED tc = (ED', tc') ->
  (is_Some (getExtendedType ED) -> ED' = ED /\ tc' = tc) /\
  (getExtendedType ED = None ->
     (exists components bound extendedTy nominal,
        synthesizeComponents (getRefComponents ED) [] = inr components /\
        validateType components (getDeclContext ED) TR_AllowUnboundGenerics =
          Validated bound extendedTy /\
        (checkComponents 0 bound (getRefComponents ED) None tc).1.1 = true /\
        is_NominalType extendedTy || is_UnboundGenericType extendedTy = true /\
        getAnyNominal extendedTy = Some nominal /\
        getExtendedType ED' = Some extendedTy /\
        isInvalid ED' = isInvalid ED /\
        Extensions tc' =
          <[nominal_id nominal := getExtensions tc nominal ++ [ext_id ED]]>
            (Extensions tc))
     \/
     (getExtendedType ED' = Some ErrorType /\ isInvalid ED' = true /\
      Extensions tc' = Extensions tc /\
      ((exists loc, synthesizeComponents (getRefComponents ED) [] = inl loc) \/
       (exists components,
          synthesizeComponents (getRefComponents ED) [] = inr components /\
          match validateType components (getDeclContext ED)
                  TR_AllowUnboundGenerics with
          | ValidationFailed => True
          | Validated bound extendedTy =>
              (checkComponents 0 bound (getRefComponents ED) None tc).1.1 = false \/
              is_NominalType extendedTy || is_UnboundGenericType extendedTy = false
          end)))) /\
  is_Some (getExtendedType ED') /\
  bindExtensionDecl validateType ED' tc' = (ED', tc').
Proof.
  intros Hbind.
  assert (Hnoop : forall E t, is_Some (getExtendedType E) ->
            bindExtensionDecl validateType E t = (E, t)).
  { intros E t [ty Hty]. unfold bindExtensionDecl. by rewrite Hty. }
  destruct (getExtendedType ED) as [ty|] eqn:Hty.
  { rewrite Hnoop in Hbind by (rewrite Hty; eauto). injection Hbind as <- <-.
    split; [done|]. split; [discriminate|].
    split; [rewrite Hty; eauto|]. apply Hnoop. rewrite Hty; eauto. }
  split; [by intros [? ?]|].
  assert (Hmain :
    (exists components bound extendedTy nominal,
        synthesizeComponents (getRefComponents ED) [] = inr components /\
        validateType components (getDeclContext ED) TR_AllowUnboundGenerics =
          Validated bound extendedTy /\
        (checkComponents 0 bound (getRefComponents ED) None tc).1.1 = true /\
        is_NominalType extendedTy || is_UnboundGenericType extendedTy = true /\
        getAnyNominal extendedTy = Some nominal /\
        getExtendedType ED' = Some extendedTy /\
        isInvalid ED' = isInvalid ED /\
        Extensions tc' =
          <[nominal_id nominal := getExtensions tc nominal ++ [ext_id ED]]>
            (Extensions tc))
     \/
     (getExtendedType ED' = Some ErrorType /\ isInvalid ED' = true /\
      Extensions tc' = Extensions tc /\
      ((exists loc, synthesizeComponents (getRefComponents ED) [] = inl loc) \/
       (exists components,
          synthesizeComponents (getRefComponents ED) [] = inr components /\
          match validateType components (getDeclContext ED)
                  TR_AllowUnboundGenerics with
          | ValidationFailed => True
          | Validated bound extendedTy =>
              (checkComponents 0 bound (getRefComponents ED) None tc).1.1 = false \/
              is_NominalType extendedTy || is_UnboundGenericType extendedTy = false
          end)))).
  { unfold bindExtensionDecl in Hbind. rewrite Hty in Hbind.
    destruct (synthesizeComponents (getRefComponents ED) []) as [loc|components]
      eqn:Hsyn.
    { injection Hbind as <- <-. right. simpl. eauto 10. }
    destruct (validateType components (getDeclContext ED) TR_AllowUnboundGenerics)
      as [|bound extendedTy] eqn:Hval.
    { injection Hbind as <- <-. right. simpl. repeat (split; [done|]).
      right. exists components. by rewrite Hval. }
    set (tc0 := mkTC (Diags tc) (ValidateTypeCalls tc ++ [components])
                  (Extensions tc)) in Hbind.
    assert (Hsame : (checkComponents 0 bound (getRefComponents ED) None tc).1.1 =
                    (checkComponents 0 bound (getRefComponents ED) None tc0).1.1).
    { pose proof (checkComponents_completed 0 bound (getRefComponents ED) None tc)
        as [H1 H2].
      pose proof (checkComponents_completed 0 bound (getRefComponents ED) None tc0)
        as [H3 H4].
      destruct (checkComponents 0 bound (getRefComponents ED) None tc).1.1,
        (checkComponents 0 bound (getRefComponents ED) None tc0).1.1; auto.
      symmetry. auto. }
    destruct (checkComponents_emitted 0 bound (getRefComponents ED) None tc0)
      as [ds Hds].
    destruct (checkComponents 0 bound (getRefComponents ED) None tc0)
      as [[completed refs] tc1].
    simpl in Hds, Hsame. unfold emitted in Hds. subst tc1.
    destruct completed; simpl in Hbind.
    - destruct (is_NominalType extendedTy) eqn:Hnom; simpl in Hbind.
      + left. unfold is_NominalType, getAnyNominal in *.
        destruct (getDesugaredType extendedTy) as [d| | | | |] eqn:Hds; try discriminate.
        injection Hbind as <- <-.
        exists components, bound, extendedTy, d.
        rewrite Hval, Hds. simpl.
        repeat (split; [done|]). done.
      + destruct (is_UnboundGenericType extendedTy) eqn:Hunb; simpl in Hbind.
        * left. unfold is_UnboundGenericType, getAnyNominal in *.
          destruct (getDesugaredType extendedTy) as [|d| | | |] eqn:Hds; try discriminate.
          injection Hbind as <- <-.
          exists components, bound, extendedTy, d.
          rewrite Hval, Hds, Hnom. simpl.
          repeat (split; [done|]). done.
        * injection Hbind as <- <-. right. simpl. repeat (split; [done|]).
          right. exists components. rewrite Hval, Hnom, Hunb. split; [done|]. by right.
    - injection Hbind as <- <-. right. simpl. repeat (split; [done|]).
      right. exists components. rewrite Hval. split; [done|]. by left. }
  split; [intros _; exact Hmain|].
  assert (Hbound : is_Some (getExtendedType ED')).
  { destruct Hmain as [(? & ? & t & ? & _ & _ & _ & _ & _ & Ht & _)|(Ht & _)];
      rewrite Ht; eauto. }
  split; [done|]. by apply Hnoop.
Qed.

(** C6, as amended. An extension of a non-generic type whose one path
    component supplies generic parameters (one, or any number) gets
    exactly one diagnostic about generic parameters on a non-generic type,
    followed by the note that points at the extended type, and no arity
    (wrong number of parameters) diagnostic; the component's parameters
    are dropped and binding goes on: the extension is not marked invalid
    for it, and when the resolved type is a nominal or unbound generic
    type the extension is bound to that type. In a longer path the same
    turn of the walk likewise goes on to the next component. *)
Theorem bindExtensionDecl_non_generic_recovers
    ED tc ref params ident typeDecl extendedTy :
  getExtendedType ED = None ->
  getRefComponents ED = [ref] ->
  GenericParams ref = Some params ->
  validateType [toSimpleIdent ref] (getDeclContext ED) TR_AllowUnboundGenerics =
    Validated [ident] extendedTy ->
  referencedTypeDecl ident = Some typeDecl ->
  getGenericParams typeDecl = None ->
  Diags (bindExtensionDecl validateType ED tc).2 =
    Diags tc ++
    [extension_generic_params_for_non_generic_type
       (NameLoc ref) typeDecl (getSourceRange params);
     extended_type_here typeDecl] ++
    (if is_NominalType extendedTy || is_UnboundGenericType extendedTy then []
     else [non_nominal_extension (ext_id ED) false extendedTy]) /\
  getRefComponents (bindExtensionDecl validateType ED tc).1 =
    [mkRef (NameLoc ref) (Name ref) None] /\
  (is_NominalType extendedTy || is_UnboundGenericType extendedTy = true ->
   getExtendedType (bindExtensionDecl validateType ED tc).1 = Some extendedTy /\
   isInvalid (bindExtensionDecl validateType ED tc).1 = isInvalid ED) /\
  (forall outer tc0,
     checkComponent ident ref outer tc0 =
       (Continue (mkRef (NameLoc ref) (Name ref) None) outer,
        diagnose (extended_type_here typeDecl)
          (diagnose (extension_generic_params_for_non_generic_type
                       (NameLoc ref) typeDecl (getSourceRange params)) tc0))).
Proof.
  intros Hunbound Hrefs Hparams Hval Hdecl Hnongeneric.
  assert (Hturn : forall outer tc0,
     checkComponent ident ref outer tc0 =
       (Continue (mkRef (NameLoc ref) (Name ref) None) outer,
        diagnose (extended_type_here typeDecl)
          (diagnose (extension_generic_params_for_non_generic_type
                       (NameLoc ref) typeDecl (getSourceRange params)) tc0))).
  { intros outer tc0. unfold checkComponent.
    by rewrite Hdecl, Hnongeneric, Hparams. }
  unfold bindExtensionDecl. rewrite Hunbound, Hrefs.
  cbn [synthesizeComponents]. rewrite bool_decide_eq_true_2 by done.
  rewrite andb_false_r. cbn [synthesizeComponents app].
  fold (toSimpleIdent ref). rewrite Hval.
  cbn [checkComponents]. unfold getBinding. cbn [lookup list_lookup default].
  rewrite Hturn. cbn [negb].
  destruct (is_NominalType extendedTy) eqn:Hnom.
  - simpl. unfold getAnyNominal, is_NominalType in *.
    destruct (getDesugaredType extendedTy); try discriminate. simpl.
    repeat split; try done. by rewrite <- app_assoc.
  - destruct (is_UnboundGenericType extendedTy) eqn:Hunb.
    + simpl. unfold getAnyNominal, is_UnboundGenericType in *.
      destruct (getDesugaredType extendedTy); try discriminate. simpl.
      repeat split; try done. by rewrite <- app_assoc.
    + simpl. repeat split; try done. by rewrite <- !app_assoc.
Qed.

End Results.

(** *** Four extensions *)

(** [struct Foo] and [struct Bar<T, U>]. *)
Definition Foo : NominalTypeDecl := mkNominal 1 "Foo" None.

Definition Bar : NominalTypeDecl :=
  mkNominal 2 "Bar"
    (Some (mkGenericParamList ["T"; "U"]%string (Some 14, Some 20) None)).

(** A type validation that knows [Foo] and [Bar]. *)
Definition validateFooBar (components : list ComponentIdentTypeRepr)
    (dc : DeclContext) (options : TypeResolutionOptions) : Validation :=
  match components with
  | [SimpleIdentTypeRepr _ name] =>
      if String.eqb name "Foo"
      then Validated [BoundType (NominalType Foo)] (NominalType Foo)
      else if String.eqb name "Bar"
      then Validated [BoundType (UnboundGenericType Bar)] (UnboundGenericType Bar)
      else ValidationFailed
  | _ => ValidationFailed
  end.

Definition oneParam : GenericParamList :=
  mkGenericParamList ["A"]%string (Some 43, Some 46) None.

Definition twoParams : GenericParamList :=
  mkGenericParamList ["A"; "B"]%string (Some 43, Some 49) None.

(** [extension Foo<A>], [extension Bar<A>], [extension Bar<A, B>] and
    [extension Foo.Type]. *)
Definition extension_Foo_A : ExtensionDecl :=
  mkExtension 100 0 [mkRef (Some 40) "Foo" (Some oneParam)] None false.

Definition extension_Bar_A : ExtensionDecl :=
  mkExtension 101 0 [mkRef (Some 40) "Bar" (Some oneParam)] None false.

Definition extension_Bar_AB : ExtensionDecl :=
  mkExtension 102 0 [mkRef (Some 40) "Bar" (Some twoParams)] None false.

Definition extension_Foo_Type : ExtensionDecl :=
  mkExtension 103 0 [mkRef (Some 40) "Foo" None; mkRef (Some 44) "Type" None]
    None false.

Definition tc_fresh : TypeChecker := mkTC [] [] ∅.

Lemma bindExtensionDecl_metatype_witness :
  isInvalid (bindExtensionDecl validateFooBar extension_Foo_Type tc_fresh).1 = true /\
  getExtendedType (bindExtensionDecl validateFooBar extension_Foo_Type tc_fresh).1 =
    Some ErrorType /\
  ValidateTypeCalls (bindExtensionDecl validateFooBar extension_Foo_Type tc_fresh).2 = [].
Proof.
  destruct (bindExtensionDecl_metatype validateFooBar extension_Foo_Type tc_fresh
              1 (mkRef (Some 44) "Type" None) eq_refl eq_refl ltac:(lia) eq_refl)
    as (j & first & _ & _ & _ & _ & _ & Hinv & Hty & Hcalls).
  exact (conj Hinv (conj Hty Hcalls)).
Defined.

Lemma bindExtensionDecl_arity_mismatch_witness :
  isInvalid (bindExtensionDecl validateFooBar extension_Bar_A tc_fresh).1 = true /\
  getExtendedType (bindExtensionDecl validateFooBar extension_Bar_A tc_fresh).1 =
    Some ErrorType /\
  Extensions (bindExtensionDecl validateFooBar extension_Bar_A tc_fresh).2 = ∅.
Proof.
  destruct (bindExtensionDecl_arity_mismatch validateFooBar extension_Bar_A
              tc_fresh [SimpleIdentTypeRepr (Some 40) "Bar"]
              [BoundType (UnboundGenericType Bar)] (UnboundGenericType Bar)
              0 (mkRef (Some 40) "Bar" (Some oneParam))
              eq_refl eq_refl eq_refl eq_refl eq_refl)
    as [(j & first & td & params & expected & recovered & _ & _ & _ & _ & _ & _
         & _ & Hinv & Hty & _ & _ & Hext) _].
  exact (conj Hinv (conj Hty Hext)).
Defined.

Lemma bindExtensionDecl_binds_once_witness :
  is_Some (getExtendedType
             (bindExtensionDecl validateFooBar extension_Bar_AB tc_fresh).1) /\
  bindExtensionDecl validateFooBar
    (bindExtensionDecl validateFooBar extension_Bar_AB tc_fresh).1
    (bindExtensionDecl validateFooBar extension_Bar_AB tc_fresh).2 =
  ((bindExtensionDecl validateFooBar extension_Bar_AB tc_fresh).1,
   (bindExtensionDecl validateFooBar extension_Bar_AB tc_fresh).2).
Proof.
  destruct (bindExtensionDecl_binds_once validateFooBar extension_Bar_AB tc_fresh
              _ _ (surjective_pairing _)) as (_ & _ & Hbound & Hagain).
  exact (conj Hbound Hagain).
Defined.

(** The extension of the generic [Bar] with as many parameters as [Bar]
    has is bound to it, its parameter list chained to no outer list, and
    registered with [Bar]. *)
Example bind_extension_Bar_AB :
  let result := bindExtensionDecl validateFooBar extension_Bar_AB tc_fresh in
  getExtendedType result.1 = Some (UnboundGenericType Bar) /\
  isInvalid result.1 = false /\
  getRefComponents result.1 = [mkRef (Some 40) "Bar" (Some twoParams)] /\
  Diags result.2 = [] /\
  getExtensions result.2 Bar = [102].
Proof. repeat split. Qed.

Lemma bindExtensionDecl_non_generic_recovers_witness :
  getExtendedType (bindExtensionDecl validateFooBar extension_Foo_A tc_fresh).1 =
    Some (NominalType Foo) /\
  isInvalid (bindExtensionDecl validateFooBar extension_Foo_A tc_fresh).1 = false.
Proof.
  destruct (bindExtensionDecl_non_generic_recovers validateFooBar extension_Foo_A
              tc_fresh (mkRef (Some 40) "Foo" (Some oneParam)) oneParam
              (BoundType (NominalType Foo)) Foo (NominalType Foo)
              eq_refl eq_refl eq_refl eq_refl eq_refl eq_refl)
    as (_ & _ & Hbound & _).
  exact (Hbound eq_refl).
Defined.

(** C6, as stated, fails: [extension Foo<A>] of the non-generic [Foo] is
    diagnosed, but it is neither marked invalid nor given the error type;
    it is bound to [Foo]. *)
Lemma bindExtensionDecl_non_generic_not_invalidated :
  let result := bindExtensionDecl validateFooBar extension_Foo_A tc_fresh in
  getGenericParams Foo = None /\
  Diags result.2 =
    [extension_generic_params_for_non_generic_type (Some 40) Foo (Some 43, Some 46);
     extended_type_here Foo] /\
  isInvalid result.1 = false /\
  getExtendedType result.1 = Some (NominalType Foo) /\
  ~ (isInvalid result.1 = true /\ getExtendedType result.1 = Some ErrorType).
Proof.
  repeat split. intros [Hinv _]. discriminate Hinv.
Qed.

(** *** What binding keeps, and when it is silent *)

(** Two components with the same name at the same place. *)
Definition sameName (r r' : RefComponent) : Prop :=
  NameLoc r' = NameLoc r /\ Name r' = Name r.

(** Generic parameter lists chained from [outer] on: each has its
    predecessor as its outer list. *)
Fixpoint chained (outer : option GenericParamList)
    (kept : list GenericParamList) : Prop :=
  match kept with
  | [] => True
  | params :: rest =>
      getOuterParameters params = outer /\ chained (Some params) rest
  end.

(** The diagnostics of one turn of the walk. *)
Definition turnDiagnostics (ident : Binding) (ref : RefComponent)
    : list Diagnostic :=
  match referencedTypeDecl ident, GenericParams ref with
  | None, Some _ =>
      [extension_generic_params_for_non_generic (NameLoc ref) (Name ref)]
  | None, None => []
  | Some typeDecl, Some params =>
      match getGenericParams typeDecl with
      | Some expected =>
          if size params =? size expected then []
          else [extension_generic_wrong_number_of_parameters
                  (NameLoc ref) typeDecl (size expected <? size params)
                  (size params) (size expected) (getSourceRange params)]
      | None =>
          [extension_generic_params_for_non_generic_type
             (NameLoc ref) typeDecl (getSourceRange params);
           extended_type_here typeDecl]
      end
  | Some _, None => []
  end.

(** The diagnostics of the walk from a component on: those of the turns
    up to and including the first that has an arity mismatch. *)
Fixpoint walkDiagnostics (i : nat) (bound : list Binding)
    (refs : list RefComponent) : list Diagnostic :=
  match refs with
  | [] => []
  | ref :: rest =>
      turnDiagnostics (getBinding bound i) ref ++
      (if arityMismatch (getBinding bound i) ref then []
       else walkDiagnostics (S i) bound rest)
  end.

(** A component that the walk passes without a word: it has generic
    parameters only if the type it refers to has as many. *)
Definition agrees (ident : Binding) (ref : RefComponent) : bool :=
  match referencedTypeDecl ident, GenericParams ref with
  | _, None => true
  | None, Some _ => false
  | Some typeDecl, Some params =>
      match getGenericParams typeDecl with
      | Some expected => size params =? size expected
      | None => false
      end
  end.

Lemma turnDiagnostics_nil ident ref :
  turnDiagnostics ident ref = [] <-> agrees ident ref = true.
Proof.
  unfold turnDiagnostics, agrees.
  destruct (referencedTypeDecl ident) as [td|], (GenericParams ref) as [params|];
    try done.
  destruct (getGenericParams td) as [expected|]; [|done].
  by destruct (size params =? size expected).
Qed.

Lemma agrees_no_mismatch ident ref :
  agrees ident ref = true -> arityMismatch ident ref = false.
Proof.
  unfold agrees, arityMismatch.
  destruct (referencedTypeDecl ident) as [td|], (GenericParams ref) as [params|];
    try done.
  destruct (getGenericParams td) as [expected|]; [|done].
  by intros ->.
Qed.

Lemma checkComponent_turn ident ref outer tc :
  emitted tc (checkComponent ident ref outer tc).2 (turnDiagnostics ident ref) /\
  match (checkComponent ident ref outer tc).1 with
  | Return => arityMismatch ident ref = true
  | Continue ref' outer' =>
      arityMismatch ident ref = false /\ sameName ref ref' /\
      ((GenericParams ref' = None /\ outer' = outer) \/
       (exists params typeDecl expected,
          GenericParams ref = Some params /\
          referencedTypeDecl ident = Some typeDecl /\
          getGenericParams typeDecl = Some expected /\
          size params = size expected /\
          GenericParams ref' = Some (setOuterParameters outer params) /\
          outer' = Some (setOuterParameters outer params)))
  end.
Proof.
  unfold checkComponent, turnDiagnostics, arityMismatch, sameName.
  destruct (referencedTypeDecl ident) as [td|] eqn:Htd.
  - destruct (getGenericParams td) as [expected|] eqn:He,
      (GenericParams ref) as [params|] eqn:Hp; simpl.
    + destruct (Nat.eqb_spec (size params) (size expected)) as [Heq|Hne]; simpl.
      * split; [apply emitted_nil|]. repeat split; try done.
        right. by exists params, td, expected.
      * split; [apply emitted_diagnose|done].
    + split; [apply emitted_nil|]. repeat split; try done. left. by rewrite Hp.
    + split; [|repeat split; try done; by left].
      eapply (emitted_trans _ _ _ [_] [_]); apply emitted_diagnose.
    + split; [apply emitted_nil|]. repeat split; try done. left. by rewrite Hp.
  - destruct (GenericParams ref) as [params|] eqn:Hp; simpl.
    + split; [apply emitted_diagnose|]. repeat split; try done. by left.
    + split; [apply emitted_nil|]. repeat split; try done. left. by rewrite Hp.
Qed.

Lemma checkComponents_walk i bound refs outer tc :
  emitted tc (checkComponents i bound refs outer tc).2
    (walkDiagnostics i bound refs) /\
  Forall2 sameName refs (checkComponents i bound refs outer tc).1.2 /\
  ((checkComponents i bound refs outer tc).1.1 = true ->
   chained outer (omap GenericParams (checkComponents i bound refs outer tc).1.2) /\
   forall k ref' params,
     (checkComponents i bound refs outer tc).1.2 !! k = Some ref' ->
     GenericParams ref' = Some params ->
     exists typeDecl expected,
       referencedTypeDecl (getBinding bound (i + k)) = Some typeDecl /\
       getGenericParams typeDecl = Some expected /\
       size params = size expected).
Proof.
  revert i outer tc. induction refs as [|ref rest IH]; intros i outer tc.
  { simpl. split; [apply emitted_nil|]. split; [constructor|].
    intros _. split; [done|]. intros k r g Hk. by rewrite lookup_nil in Hk. }
  cbn [checkComponents walkDiagnostics].
  destruct (checkComponent_turn (getBinding bound i) ref outer tc) as [Hem Hturn].
  destruct (checkComponent (getBinding bound i) ref outer tc)
    as [[ref' outer'|] tc1]; cbn [fst snd] in *.
  - destruct Hturn as (Hno & Hname & Hcases). rewrite Hno.
    destruct (IH (S i) outer' tc1) as (Hem' & Hnames & Hchain).
    destruct (checkComponents (S i) bound rest outer' tc1) as [[c rest'] tc2].
    cbn [fst snd] in *.
    split; [by eapply emitted_trans|]. split; [by constructor|].
    intros ->. destruct (Hchain eq_refl) as [Hch Harity]. split.
    + destruct Hcases as [[Hnone ->]|(params & td & expected & _ & _ & _ & _
                                      & Hsome & ->)].
      * csimpl. by rewrite Hnone.
      * csimpl. rewrite Hsome. by split.
    + intros [|k] r g Hk Hg; simpl in Hk.
      * injection Hk as <-. rewrite Nat.add_0_r.
        destruct Hcases as [[Hnone _]|(params & td & expected & _ & Htd & He
                                       & Hsize & Hsome & _)]; [congruence|].
        exists td, expected. repeat split; try done.
        rewrite Hsome in Hg. injection Hg as <-. exact Hsize.
      * rewrite Nat.add_succ_r. by apply (Harity k r g).
  - rewrite Hturn, app_nil_r. split; [done|]. split; [|done].
    apply Forall2_same_length_lookup. split; [done|].
    intros k x y Hx Hy. rewrite Hx in Hy. injection Hy as <-. by split.
Qed.

Lemma walkDiagnostics_nil i bound refs :
  walkDiagnostics i bound refs = [] <->
  forall k ref, refs !! k = Some ref ->
    agrees (getBinding bound (i + k)) ref = true.
Proof.
  revert i. induction refs as [|ref rest IH]; intros i; simpl.
  { split; [|done]. intros _ k r Hk. by rewrite lookup_nil in Hk. }
  split.
  - intros [Hturn Hrest]%app_eq_nil.
    apply turnDiagnostics_nil in Hturn.
    rewrite (agrees_no_mismatch _ _ Hturn) in Hrest.
    intros [|k] r Hk; simpl in Hk.
    + injection Hk as <-. by rewrite Nat.add_0_r.
    + rewrite Nat.add_succ_r. by apply (proj1 (IH (S i)) Hrest k r).
  - intros Hall.
    pose proof (Hall 0 ref eq_refl) as H0. rewrite Nat.add_0_r in H0.
    rewrite (proj2 (turnDiagnostics_nil _ _) H0), (agrees_no_mismatch _ _ H0).
    simpl. apply IH. intros k r Hk.
    specialize (Hall (S k) r Hk). by rewrite Nat.add_succ_r in Hall.
Qed.

Section MoreResults.

Variable validateType :
  list ComponentIdentTypeRepr -> DeclContext -> TypeResolutionOptions ->
  Validation.

(** The state in which the walk starts: the call of validateType noted. *)
Definition afterValidateType (components : list ComponentIdentTypeRepr)
    (tc : TypeChecker) : TypeChecker :=
  mkTC (Diags tc) (ValidateTypeCalls tc ++ [components]) (Extensions tc).

(** Where the four parts of bindExtensionDecl meet. *)
Lemma bindExtensionDecl_walked ED tc components bound extendedTy :
  getExtendedType ED = None ->
  synthesizeComponents (getRefComponents ED) [] = inr components ->
  validateType components (getDeclContext ED) TR_AllowUnboundGenerics =
    Validated bound extendedTy ->
  bindExtensionDecl validateType ED tc =
    let walk := checkComponents 0 bound (getRefComponents ED) None
                  (afterValidateType components tc) in
    let ED' := setRefComponents walk.1.2 ED in
    if negb walk.1.1 then (setExtendedType ErrorType (setInvalid ED'), walk.2)
    else if negb (is_NominalType extendedTy)
            && negb (is_UnboundGenericType extendedTy) then
      (setExtendedType ErrorType (setInvalid ED'),
       diagnose (non_nominal_extension (ext_id ED) false extendedTy) walk.2)
    else
      match getAnyNominal extendedTy with
      | Some nominal =>
          (setExtendedType extendedTy ED',
           addExtension nominal (setExtendedType extendedTy ED') walk.2)
      | None => (setExtendedType extendedTy ED', walk.2)
      end.
Proof.
  intros Hunbound Hsyn Hval. unfold bindExtensionDecl, afterValidateType.
  rewrite Hunbound, Hsyn, Hval.
  by destruct (checkComponents 0 bound (getRefComponents ED) None _)
    as [[completed refs] tcw].
Qed.

Lemma synthesizeComponents_inr refs components :
  synthesizeComponents refs [] = inr components ->
  components = toSimpleIdent <$> refs.
Proof.
  destruct refs as [|ref rest]; [by intros [= <-]|].
  rewrite synthesizeComponents_top.
  destruct (list_find namedType rest) as [[j r]|]; [done|]. by intros [= <-].
Qed.

(** X4. bindExtensionDecl never undoes anything. Whatever the extension
    and the state: the extension keeps its identity and context, and its
    components keep their names and places (only generic parameter lists
    are dropped or chained); the invalid mark is never cleared; the
    diagnostics so far stay and new ones come after them; validateType is
    called at most once; and every nominal type keeps the extensions it
    had, in order, a new one coming last. *)
Theorem bindExtensionDecl_keeps ED tc :
  ext_id (bindExtensionDecl validateType ED tc).1 = ext_id ED /\
  getDeclContext (bindExtensionDecl validateType ED tc).1 = getDeclContext ED /\
  Forall2 sameName (getRefComponents ED)
    (getRefComponents (bindExtensionDecl validateType ED tc).1) /\
  (isInvalid ED = true ->
   isInvalid (bindExtensionDecl validateType ED tc).1 = true) /\
  Diags tc `prefix_of` Diags (bindExtensionDecl validateType ED tc).2 /\
  ValidateTypeCalls tc `prefix_of`
    ValidateTypeCalls (bindExtensionDecl validateType ED tc).2 /\
  length (ValidateTypeCalls (bindExtensionDecl validateType ED tc).2) <=
    S (length (ValidateTypeCalls tc)) /\
  (forall nominal,
     getExtensions tc nominal `prefix_of`
     getExtensions (bindExtensionDecl validateType ED tc).2 nominal).
Proof.
  assert (Hsame : Forall2 sameName (getRefComponents ED) (getRefComponents ED)).
  { apply Forall2_same_length_lookup. split; [done|].
    intros k x y Hx Hy. rewrite Hx in Hy. injection Hy as <-. by split. }
  destruct (getExtendedType ED) as [t|] eqn:Hty.
  { unfold bindExtensionDecl. rewrite Hty. simpl.
    repeat split; try done. lia. }
  destruct (synthesizeComponents (getRefComponents ED) []) as [loc|components]
    eqn:Hsyn.
  { unfold bindExtensionDecl. rewrite Hty, Hsyn. simpl.
    repeat split; try done; [by apply prefix_app_r|lia]. }
  destruct (validateType components (getDeclContext ED) TR_AllowUnboundGenerics)
    as [|bound extendedTy] eqn:Hval.
  { unfold bindExtensionDecl. rewrite Hty, Hsyn, Hval. simpl.
    repeat split; try done; [by apply prefix_app_r|rewrite length_app; simpl; lia]. }
  rewrite (bindExtensionDecl_walked _ _ _ _ _ Hty Hsyn Hval). cbv zeta.
  destruct (checkComponents_walk 0 bound (getRefComponents ED) None
              (afterValidateType components tc)) as (Hem & Hnames & _).
  destruct (checkComponents 0 bound (getRefComponents ED) None
              (afterValidateType components tc)) as [[completed refs] tcw].
  cbn [fst snd] in *. unfold emitted in Hem. subst tcw.
  assert (Hlen : length (ValidateTypeCalls tc ++ [components]) <=
                 S (length (ValidateTypeCalls tc))).
  { rewrite length_app. simpl. lia. }
  destruct completed; simpl.
  2:{ repeat split; try done; by apply prefix_app_r. }
  destruct (negb (is_NominalType extendedTy)
            && negb (is_UnboundGenericType extendedTy)); simpl.
  { repeat split; try done; [|by apply prefix_app_r].
    rewrite <- app_assoc. by apply prefix_app_r. }
  destruct (getAnyNominal extendedTy) as [nominal|]; simpl.
  2:{ repeat split; try done; by apply prefix_app_r. }
  repeat split; try done; try by apply prefix_app_r.
  intros n. unfold getExtensions. simpl.
  destruct (decide (nominal_id nominal = nominal_id n)) as [Heq|Hne].
  - rewrite Heq, lookup_insert_eq. unfold getExtensions. simpl.
    rewrite Heq. by apply prefix_app_r.
  - by rewrite lookup_insert_ne.
Qed.

(** X5. When bindExtensionDecl binds an extension to a type other than
    the error type, the generic parameter lists its components still
    carry are chained together from the first, which has no outer list,
    each to the one before it; and each of them has as many parameters
    as the generic type its component refers to. *)
Theorem bindExtensionDecl_chains ED tc type :
  getExtendedType ED = None ->
  getExtendedType (bindExtensionDecl validateType ED tc).1 = Some type ->
  type <> ErrorType ->
  chained None
    (omap GenericParams
       (getRefComponents (bindExtensionDecl validateType ED tc).1)) /\
  exists components bound,
    validateType components (getDeclContext ED) TR_AllowUnboundGenerics =
      Validated bound type /\
    forall k ref' params,
      getRefComponents (bindExtensionDecl validateType ED tc).1 !! k = Some ref' ->
      GenericParams ref' = Some params ->
      exists typeDecl expected,
        referencedTypeDecl (getBinding bound k) = Some typeDecl /\
        getGenericParams typeDecl = Some expected /\
        size params = size expected.
Proof.
  intros Hty.
  destruct (synthesizeComponents (getRefComponents ED) []) as [loc|components]
    eqn:Hsyn.
  { unfold bindExtensionDecl. rewrite Hty, Hsyn. simpl. congruence. }
  destruct (validateType components (getDeclContext ED) TR_AllowUnboundGenerics)
    as [|bound extendedTy] eqn:Hval.
  { unfold bindExtensionDecl. rewrite Hty, Hsyn, Hval. simpl. congruence. }
  rewrite (bindExtensionDecl_walked _ _ _ _ _ Hty Hsyn Hval). cbv zeta.
  destruct (checkComponents_walk 0 bound (getRefComponents ED) None
              (afterValidateType components tc)) as (_ & _ & Hchain).
  destruct (checkComponents 0 bound (getRefComponents ED) None
              (afterValidateType components tc)) as [[completed refs] tcw].
  cbn [fst snd] in *.
  destruct completed; simpl; [|congruence].
  destruct (negb (is_NominalType extendedTy)
            && negb (is_UnboundGenericType extendedTy)); simpl; [congruence|].
  destruct (Hchain eq_refl) as [Hch Harity].
  destruct (getAnyNominal extendedTy) as [nominal|]; simpl;
    intros [= <-] _; (split; [done|]); exists components, bound; by split.
Qed.

(** X6. An extension that is not bound yet and has no component named
    [Type] after the first (the first may well be named so) has
    validateType called exactly once, on one plain identifier per
    component, with the component's name and place, in order. *)
Theorem bindExtensionDecl_validates_once ED tc :
  getExtendedType ED = None ->
  (forall i ref, 0 < i -> getRefComponents ED !! i = Some ref ->
     Name ref <> Id_Type) ->
  ValidateTypeCalls (bindExtensionDecl validateType ED tc).2 =
    ValidateTypeCalls tc ++ [toSimpleIdent <$> getRefComponents ED].
Proof.
  intros Hty HnoType.
  assert (Hsyn : synthesizeComponents (getRefComponents ED) [] =
                 inr (toSimpleIdent <$> getRefComponents ED)).
  { destruct (getRefComponents ED) as [|ref rest] eqn:Hrefs; [done|].
    rewrite synthesizeComponents_top.
    destruct (list_find namedType rest) as [[j r]|] eqn:Hfind; [|done].
    apply list_find_Some in Hfind as (Hj & Hr & _).
    by destruct (HnoType (S j) r ltac:(lia) Hj). }
  destruct (validateType (toSimpleIdent <$> getRefComponents ED)
              (getDeclContext ED) TR_AllowUnboundGenerics)
    as [|bound extendedTy] eqn:Hval.
  { unfold bindExtensionDecl. by rewrite Hty, Hsyn, Hval. }
  rewrite (bindExtensionDecl_walked _ _ _ _ _ Hty Hsyn Hval). cbv zeta.
  destruct (checkComponents_walk 0 bound (getRefComponents ED) None
              (afterValidateType (toSimpleIdent <$> getRefComponents ED) tc))
    as (Hem & _).
  destruct (checkComponents 0 bound (getRefComponents ED) None _)
    as [[completed refs] tcw].
  cbn [fst snd] in *. unfold emitted in Hem. subst tcw.
  destruct completed; simpl; [|done].
  destruct (negb (is_NominalType extendedTy)
            && negb (is_UnboundGenericType extendedTy)); simpl; [done|].
  by destruct (getAnyNominal extendedTy).
Qed.

(** X7. Once validateType has resolved the name of an unbound extension,
    bindExtensionDecl emits no diagnostic exactly when every component
    agrees with the type it refers to (it has generic parameters only if
    that type has as many) and the resolved type is a nominal or unbound
    generic type; and then the extension is bound to the resolved type,
    its invalid mark and its components untouched but for the chaining. *)
Theorem bindExtensionDecl_silent ED tc components bound extendedTy :
  getExtendedType ED = None ->
  synthesizeComponents (getRefComponents ED) [] = inr components ->
  validateType components (getDeclContext ED) TR_AllowUnboundGenerics =
    Validated bound extendedTy ->
  (Diags (bindExtensionDecl validateType ED tc).2 = Diags tc <->
   (forall k ref, getRefComponents ED !! k = Some ref ->
      agrees (getBinding bound k) ref = true) /\
   is_NominalType extendedTy || is_UnboundGenericType extendedTy = true) /\
  (Diags (bindExtensionDecl validateType ED tc).2 = Diags tc ->
   getExtendedType (bindExtensionDecl validateType ED tc).1 = Some extendedTy /\
   isInvalid (bindExtensionDecl validateType ED tc).1 = isInvalid ED).
Proof.
  intros Hty Hsyn Hval.
  rewrite (bindExtensionDecl_walked _ _ _ _ _ Hty Hsyn Hval). cbv zeta.
  destruct (checkComponents_walk 0 bound (getRefComponents ED) None
              (afterValidateType components tc)) as (Hem & _ & _).
  pose proof (checkComponents_completed 0 bound (getRefComponents ED) None
                (afterValidateType components tc)) as Hcompleted.
  pose proof (walkDiagnostics_nil 0 bound (getRefComponents ED)) as Hnil.
  destruct (checkComponents 0 bound (getRefComponents ED) None
              (afterValidateType components tc)) as [[completed refs] tcw].
  cbn [fst snd] in *. unfold emitted in Hem. subst tcw.
  set (ds := walkDiagnostics 0 bound (getRefComponents ED)) in *.
  assert (Hgrow : forall l (extra : list Diagnostic), l ++ extra = l -> extra = []).
  { intros l extra Heq. apply (app_inv_head l). by rewrite app_nil_r. }
  destruct completed; simpl.
  - destruct (is_NominalType extendedTy) eqn:Hnom; simpl.
    + assert (Hgoal : Diags tc ++ ds = Diags tc <->
                (forall k ref, getRefComponents ED !! k = Some ref ->
                   agrees (getBinding bound k) ref = true) /\ true = true).
      { rewrite <- Hnil. split; [intros H%Hgrow; by split|].
        intros [-> _]. by rewrite app_nil_r. }
      destruct (getAnyNominal extendedTy); simpl; by split.
    + destruct (is_UnboundGenericType extendedTy) eqn:Hunb; simpl.
      * assert (Hgoal : Diags tc ++ ds = Diags tc <->
                  (forall k ref, getRefComponents ED !! k = Some ref ->
                     agrees (getBinding bound k) ref = true) /\ true = true).
        { rewrite <- Hnil. split; [intros H%Hgrow; by split|].
          intros [-> _]. by rewrite app_nil_r. }
        destruct (getAnyNominal extendedTy); simpl; by split.
      * split.
        -- split; [|by intros [_ ?]].
           rewrite <- app_assoc. intros H%Hgrow.
           by destruct ds.
        -- rewrite <- app_assoc. intros H%Hgrow. by destruct ds.
  - assert (Hds : ds <> []).
    { intros Hds. pose proof (proj1 Hnil Hds) as Hall.
      assert (Hfalse : false = true); [|done].
      apply Hcompleted. intros k r Hk. by apply agrees_no_mismatch, Hall. }
    split.
    + split; [by intros H%Hgrow|]. intros [Hall _]. by apply (proj2 Hnil) in Hall.
    + by intros H%Hgrow.
Qed.

(** An extension that is bound already is left alone. *)
Lemma bindExtensionDecl_bound ED tc type :
  getExtendedType ED = Some type ->
  bindExtensionDecl validateType ED tc = (ED, tc).
Proof. intros Hty. unfold bindExtensionDecl. by rewrite Hty. Qed.

(** Binding an unbound extension always leaves it with an extended type,
    and the lists of extensions change by one registration at most. *)
Lemma bindExtensionDecl_registers ED tc :
  getExtendedType ED = None ->
  ext_id (bindExtensionDecl validateType ED tc).1 = ext_id ED /\
  exists type,
    getExtendedType (bindExtensionDecl validateType ED tc).1 = Some type /\
    match getAnyNominal type with
    | Some nominal =>
        Extensions (bindExtensionDecl validateType ED tc).2 =
          <[nominal_id nominal := getExtensions tc nominal ++ [ext_id ED]]>
            (Extensions tc)
    | None =>
        Extensions (bindExtensionDecl validateType ED tc).2 = Extensions tc
    end.
Proof.
  intros Hty.
  destruct (synthesizeComponents (getRefComponents ED) []) as [loc|components]
    eqn:Hsyn.
  { unfold bindExtensionDecl. rewrite Hty, Hsyn. simpl.
    split; [done|]. by exists ErrorType. }
  destruct (validateType components (getDeclContext ED) TR_AllowUnboundGenerics)
    as [|bound extendedTy] eqn:Hval.
  { unfold bindExtensionDecl. rewrite Hty, Hsyn, Hval. simpl.
    split; [done|]. by exists ErrorType. }
  rewrite (bindExtensionDecl_walked _ _ _ _ _ Hty Hsyn Hval). cbv zeta.
  destruct (checkComponents_walk 0 bound (getRefComponents ED) None
              (afterValidateType components tc)) as (Hem & _ & _).
  destruct (checkComponents 0 bound (getRefComponents ED) None
              (afterValidateType components tc)) as [[completed refs] tcw].
  cbn [fst snd] in *. unfold emitted in Hem. subst tcw.
  destruct completed; simpl; [|split; [done|]; by exists ErrorType].
  destruct (negb (is_NominalType extendedTy)
            && negb (is_UnboundGenericType extendedTy)); simpl;
    [split; [done|]; by exists ErrorType|].
  destruct (getAnyNominal extendedTy) as [nominal|] eqn:Hnom; simpl;
    (split; [done|]); exists extendedTy; by rewrite Hnom.
Qed.

End MoreResults.

Lemma bindExtensionDecl_chains_witness :
  chained None
    (omap GenericParams
       (getRefComponents
          (bindExtensionDecl validateFooBar extension_Bar_AB tc_fresh).1)).
Proof.
  destruct (bindExtensionDecl_chains validateFooBar extension_Bar_AB tc_fresh
              (UnboundGenericType Bar) eq_refl eq_refl ltac:(discriminate))
    as [Hchain _].
  exact Hchain.
Defined.

(** [extension Type<A>]: the first component is named [Type]. *)
Definition extension_Type_A : ExtensionDecl :=
  mkExtension 104 0 [mkRef (Some 40) "Type" (Some oneParam)] None false.

Lemma bindExtensionDecl_validates_once_witness :
  ValidateTypeCalls
    (bindExtensionDecl validateFooBar extension_Type_A tc_fresh).2 =
  [[SimpleIdentTypeRepr (Some 40) "Type"]].
Proof.
  apply (bindExtensionDecl_validates_once validateFooBar extension_Type_A
           tc_fresh eq_refl).
  intros [|[|i]] ref Hi Href; [lia|discriminate Href|discriminate Href].
Defined.

Lemma bindExtensionDecl_silent_witness :
  Diags (bindExtensionDecl validateFooBar extension_Bar_AB tc_fresh).2 = [] /\
  getExtendedType (bindExtensionDecl validateFooBar extension_Bar_AB tc_fresh).1 =
    Some (UnboundGenericType Bar).
Proof.
  destruct (bindExtensionDecl_silent validateFooBar extension_Bar_AB tc_fresh
              [SimpleIdentTypeRepr (Some 40) "Bar"]
              [BoundType (UnboundGenericType Bar)] (UnboundGenericType Bar)
              eq_refl eq_refl eq_refl) as [[_ Hsilent] Hbound].
  assert (Hd : Diags (bindExtensionDecl validateFooBar extension_Bar_AB tc_fresh).2
               = Diags tc_fresh).
  { apply Hsilent. split; [|reflexivity].
    intros [|k] ref Hk; [injection Hk as <-; reflexivity|discriminate Hk]. }
  split; [exact Hd|]. exact (proj1 (Hbound Hd)).
Defined.

End Binder.

(** ** Resolving the extensions of the visible modules: the first loop of
       performTypeChecking *)

Module Resolution.

Import Conformance Binder.

(** An extension declaration as the loop meets it in a file: the
    declaration node, named by its identity, and the inheritance clause
    written on it. *)
Record ExtensionEntry := mkExtensionEntry {
  extension : nat;
  extension_inherited : list TypeLoc
}.

Record NominalEntry := mkNominalEntry {
  nominalDecl : NominalTypeDecl;
  nominal_inherited : list TypeLoc
}.

#[local] Instance ExtensionEntry_Inherits : Inherits ExtensionEntry :=
  extension_inherited.

#[local] Instance NominalEntry_Inherits : Inherits NominalEntry :=
  nominal_inherited.

(** The classes of top-level declarations the loop tells apart. *)
Inductive Decl :=
  | IsExtensionDecl (ED : ExtensionEntry)
  | IsNominalTypeDecl (nominal : NominalEntry)
  | OtherDecl (class : nat).

(** A file of a module: a source file, with its top-level declarations,
    or a file of another kind. *)
Inductive FileUnit :=
  | IsSourceFile (Decls : list Decl)
  | OtherFileUnit (kind : nat).

Record ModuleDecl := mkModule {
  getName : Identifier;
  getFiles : list FileUnit
}.

(** What the loop reads and writes: the binder's part of the type
    checker, and the extension declaration nodes, by identity. *)
Record AST := mkAST {
  TC : TypeChecker;
  ExtensionDecls : nat -> ExtensionDecl
}.

(** [*ED = ...]: the node [id] is overwritten. *)
Definition setExtensionDecl (id : nat) (ED : ExtensionDecl)
    (nodes : nat -> ExtensionDecl) : nat -> ExtensionDecl :=
  fun j => if j =? id then ED else nodes j.

(** The state of the loop: the AST, the calls made to validateDecl
    (oldest first), and the local [ImportsFoundationModule]. *)
Record Resolved := mkResolved {
  ast : AST;
  ValidateDeclCalls : list NominalTypeDecl;
  ImportsFoundationModule : bool
}.

Definition setImportsFoundationModule (b : bool) (r : Resolved) : Resolved :=
  mkResolved (ast r) (ValidateDeclCalls r) b.

(** [Ctx.getIdentifier("Foundation")]. *)
Definition FoundationModuleName : Identifier := "Foundation"%string.

Section WithCollaborators.

Variable KnownProtocols_def : list string.

Variable validateType :
  list ComponentIdentTypeRepr -> DeclContext -> TypeResolutionOptions ->
  Validation.

(** [TypeChecker::validateDecl], defined in TypeCheckDecl.cpp. *)
Variable validateDecl : NominalTypeDecl -> AST -> AST.

Definition callValidateDecl (nominal : NominalTypeDecl) (r : Resolved)
    : Resolved :=
  mkResolved (validateDecl nominal (ast r)) (ValidateDeclCalls r ++ [nominal])
    (ImportsFoundationModule r).

(** Lines 435-443, one declaration. The extended type is dereferenced at
    line 438 without a check: [None] is the run that dereferences a null
    type. *)
Definition visitDecl (D : Decl) (r : Resolved) : option Resolved :=
  match D with
  | IsExtensionDecl ED =>
      let bound :=
        bindExtensionDecl validateType
          (ExtensionDecls (ast r) (extension ED)) (TC (ast r)) in
      let r :=
        mkResolved
          (mkAST bound.2
             (setExtensionDecl (extension ED) bound.1 (ExtensionDecls (ast r))))
          (ValidateDeclCalls r) (ImportsFoundationModule r) in
      if mayConformToKnownProtocol KnownProtocols_def ED then
        extendedType ← getExtendedType (ExtensionDecls (ast r) (extension ED));
        match getAnyNominal extendedType with
        | Some nominal => Some (callValidateDecl nominal r)
        | None => Some r
        end
      else Some r
  | IsNominalTypeDecl nominal =>
      if mayConformToKnownProtocol KnownProtocols_def nominal
      then Some (callValidateDecl (nominalDecl nominal) r)
      else Some r
  | OtherDecl _ => Some r
  end.

(** Lines 434-444. *)
Fixpoint forDecls (Decls : list Decl) (r : Resolved) : option Resolved :=
  match Decls with
  | [] => Some r
  | D :: rest => r ← visitDecl D r; forDecls rest r
  end.

(** Lines 429-445. *)
Fixpoint forFiles (files : list FileUnit) (r : Resolved) : option Resolved :=
  match files with
  | [] => Some r
  | IsSourceFile Decls :: rest => r ← forDecls Decls r; forFiles rest r
  | OtherFileUnit _ :: rest => forFiles rest r
  end.

(** Lines 424-446: the callback, on every visible module in the order
    forAllVisibleModules (defined in Module.cpp) presents them. *)
Fixpoint forAllVisibleModules (visible : list ModuleDecl) (r : Resolved)
    : option Resolved :=
  match visible with
  | [] => Some r
  | import :: rest =>
      let r :=
        if String.eqb (getName import) FoundationModuleName
        then setImportsFoundationModule true r else r in
      r ← forFiles (getFiles import) r;
      forAllVisibleModules rest r
  end.

(** Lines 422-446. *)
Definition resolveExtensions (visible : list ModuleDecl) (a : AST)
    : option Resolved :=
  forAllVisibleModules visible (mkResolved a [] false).

(** *** The loop as one pass over the declarations *)

Definition sourceDecls (file : FileUnit) : list Decl :=
  match file with
  | IsSourceFile Decls => Decls
  | OtherFileUnit _ => []
  end.

(** The declarations the loop visits, in its order. *)
Definition visitedDecls (visible : list ModuleDecl) : list Decl :=
  import ← visible; file ← getFiles import; sourceDecls file.

Definition isFoundation (import : ModuleDecl) : bool :=
  String.eqb (getName import) FoundationModuleName.

(** The AST once the declaration's extension, if it is one, is bound. *)
Definition afterBinding (D : Decl) (a : AST) : AST :=
  match D with
  | IsExtensionDecl ED =>
      let bound :=
        bindExtensionDecl validateType (ExtensionDecls a (extension ED)) (TC a) in
      mkAST bound.2 (setExtensionDecl (extension ED) bound.1 (ExtensionDecls a))
  | _ => a
  end.

(** The nominal type a declaration has validateDecl called on, going by
    the extension nodes [nodes]: its own, or the one its extension
    extends, when its inheritance clause names a known protocol. *)
Definition prompted (nodes : nat -> ExtensionDecl) (D : Decl)
    : option NominalTypeDecl :=
  match D with
  | IsExtensionDecl ED =>
      if mayConformToKnownProtocol KnownProtocols_def ED
      then getExtendedType (nodes (extension ED)) ≫= getAnyNominal
      else None
  | IsNominalTypeDecl nominal =>
      if mayConformToKnownProtocol KnownProtocols_def nominal
      then Some (nominalDecl nominal)
      else None
  | OtherDecl _ => None
  end.

(** One declaration, as a function. *)
Definition visit (r : Resolved) (D : Decl) : Resolved :=
  let a := afterBinding D (ast r) in
  match prompted (ExtensionDecls a) D with
  | Some nominal =>
      mkResolved (validateDecl nominal a) (ValidateDeclCalls r ++ [nominal])
        (ImportsFoundationModule r)
  | None => mkResolved a (ValidateDeclCalls r) (ImportsFoundationModule r)
  end.

Lemma bindExtensionDecl_is_bound ED tc :
  is_Some (getExtendedType (bindExtensionDecl validateType ED tc).1).
Proof.
  destruct (getExtendedType ED) as [type|] eqn:Hty.
  - rewrite (bindExtensionDecl_bound _ _ _ _ Hty). simpl. by rewrite Hty.
  - destruct (bindExtensionDecl_registers validateType ED tc Hty)
      as (_ & type & -> & _). by eexists.
Qed.

Lemma setExtensionDecl_eq id ED nodes : setExtensionDecl id ED nodes id = ED.
Proof. unfold setExtensionDecl. by rewrite Nat.eqb_refl. Qed.

Lemma setExtensionDecl_ne id ED nodes j :
  j <> id -> setExtensionDecl id ED nodes j = nodes j.
Proof.
  intros Hne. unfold setExtensionDecl. by destruct (Nat.eqb_spec j id).
Qed.

(** The dereference of line 438 never meets a null type. *)
Lemma visitDecl_visit D r : visitDecl D r = Some (visit r D).
Proof.
  destruct r as [a calls flag]. unfold visit.
  destruct D as [ED|nominal|class]; simpl.
  - rewrite setExtensionDecl_eq.
    destruct (mayConformToKnownProtocol KnownProtocols_def ED); [|done].
    destruct (bindExtensionDecl_is_bound (ExtensionDecls a (extension ED)) (TC a))
      as [type ->]. simpl.
    by destruct (getAnyNominal type).
  - by destruct (mayConformToKnownProtocol KnownProtocols_def nominal).
  - done.
Qed.

Lemma forDecls_foldl Decls r : forDecls Decls r = Some (foldl visit r Decls).
Proof.
  revert r. induction Decls as [|D rest IH]; intros r; simpl; [done|].
  rewrite visitDecl_visit. simpl. apply IH.
Qed.

Lemma forFiles_foldl files r :
  forFiles files r = Some (foldl visit r (files ≫= sourceDecls)).
Proof.
  revert r. induction files as [|[Decls|kind] rest IH]; intros r; csimpl.
  - done.
  - rewrite forDecls_foldl. simpl. by rewrite IH, foldl_app.
  - apply IH.
Qed.

Lemma visit_setImportsFoundationModule b r D :
  visit (setImportsFoundationModule b r) D =
  setImportsFoundationModule b (visit r D).
Proof.
  unfold visit, setImportsFoundationModule. simpl.
  by destruct (prompted _ D).
Qed.

Lemma foldl_setImportsFoundationModule b r Decls :
  foldl visit (setImportsFoundationModule b r) Decls =
  setImportsFoundationModule b (foldl visit r Decls).
Proof.
  revert r. induction Decls as [|D rest IH]; intros r; simpl; [done|].
  by rewrite visit_setImportsFoundationModule, IH.
Qed.

Lemma visit_ImportsFoundationModule r D :
  ImportsFoundationModule (visit r D) = ImportsFoundationModule r.
Proof. unfold visit. by destruct (prompted _ D). Qed.

Lemma foldl_ImportsFoundationModule r Decls :
  ImportsFoundationModule (foldl visit r Decls) = ImportsFoundationModule r.
Proof.
  revert r. induction Decls as [|D rest IH]; intros r; simpl; [done|].
  by rewrite IH, visit_ImportsFoundationModule.
Qed.

Lemma forAllVisibleModules_foldl visible r :
  forAllVisibleModules visible r =
  Some (setImportsFoundationModule
          (ImportsFoundationModule r || existsb isFoundation visible)
          (foldl visit r (visitedDecls visible))).
Proof.
  revert r. induction visible as [|import rest IH]; intros r.
  { simpl. rewrite orb_false_r. by destruct r. }
  cbn [forAllVisibleModules]. rewrite forFiles_foldl. cbn [mbind option_bind].
  rewrite IH. f_equal.
  change (visitedDecls (import :: rest))
    with ((getFiles import ≫= sourceDecls) ++ visitedDecls rest).
  rewrite foldl_app. cbn [existsb]. fold (isFoundation import).
  destruct (isFoundation import).
  - rewrite !foldl_setImportsFoundationModule.
    unfold setImportsFoundationModule. simpl. by rewrite orb_true_r.
  - by rewrite orb_false_l, foldl_ImportsFoundationModule.
Qed.

(** *** What one declaration does to the extension nodes *)

(** validateDecl leaves the extension nodes and the lists of extensions
    alone: bindExtensionDecl, the one function that writes them, is
    static to this file. *)
Definition validateDeclKeepsExtensions : Prop :=
  forall nominal a,
    (forall id, ExtensionDecls (validateDecl nominal a) id = ExtensionDecls a id) /\
    Extensions (TC (validateDecl nominal a)) = Extensions (TC a).

Definition bound (nodes : nat -> ExtensionDecl) (id : nat) : Prop :=
  is_Some (getExtendedType (nodes id)).

(** The extension node a declaration stands for, if any. *)
Definition extensionOf (D : Decl) : option nat :=
  match D with
  | IsExtensionDecl ED => Some (extension ED)
  | _ => None
  end.

Lemma visit_nodes r D id :
  validateDeclKeepsExtensions ->
  ExtensionDecls (ast (visit r D)) id =
  ExtensionDecls (afterBinding D (ast r)) id.
Proof.
  intros Hkeeps. unfold visit.
  destruct (prompted _ D) as [nominal|]; simpl; [|done].
  apply Hkeeps.
Qed.

Lemma visit_Extensions r D :
  validateDeclKeepsExtensions ->
  Extensions (TC (ast (visit r D))) =
  Extensions (TC (afterBinding D (ast r))).
Proof.
  intros Hkeeps. unfold visit.
  destruct (prompted _ D) as [nominal|]; simpl; [|done].
  apply Hkeeps.
Qed.

Lemma prompted_ext nodes nodes' D :
  (forall id, extensionOf D = Some id -> nodes' id = nodes id) ->
  prompted nodes' D = prompted nodes D.
Proof.
  intros Hsame. destruct D as [ED|nominal|class]; simpl; try done.
  by rewrite (Hsame (extension ED)).
Qed.

Lemma visit_calls r D :
  validateDeclKeepsExtensions ->
  ValidateDeclCalls (visit r D) =
  ValidateDeclCalls r ++
    option_list (prompted (ExtensionDecls (ast (visit r D))) D).
Proof.
  intros Hkeeps.
  rewrite (prompted_ext (ExtensionDecls (afterBinding D (ast r)))
             (ExtensionDecls (ast (visit r D))) D)
    by (intros id _; by apply visit_nodes).
  unfold visit. destruct (prompted _ D) as [nominal|]; simpl; [done|].
  by rewrite app_nil_r.
Qed.

(** Binding touches the declaration's own node only, and only if it is
    not bound yet; afterwards it is bound. *)
Lemma afterBinding_nodes D a id :
  extensionOf D <> Some id \/ bound (ExtensionDecls a) id ->
  ExtensionDecls (afterBinding D a) id = ExtensionDecls a id.
Proof.
  destruct D as [ED|nominal|class]; simpl; try done.
  destruct (decide (id = extension ED)) as [->|Hne].
  - intros [Hno|[type Hty]]; [done|].
    rewrite setExtensionDecl_eq.
    by rewrite (bindExtensionDecl_bound _ _ _ _ Hty).
  - intros _. by apply setExtensionDecl_ne.
Qed.

Lemma afterBinding_bound D a id :
  extensionOf D = Some id -> bound (ExtensionDecls (afterBinding D a)) id.
Proof.
  destruct D as [ED|nominal|class]; simpl; try done.
  intros [= <-]. unfold bound. rewrite setExtensionDecl_eq.
  apply bindExtensionDecl_is_bound.
Qed.

(** What holds of the nodes after the declarations [seen], in a run
    that began in [a0]. *)
Definition NodesAfter (a0 : AST) (seen : list Decl) (r : Resolved) : Prop :=
  (forall id, ~ bound (ExtensionDecls (ast r)) id ->
     ExtensionDecls (ast r) id = ExtensionDecls a0 id) /\
  (forall id, bound (ExtensionDecls a0) id ->
     ExtensionDecls (ast r) id = ExtensionDecls a0 id) /\
  (forall id, Some id ∈ extensionOf <$> seen ->
     bound (ExtensionDecls (ast r)) id) /\
  (forall id, Some id ∉ extensionOf <$> seen ->
     ExtensionDecls (ast r) id = ExtensionDecls a0 id) /\
  ValidateDeclCalls r = omap (prompted (ExtensionDecls (ast r))) seen.

Lemma bound_dec nodes id : {bound nodes id} + {~ bound nodes id}.
Proof.
  unfold bound. destruct (getExtendedType (nodes id)); [left; by eexists|].
  right. by intros [? ?].
Qed.

Lemma omap_ext_elem_of {A B} (f g : A -> option B) (l : list A) :
  (forall x, x ∈ l -> f x = g x) -> omap f l = omap g l.
Proof.
  induction l as [|x l IH]; intros Hfg; csimpl; [done|].
  rewrite (Hfg x) by left. rewrite IH; [done|].
  intros y Hy. apply Hfg. by right.
Qed.

Lemma NodesAfter_visit a0 seen r D :
  validateDeclKeepsExtensions ->
  NodesAfter a0 seen r -> NodesAfter a0 (seen ++ [D]) (visit r D).
Proof.
  intros Hkeeps (Hunbound & Hbound0 & Hseen & Hunseen & Hcalls).
  assert (Hstays : forall id,
            extensionOf D <> Some id \/ bound (ExtensionDecls (ast r)) id ->
            ExtensionDecls (ast (visit r D)) id = ExtensionDecls (ast r) id).
  { intros id Hid. rewrite visit_nodes by done. by apply afterBinding_nodes. }
  assert (Hnow : forall id, extensionOf D = Some id ->
            bound (ExtensionDecls (ast (visit r D))) id).
  { intros id Hid. unfold bound. rewrite visit_nodes by done.
    by apply afterBinding_bound. }
  split; [|split; [|split; [|split]]].
  - intros id Hun. destruct (decide (extensionOf D = Some id)) as [HD|HD].
    { destruct Hun. by apply Hnow. }
    rewrite (Hstays id) by (by left). apply Hunbound.
    intros Hb. apply Hun. unfold bound. by rewrite (Hstays id) by (by left).
  - intros id Hid. rewrite (Hstays id); [by apply Hbound0|].
    right. unfold bound. by rewrite (Hbound0 id).
  - intros id. rewrite fmap_app, elem_of_app. intros [Hin|Hin].
    + unfold bound. rewrite (Hstays id); [by apply Hseen|]. right. by apply Hseen.
    + apply Hnow. by apply list_elem_of_singleton in Hin.
  - intros id. rewrite fmap_app, not_elem_of_app. intros [Hno HD].
    rewrite (Hstays id); [by apply Hunseen|]. left. intros Heq. apply HD.
    rewrite <- Heq. simpl. by apply list_elem_of_singleton.
  - rewrite visit_calls by done. rewrite omap_app, Hcalls. f_equal.
    apply omap_ext_elem_of. intros D' HD'. symmetry. apply prompted_ext.
    intros id Hid. apply Hstays. right. apply Hseen.
    rewrite <- Hid. by apply list_elem_of_fmap_2.
Qed.

Lemma NodesAfter_start a : NodesAfter a [] (mkResolved a [] false).
Proof.
  split; [done|]. split; [done|]. split; [|done].
  intros id Hin. by apply elem_of_nil in Hin.
Qed.


(** *** The lists of extensions *)

(** Whether the run that began in [a0] registered the extension [id]
    with the nominal type [nominal]: the node was unbound, and is bound
    to a type of that nominal type now. *)
Definition newlyRegistered (a0 : AST) (nodes : nat -> ExtensionDecl)
    (id : nat) (nominal : NominalTypeDecl) : bool :=
  match getExtendedType (ExtensionDecls a0 id), getExtendedType (nodes id) with
  | None, Some type =>
      match getAnyNominal type with
      | Some extended => nominal_id extended =? nominal_id nominal
      | None => false
      end
  | _, _ => false
  end.

(** Every node sits at its own identity. *)
Definition keyed (nodes : nat -> ExtensionDecl) : Prop :=
  forall id, ext_id (nodes id) = id.

Definition ExtensionsAfter (a0 : AST) (r : Resolved) : Prop :=
  keyed (ExtensionDecls (ast r)) /\
  forall id nominal,
    count_occ Nat.eq_dec (getExtensions (TC (ast r)) nominal) id =
    count_occ Nat.eq_dec (getExtensions (TC a0) nominal) id +
    (if newlyRegistered a0 (ExtensionDecls (ast r)) id nominal then 1 else 0).

Lemma newlyRegistered_ext a0 nodes nodes' id nominal :
  nodes' id = nodes id ->
  newlyRegistered a0 nodes' id nominal = newlyRegistered a0 nodes id nominal.
Proof. intros Heq. unfold newlyRegistered. by rewrite Heq. Qed.

Lemma ExtensionsAfter_start a :
  keyed (ExtensionDecls a) -> ExtensionsAfter a (mkResolved a [] false).
Proof.
  intros Hkeyed. split; [done|]. intros id nominal. simpl.
  unfold newlyRegistered. destruct (getExtendedType (ExtensionDecls a id)); lia.
Qed.

Lemma ExtensionsAfter_ext a0 r r' :
  (forall id, ExtensionDecls (ast r') id = ExtensionDecls (ast r) id) ->
  Extensions (TC (ast r')) = Extensions (TC (ast r)) ->
  ExtensionsAfter a0 r -> ExtensionsAfter a0 r'.
Proof.
  intros Hnodes Hexts [Hkeyed Hcount]. split.
  - intros id. rewrite Hnodes. apply Hkeyed.
  - intros id nominal. unfold getExtensions. rewrite Hexts.
    rewrite (newlyRegistered_ext a0 (ExtensionDecls (ast r))) by done.
    apply Hcount.
Qed.

Lemma ExtensionsAfter_visit a0 seen r D :
  validateDeclKeepsExtensions ->
  NodesAfter a0 seen r -> ExtensionsAfter a0 r ->
  ExtensionsAfter a0 (visit r D).
Proof.
  intros Hkeeps (Hunbound & _) Hafter.
  apply (ExtensionsAfter_ext a0
           (mkResolved (afterBinding D (ast r)) (ValidateDeclCalls r)
              (ImportsFoundationModule r)));
    [intros id; by apply visit_nodes|by apply visit_Extensions|].
  destruct D as [ED|nominal|class];
    [|by apply (ExtensionsAfter_ext a0 r)..].
  destruct Hafter as [Hkeyed Hcount].
  unfold ExtensionsAfter, keyed. cbn [ast afterBinding TC ExtensionDecls].
  set (id0 := extension ED). set (node := ExtensionDecls (ast r) id0).
  destruct (getExtendedType node) as [type0|] eqn:Hty.
  { rewrite (bindExtensionDecl_bound _ _ _ _ Hty). cbn [fst snd]. split.
    - intros id. destruct (decide (id = id0)) as [->|Hne].
      + rewrite setExtensionDecl_eq. apply Hkeyed.
      + rewrite setExtensionDecl_ne by done. apply Hkeyed.
    - intros id nominal. rewrite (Hcount id nominal). f_equal.
      rewrite (newlyRegistered_ext a0 (ExtensionDecls (ast r))
                 (setExtensionDecl id0 node (ExtensionDecls (ast r))));
        [done|].
      destruct (decide (id = id0)) as [->|Hne].
      + by rewrite setExtensionDecl_eq.
      + by rewrite setExtensionDecl_ne. }
  destruct (bindExtensionDecl_registers validateType node (TC (ast r)) Hty)
    as (Hid & type & Hbound & Hexts).
  assert (Hnode0 : getExtendedType (ExtensionDecls a0 id0) = None).
  { rewrite <- (Hunbound id0); [done|]. unfold bound. fold node.
    rewrite Hty. by intros [? ?]. }
  assert (Hkey0 : ext_id node = id0) by apply Hkeyed.
  split.
  { intros id. destruct (decide (id = id0)) as [->|Hne].
    - rewrite setExtensionDecl_eq. by rewrite Hid.
    - rewrite setExtensionDecl_ne by done. apply Hkeyed. }
  intros id nominal.
  assert (Hother : id <> id0 ->
            newlyRegistered a0
              (setExtensionDecl id0
                 (bindExtensionDecl validateType node (TC (ast r))).1
                 (ExtensionDecls (ast r))) id nominal =
            newlyRegistered a0 (ExtensionDecls (ast r)) id nominal).
  { intros Hne. apply newlyRegistered_ext. by apply setExtensionDecl_ne. }
  assert (Hbefore : newlyRegistered a0 (ExtensionDecls (ast r)) id0 nominal
                    = false).
  { unfold newlyRegistered. fold node. rewrite Hty.
    by destruct (getExtendedType (ExtensionDecls a0 id0)). }
  assert (Hown : newlyRegistered a0
              (setExtensionDecl id0
                 (bindExtensionDecl validateType node (TC (ast r))).1
                 (ExtensionDecls (ast r))) id0 nominal =
            match getAnyNominal type with
            | Some extended => nominal_id extended =? nominal_id nominal
            | None => false
            end).
  { unfold newlyRegistered. by rewrite setExtensionDecl_eq, Hnode0, Hbound. }
  specialize (Hcount id nominal). unfold getExtensions in *.
  destruct (getAnyNominal type) as [extended|] eqn:Hnom.
  - rewrite Hexts.
    destruct (Nat.eqb_spec (nominal_id extended) (nominal_id nominal))
      as [Heq|Hne].
    + rewrite Heq, lookup_insert_eq. cbn [default].
      lazymatch goal with
      | |- context [Datatypes.id (?l ++ ?k)] =>
          change (Datatypes.id (l ++ k)) with (l ++ k)
      end.
      rewrite count_occ_app, Hcount, Hkey0. cbn [count_occ].
      destruct (decide (id = id0)) as [->|Hid0].
      * rewrite Hown, Hbefore. destruct (Nat.eq_dec id0 id0); [lia|done].
      * rewrite (Hother Hid0). destruct (Nat.eq_dec id0 id); [congruence|lia].
    + rewrite lookup_insert_ne by done. rewrite Hcount.
      destruct (decide (id = id0)) as [->|Hid0].
      * by rewrite Hown, Hbefore.
      * by rewrite (Hother Hid0).
  - rewrite Hexts, Hcount.
    destruct (decide (id = id0)) as [->|Hid0].
    + by rewrite Hown, Hbefore.
    + by rewrite (Hother Hid0).
Qed.

Lemma ExtensionsAfter_foldl a0 seen r Decls :
  validateDeclKeepsExtensions ->
  NodesAfter a0 seen r -> ExtensionsAfter a0 r ->
  ExtensionsAfter a0 (foldl visit r Decls).
Proof.
  intros Hkeeps. revert seen r.
  induction Decls as [|D rest IH]; intros seen r Hnodes Hexts; simpl; [done|].
  apply (IH (seen ++ [D])).
  - by apply NodesAfter_visit.
  - by eapply ExtensionsAfter_visit.
Qed.

(** *** Results on the loop *)

(** X8. The loop always runs to its end: the extended type that line 438
    dereferences is never null, because bindExtensionDecl leaves every
    extension with an extended type. At the end
    [ImportsFoundationModule] tells whether a visible module is named
    [Foundation]; and when no inheritance clause of a visited
    declaration names a known protocol, validateDecl was not called. *)
Theorem resolveExtensions_returns visible a :
  exists r,
    resolveExtensions visible a = Some r /\
    ImportsFoundationModule r = existsb isFoundation visible /\
    ((forall D, D ∈ visitedDecls visible ->
        match D with
        | IsExtensionDecl ED =>
            mayConformToKnownProtocol KnownProtocols_def ED = false
        | IsNominalTypeDecl nominal =>
            mayConformToKnownProtocol KnownProtocols_def nominal = false
        | OtherDecl _ => True
        end) ->
     ValidateDeclCalls r = []).
Proof.
  unfold resolveExtensions. rewrite forAllVisibleModules_foldl.
  eexists. split; [done|]. split; [done|]. simpl.
  assert (Hgen : forall Decls r,
            (forall D, D ∈ Decls ->
               match D with
               | IsExtensionDecl ED =>
                   mayConformToKnownProtocol KnownProtocols_def ED = false
               | IsNominalTypeDecl nominal =>
                   mayConformToKnownProtocol KnownProtocols_def nominal = false
               | OtherDecl _ => True
               end) ->
            ValidateDeclCalls (foldl visit r Decls) = ValidateDeclCalls r).
  { induction Decls as [|D rest IH]; intros r Hnone; simpl; [done|].
    rewrite IH by (intros D' HD'; apply Hnone; by right).
    pose proof (Hnone D ltac:(left)) as HD. unfold visit.
    destruct D as [ED|nominal|class]; simpl; by rewrite ?HD. }
  intros Hnone. by rewrite (Hgen _ _ Hnone).
Qed.


(** X10. If validateDecl leaves the extension nodes and the lists of
    extensions alone, and every node sits at its own identity, then the
    loop registers each extension once at most, however often its
    declaration is visited: in the list of a nominal type an extension
    occurs once more than before if it was unbound before and is now
    bound to a type of that nominal type, and as often as before
    otherwise. *)
Theorem resolveExtensions_registers_once visible a :
  validateDeclKeepsExtensions ->
  keyed (ExtensionDecls a) ->
  exists r,
    resolveExtensions visible a = Some r /\
    forall id nominal,
      count_occ Nat.eq_dec (getExtensions (TC (ast r)) nominal) id =
      count_occ Nat.eq_dec (getExtensions (TC a) nominal) id +
      (if newlyRegistered a (ExtensionDecls (ast r)) id nominal then 1 else 0).
Proof.
  intros Hkeeps Hkeyed. unfold resolveExtensions.
  rewrite forAllVisibleModules_foldl. eexists. split; [done|]. simpl.
  by destruct (ExtensionsAfter_foldl a [] _ (visitedDecls visible) Hkeeps
                 (NodesAfter_start a) (ExtensionsAfter_start a Hkeyed))
    as [_ Hcount].
Qed.

End WithCollaborators.

(** *** A module seen twice *)

(** [extension Bar<A, B> : Hashable] and [extension Bar<A> : Hashable]
    (the second has the wrong number of parameters), [struct Foo :
    Equatable], and a file that comes up twice with the first extension
    in it. *)
Definition known : list string := ["Equatable"; "Hashable"]%string.

Definition written (name : Identifier) : TypeLoc :=
  mkTypeLoc (Some (IdentTypeRepr [] (SimpleIdentTypeRepr None name))).

Definition mainFile : FileUnit :=
  IsSourceFile
    [IsExtensionDecl (mkExtensionEntry 102 [written "Hashable"]);
     IsNominalTypeDecl (mkNominalEntry Foo [written "Equatable"]);
     IsExtensionDecl (mkExtensionEntry 101 [written "Hashable"]);
     OtherDecl 0].

Definition visibleModules : list ModuleDecl :=
  [mkModule "main" [mainFile];
   mkModule "Foundation" [OtherFileUnit 0];
   mkModule "again" [IsSourceFile
                       [IsExtensionDecl (mkExtensionEntry 102 [])]]].

Definition parsedNodes (id : nat) : ExtensionDecl :=
  if id =? 101 then extension_Bar_A
  else if id =? 102 then extension_Bar_AB
  else mkExtension id 0 [] None false.

Definition parsed : AST := mkAST tc_fresh parsedNodes.

(** A validateDecl that notes the declaration in the type checker's
    diagnostics and touches nothing else. *)
Definition notingValidateDecl (nominal : NominalTypeDecl) (a : AST) : AST :=
  mkAST (diagnose (extended_type_here nominal) (TC a)) (ExtensionDecls a).

Lemma noting_keeps : validateDeclKeepsExtensions notingValidateDecl.
Proof. by intros nominal a. Qed.

Lemma parsed_keyed : keyed (ExtensionDecls parsed).
Proof.
  intros id. unfold parsed, parsedNodes. simpl.
  destruct (Nat.eqb_spec id 101) as [->|_]; [reflexivity|].
  destruct (Nat.eqb_spec id 102) as [->|_]; reflexivity.
Qed.


Lemma resolveExtensions_registers_once_witness :
  exists r,
    resolveExtensions known validateFooBar notingValidateDecl
      visibleModules parsed = Some r /\
    forall id nominal,
      count_occ Nat.eq_dec (getExtensions (TC (ast r)) nominal) id =
      count_occ Nat.eq_dec (getExtensions (TC parsed) nominal) id +
      (if newlyRegistered parsed (ExtensionDecls (ast r)) id nominal
       then 1 else 0).
Proof.
  exact (resolveExtensions_registers_once known validateFooBar
           notingValidateDecl visibleModules parsed noting_keeps parsed_keyed).
Defined.

(** The run: [Bar] has the one extension, registered once although its
    declaration came up twice; validateDecl was called on [Bar] and on
    [Foo], and not for the extension that failed to bind; a module named
    [Foundation] was seen. *)
Example resolveExtensions_run :
  (r ← resolveExtensions known validateFooBar notingValidateDecl
         visibleModules parsed;
   Some (getExtensions (TC (ast r)) Bar, ValidateDeclCalls r,
         ImportsFoundationModule r,
         getExtendedType (ExtensionDecls (ast r) 101),
         getExtendedType (ExtensionDecls (ast r) 102))) =
  Some ([102], [Bar; Foo], true, Some ErrorType,
        Some (UnboundGenericType Bar)).
Proof. vm_compute. reflexivity. Qed.

End Resolution.

(** ** Trying to add [final]: TryAddFinal *)

Module Sealing.

Inductive Accessibility := Private | Internal | Public.

#[local] Instance Accessibility_eq_dec : EqDecision Accessibility.
Proof. solve_decision. Defined.

Record DynamicAttr := mkDynamicAttr { isImplicit : bool }.

Inductive AccessorKind := IsGetter | IsSetter | IsOtherAccessor.

(** The declaration classes walkToDeclPre tells apart: stored or computed
    storage (a variable, a subscript), the three function-like classes,
    classes, and every other value declaration. *)
Inductive ValueDeclClass :=
  | AbstractStorageDecl
  | FuncDecl
  | ConstructorDecl
  | DestructorDecl
  | ClassDecl (isObjC : bool)
  | OtherValueDecl.

(** A value declaration with what the pass reads of it. [accessorOf]
    holds, for a function that is an accessor, its kind and the storage
    declaration it belongs to; [isInClass] is the answer of
    [isInClass(getDeclContext())]. *)
Inductive ValueDecl := mkValueDecl {
  class : ValueDeclClass;
  isFinal : bool;
  isInvalid : bool;
  getAccessibility : option Accessibility;
  getDynamicAttr : option DynamicAttr;
  getOverriddenDecl : option ValueDecl;
  accessorOf : option (AccessorKind * ValueDecl);
  isOverridden : bool;
  isInClass : bool
}.

Inductive Decl :=
  | IsValueDecl (ValD : ValueDecl)
  | OtherDecl (class : nat).

Definition hasAccessibility (ValD : ValueDecl) : bool :=
  bool_decide (is_Some (getAccessibility ValD)).

Definition isAccessor (ValD : ValueDecl) : bool :=
  bool_decide (is_Some (accessorOf ValD)).

Definition isSetter (ValD : ValueDecl) : bool :=
  match accessorOf ValD with
  | Some (IsSetter, _) => true
  | _ => false
  end.

Definition removeDynamicAttr (ValD : ValueDecl) : ValueDecl :=
  mkValueDecl (class ValD) (isFinal ValD) (isInvalid ValD)
    (getAccessibility ValD) None (getOverriddenDecl ValD) (accessorOf ValD)
    (isOverridden ValD) (isInClass ValD).

(** Lines 546-570; the null declaration is [None] at the two call sites. *)
Fixpoint isInferredDynamic (ValD : ValueDecl) : bool :=
  let storageInferred :=
    match class ValD, accessorOf ValD with
    | FuncDecl, Some (_, storage) => isInferredDynamic storage
    | _, _ => true
    end in
  if negb storageInferred then false
  else
    match getDynamicAttr ValD with
    | Some dynamic =>
        if isImplicit dynamic then
          match getOverriddenDecl ValD with
          | Some overridden => isInferredDynamic overridden
          | None => true
          end
        else false
    | None => true
    end.

(** Lines 654-658: the body of addFinal is a comment ("Do not add the
    'final' attribute"); the call leaves the declaration as it is. *)
Definition addFinal (ValD : ValueDecl) : ValueDecl := ValD.

(** What one visit did: whether the walk descends into the declaration,
    the declaration as the visit left it, and whether the visit called
    addFinal on it. *)
Record Visit := mkVisit {
  walkChildren : bool;
  visited : ValueDecl;
  calledAddFinal : bool
}.

(** Lines 572-652, for a value declaration. *)
Definition walkToValueDeclPre (WholeModComp : bool) (ValD : ValueDecl) : Visit :=
  match class ValD with
  | ConstructorDecl | DestructorDecl => mkVisit true ValD false
  | _ =>
  if isFinal ValD || isInvalid ValD || negb (hasAccessibility ValD)
  then mkVisit false ValD false
  else
  let dynamicAttr := getDynamicAttr ValD in
  if bool_decide (is_Some dynamicAttr) && negb (isInferredDynamic ValD)
  then mkVisit false ValD false
  else
  let removeDynamic := bool_decide (is_Some dynamicAttr) in
  let Access := getAccessibility ValD in
  if bool_decide (Access = Some Public) then mkVisit true ValD false
  else if bool_decide (Access = Some Internal) && negb WholeModComp
  then mkVisit true ValD false
  else
  match class ValD with
  | AbstractStorageDecl =>
      if negb (isOverridden ValD) && isInClass ValD then
        let ValD := addFinal ValD in
        mkVisit true (if removeDynamic then removeDynamicAttr ValD else ValD)
          true
      else mkVisit true ValD false
  | FuncDecl =>
      if negb (isOverridden ValD) && isInClass ValD then
        match accessorOf ValD with
        | Some (IsSetter, storage) =>
            if negb (isFinal storage) then mkVisit true ValD false
            else
              let ValD := addFinal ValD in
              mkVisit true
                (if removeDynamic then removeDynamicAttr ValD else ValD) true
        | _ =>
            let ValD := addFinal ValD in
            mkVisit true
              (if removeDynamic then removeDynamicAttr ValD else ValD) true
        end
      else mkVisit true ValD false
  | _ => mkVisit true ValD false
  end
  end.

(** Lines 572-575: a declaration that is no value declaration is walked
    into and left alone. *)
Definition walkToDeclPre (WholeModComp : bool) (D : Decl) : bool * Decl :=
  match D with
  | IsValueDecl ValD =>
      let v := walkToValueDeclPre WholeModComp ValD in
      (walkChildren v, IsValueDecl (visited v))
  | OtherDecl _ => (true, D)
  end.

(** *** Results on the pass *)

(** A setter whose storage declaration is not final. *)
Definition isSetterOfUnsealedStorage (ValD : ValueDecl) : bool :=
  match accessorOf ValD with
  | Some (IsSetter, storage) => negb (isFinal storage)
  | _ => false
  end.

(** The declarations the pass would seal if their accessibility and the
    compilation mode allow it: storage or a function (no constructor, no
    destructor), not final yet, valid, with accessibility computed, with
    no [dynamic] other than an inferred one, never overridden, in a
    class, and no setter of unsealed storage. *)
Definition eligible (ValD : ValueDecl) : bool :=
  negb (isFinal ValD) && negb (isInvalid ValD) && hasAccessibility ValD
  && (negb (bool_decide (is_Some (getDynamicAttr ValD))) || isInferredDynamic ValD)
  && negb (isOverridden ValD) && isInClass ValD
  && match class ValD with
     | AbstractStorageDecl => true
     | FuncDecl => negb (isSetterOfUnsealedStorage ValD)
     | _ => false
     end.

Definition modeAllows (WholeModComp : bool) (ValD : ValueDecl) : bool :=
  match getAccessibility ValD with
  | Some Private => true
  | Some Internal => WholeModComp
  | Some Public | None => false
  end.

Lemma calledAddFinal_iff WholeModComp ValD :
  calledAddFinal (walkToValueDeclPre WholeModComp ValD) =
    eligible ValD && modeAllows WholeModComp ValD.
Proof.
  unfold walkToValueDeclPre, eligible, modeAllows, hasAccessibility,
    isSetterOfUnsealedStorage, addFinal.
  generalize (isInferredDynamic ValD). intros inferred.
  destruct ValD as [cls fin inv acc dyn over accOf overridden inCls].
  cbn [class isFinal isInvalid getAccessibility getDynamicAttr accessorOf
       isOverridden isInClass].
  destruct fin; [destruct cls; reflexivity|].
  destruct inv; [destruct cls; reflexivity|].
  destruct acc as [a|]; [|destruct cls; reflexivity].
  destruct cls, a, dyn, inferred, overridden, inCls, WholeModComp;
    try reflexivity;
    destruct accOf as [[[] storage]|]; try reflexivity;
    destruct (isFinal storage); reflexivity.
Qed.

Lemma isFinal_visited WholeModComp ValD :
  isFinal (visited (walkToValueDeclPre WholeModComp ValD)) = isFinal ValD.
Proof.
  unfold walkToValueDeclPre, addFinal.
  repeat (match goal with
          | |- context [match ?x with _ => _ end] => destruct x
          end; simpl; try reflexivity).
Qed.

(** C9, as amended. The pass leaves every declaration's final mark as it
    found it, in both compilation modes: addFinal adds no attribute. What
    the modes decide is the call of addFinal. It is never called on a
    public member, which the visit leaves untouched; on an internal,
    never-overridden member in a class (storage or a function) that is
    otherwise eligible (no constructor or destructor, not final or
    invalid, accessibility computed, no explicit [dynamic], no setter of
    unsealed storage) it is called exactly when whole-module compilation
    is on; and it is never called on a setter whose storage declaration
    is not final. In general it is called exactly on the eligible
    declarations that are private, or internal under whole-module
    compilation. *)
Theorem tryAddFinal_visibility_gate :
  (forall WholeModComp ValD,
     isFinal (visited (walkToValueDeclPre WholeModComp ValD)) = isFinal ValD) /\
  (forall WholeModComp ValD,
     getAccessibility ValD = Some Public ->
     calledAddFinal (walkToValueDeclPre WholeModComp ValD) = false /\
     visited (walkToValueDeclPre WholeModComp ValD) = ValD) /\
  (forall WholeModComp ValD,
     getAccessibility ValD = Some Internal ->
     isOverridden ValD = false -> isInClass ValD = true ->
     eligible ValD = true ->
     calledAddFinal (walkToValueDeclPre WholeModComp ValD) = WholeModComp) /\
  (forall WholeModComp ValD storage,
     class ValD = FuncDecl ->
     accessorOf ValD = Some (IsSetter, storage) -> isFinal storage = false ->
     calledAddFinal (walkToValueDeclPre WholeModComp ValD) = false /\
     visited (walkToValueDeclPre WholeModComp ValD) = ValD) /\
  (forall WholeModComp ValD,
     calledAddFinal (walkToValueDeclPre WholeModComp ValD) =
       eligible ValD && modeAllows WholeModComp ValD).
Proof.
  split; [exact isFinal_visited|].
  split.
  { intros W ValD Hpub. split.
    - rewrite calledAddFinal_iff. unfold modeAllows. rewrite Hpub.
      apply andb_false_r.
    - unfold walkToValueDeclPre. rewrite Hpub. simpl.
      repeat (match goal with
              | |- context [match ?x with _ => _ end] => destruct x
              end; simpl; try reflexivity). }
  split.
  { intros W ValD Hint _ _ Hel. rewrite calledAddFinal_iff, Hel.
    unfold modeAllows. by rewrite Hint. }
  split; [|exact calledAddFinal_iff].
  intros W ValD storage Hcls Hacc Hunsealed. split.
  - rewrite calledAddFinal_iff. unfold eligible, isSetterOfUnsealedStorage.
    rewrite Hcls, Hacc, Hunsealed. simpl. by rewrite andb_false_r.
  - unfold walkToValueDeclPre. rewrite Hcls, Hacc, Hunsealed. simpl.
    repeat (match goal with
            | |- context [match ?x with _ => _ end] => destruct x
            end; simpl; try reflexivity).
Qed.

(** An internal method of a class, never overridden, and an internal
    initializer of the same class. *)
Definition internalMethod : ValueDecl :=
  mkValueDecl FuncDecl false false (Some Internal) None None None false true.

Definition internalInit : ValueDecl :=
  mkValueDecl ConstructorDecl false false (Some Internal) None None None
    false true.

(** C9, as stated, fails: under whole-module compilation the pass calls
    addFinal on an internal, never-overridden method of a class, and the
    method is not final afterwards; on an internal, never-overridden
    initializer it does not even call addFinal. *)
Lemma tryAddFinal_seals_nothing :
  eligible internalMethod = true /\
  calledAddFinal (walkToValueDeclPre true internalMethod) = true /\
  isFinal (visited (walkToValueDeclPre true internalMethod)) = false /\
  calledAddFinal (walkToValueDeclPre true internalInit) = false /\
  ~ (forall WholeModComp ValD,
       getAccessibility ValD = Some Internal ->
       isOverridden ValD = false -> isInClass ValD = true ->
       (isFinal (visited (walkToValueDeclPre WholeModComp ValD)) = true <->
        WholeModComp = true)).
Proof.
  repeat split; try reflexivity.
  intros Hall.
  destruct (Hall true internalMethod eq_refl eq_refl eq_refl) as [_ Hseal].
  specialize (Hseal eq_refl). discriminate Hseal.
Qed.

(** *** What a visit changes, and what an inferred [dynamic] is *)

Lemma visited_effect WholeModComp ValD :
  visited (walkToValueDeclPre WholeModComp ValD) =
  if calledAddFinal (walkToValueDeclPre WholeModComp ValD)
  then removeDynamicAttr ValD else ValD.
Proof.
  unfold walkToValueDeclPre, addFinal, removeDynamicAttr.
  generalize (isInferredDynamic ValD). intros inferred.
  destruct ValD as [cls fin inv acc dyn over accOf overridden inCls].
  cbn [class isFinal isInvalid getAccessibility getDynamicAttr accessorOf
       isOverridden isInClass getOverriddenDecl].
  destruct fin; [destruct cls; reflexivity|].
  destruct inv; [destruct cls; reflexivity|].
  unfold hasAccessibility. cbn [getAccessibility].
  destruct acc as [a|]; [|destruct cls; reflexivity].
  destruct cls, a, dyn, inferred, overridden, inCls, WholeModComp;
    try reflexivity;
    destruct accOf as [[[] storage]|]; try reflexivity;
    destruct (isFinal storage); reflexivity.
Qed.

Lemma walkChildren_called WholeModComp ValD :
  calledAddFinal (walkToValueDeclPre WholeModComp ValD) = true ->
  walkChildren (walkToValueDeclPre WholeModComp ValD) = true.
Proof.
  unfold walkToValueDeclPre.
  repeat (match goal with
          | |- context [match ?x with _ => _ end] => destruct x
          end; simpl; try done).
Qed.

Lemma eligible_removeDynamicAttr ValD :
  eligible ValD = true -> eligible (removeDynamicAttr ValD) = true.
Proof.
  unfold eligible, removeDynamicAttr, hasAccessibility, isSetterOfUnsealedStorage.
  generalize (isInferredDynamic ValD). intros inferred.
  cbn [class isFinal isInvalid getAccessibility getDynamicAttr accessorOf
       isOverridden isInClass].
  intros Hel. repeat (apply andb_prop in Hel as [Hel ?]).
  repeat (apply andb_true_intro; split); try done.
Qed.

Lemma explicit_not_inferred ValD dynamic :
  getDynamicAttr ValD = Some dynamic -> isImplicit dynamic = false ->
  isInferredDynamic ValD = false.
Proof.
  intros Hdyn Himp. destruct ValD as [cls fin inv acc dyn over accOf ov inCls].
  simpl in *. subst dyn. rewrite Himp.
  by destruct (negb _).
Qed.

(** X11. All a visit of TryAddFinal ever does to a declaration is to take
    its [dynamic] attribute away, and it does so exactly when it calls
    addFinal. So a declaration that comes out changed carried a
    [dynamic] that had been inferred; a declaration whose [dynamic] was
    written by the user is never touched nor passed to addFinal; and a
    second visit gives the answers of the first and changes nothing
    more. *)
Theorem tryAddFinal_drops_only_inferred_dynamic WholeModComp ValD :
  let v := walkToValueDeclPre WholeModComp ValD in
  visited v = (if calledAddFinal v then removeDynamicAttr ValD else ValD) /\
  (visited v <> ValD ->
   calledAddFinal v = true /\ is_Some (getDynamicAttr ValD) /\
   isInferredDynamic ValD = true) /\
  (forall dynamic,
     getDynamicAttr ValD = Some dynamic -> isImplicit dynamic = false ->
     calledAddFinal v = false /\ visited v = ValD) /\
  walkToValueDeclPre WholeModComp (visited v) =
    mkVisit (walkChildren v) (visited v) (calledAddFinal v).
Proof.
  cbv zeta. pose proof (visited_effect WholeModComp ValD) as Heff.
  pose proof (calledAddFinal_iff WholeModComp ValD) as Hcalled.
  pose proof (walkChildren_called WholeModComp ValD) as Hwalk.
  assert (Hexplicit : forall dynamic,
            getDynamicAttr ValD = Some dynamic -> isImplicit dynamic = false ->
            calledAddFinal (walkToValueDeclPre WholeModComp ValD) = false).
  { intros dynamic Hdyn Himp. rewrite Hcalled. unfold eligible.
    rewrite Hdyn, (explicit_not_inferred _ _ Hdyn Himp). simpl.
    by rewrite !andb_false_r. }
  split; [exact Heff|]. split; [|split].
  - intros Hchanged.
    destruct (calledAddFinal (walkToValueDeclPre WholeModComp ValD)) eqn:Hc;
      [|by rewrite Heff in Hchanged].
    split; [done|].
    destruct (getDynamicAttr ValD) as [dynamic|] eqn:Hdyn.
    + split; [by eexists|]. symmetry in Hcalled.
      apply andb_prop in Hcalled as [Hel _]. unfold eligible in Hel.
      rewrite Hdyn in Hel. simpl in Hel.
      repeat (apply andb_prop in Hel as [Hel ?]). done.
    + exfalso. apply Hchanged. rewrite Heff. unfold removeDynamicAttr.
      destruct ValD; simpl in *. by subst.
  - intros dynamic Hdyn Himp.
    rewrite Heff, (Hexplicit dynamic Hdyn Himp). done.
  - destruct (calledAddFinal (walkToValueDeclPre WholeModComp ValD)) eqn:Hc.
    + rewrite Heff, (Hwalk eq_refl).
      symmetry in Hcalled. apply andb_prop in Hcalled as [Hel Hmode].
      pose proof (visited_effect WholeModComp (removeDynamicAttr ValD)) as Heff2.
      pose proof (calledAddFinal_iff WholeModComp (removeDynamicAttr ValD))
        as Hcalled2.
      rewrite (eligible_removeDynamicAttr _ Hel) in Hcalled2.
      change (modeAllows WholeModComp (removeDynamicAttr ValD))
        with (modeAllows WholeModComp ValD) in Hcalled2.
      rewrite Hmode in Hcalled2. simpl in Hcalled2.
      pose proof (walkChildren_called WholeModComp (removeDynamicAttr ValD)
                    Hcalled2) as Hwalk2.
      rewrite Hcalled2 in Heff2.
      destruct (walkToValueDeclPre WholeModComp (removeDynamicAttr ValD))
        as [w vis c]. simpl in *. by subst.
    + rewrite Heff.
      destruct (walkToValueDeclPre WholeModComp ValD) as [w vis c].
      simpl in *. by subst.
Qed.

(** Induction over the declarations a declaration is linked to: the one
    it overrides and, for an accessor, its storage declaration. *)
Lemma ValueDecl_links_ind (P : ValueDecl -> Prop) :
  (forall ValD,
     (forall overridden, getOverriddenDecl ValD = Some overridden ->
        P overridden) ->
     (forall kind storage, accessorOf ValD = Some (kind, storage) ->
        P storage) ->
     P ValD) ->
  forall ValD, P ValD.
Proof.
  intros step. fix IH 1.
  intros [cls fin inv acc dyn over accOf ov inCls]. apply step; simpl.
  - intros overridden Hover. destruct over as [o|]; [|discriminate Hover].
    injection Hover as <-. apply IH.
  - intros kind storage Hacc. destruct accOf as [[k s]|]; [|discriminate Hacc].
    injection Hacc as <- <-. apply IH.
Qed.

(** A [dynamic] that someone wrote: on the declaration itself; or, for an
    accessor function, on what its storage declaration leads to; or, for
    a declaration whose own [dynamic] is implicit, on what the
    declaration it overrides leads to. *)
Inductive writtenDynamic : ValueDecl -> Prop :=
  | written_here ValD dynamic :
      getDynamicAttr ValD = Some dynamic -> isImplicit dynamic = false ->
      writtenDynamic ValD
  | written_on_storage ValD kind storage :
      class ValD = FuncDecl -> accessorOf ValD = Some (kind, storage) ->
      writtenDynamic storage -> writtenDynamic ValD
  | written_on_overridden ValD dynamic overridden :
      getDynamicAttr ValD = Some dynamic -> isImplicit dynamic = true ->
      getOverriddenDecl ValD = Some overridden ->
      writtenDynamic overridden -> writtenDynamic ValD.

Lemma isInferredDynamic_unfold ValD :
  isInferredDynamic ValD =
  if negb match class ValD, accessorOf ValD with
          | FuncDecl, Some (_, storage) => isInferredDynamic storage
          | _, _ => true
          end
  then false
  else match getDynamicAttr ValD with
       | Some dynamic =>
           if isImplicit dynamic then
             match getOverriddenDecl ValD with
             | Some overridden => isInferredDynamic overridden
             | None => true
             end
           else false
       | None => true
       end.
Proof. by destruct ValD. Qed.

(** X12. isInferredDynamic answers false exactly when a [dynamic] someone
    wrote can be reached from the declaration: through the storage
    declaration of an accessor function, and through the overridden
    declaration as long as the [dynamic] on the way is implicit. A
    declaration that has no [dynamic] and is no accessor function counts
    as inferred whatever it overrides. *)
Theorem isInferredDynamic_false_iff ValD :
  (isInferredDynamic ValD = false <-> writtenDynamic ValD) /\
  (getDynamicAttr ValD = None ->
   class ValD <> FuncDecl \/ accessorOf ValD = None ->
   isInferredDynamic ValD = true).
Proof.
  split.
  - induction ValD as [ValD IHover IHstorage] using ValueDecl_links_ind.
    rewrite isInferredDynamic_unfold. split.
    + intros Hfalse.
      destruct (class ValD) eqn:Hcls, (accessorOf ValD) as [[kind storage]|]
        eqn:Hacc; simpl in Hfalse;
        try (destruct (isInferredDynamic storage) eqn:Hst; simpl in Hfalse;
             [|apply (written_on_storage ValD kind storage); try done;
               by apply (IHstorage kind storage)]);
        (destruct (getDynamicAttr ValD) as [dynamic|] eqn:Hdyn; [|done];
         destruct (isImplicit dynamic) eqn:Himp;
           [|by apply (written_here ValD dynamic)];
         destruct (getOverriddenDecl ValD) as [overridden|] eqn:Hover; [|done];
         apply (written_on_overridden ValD dynamic overridden); try done;
         by apply IHover).
    + intros Hwritten.
      destruct Hwritten as [ValD dynamic Hdyn Himp
                           |ValD kind storage Hcls Hacc Hst
                           |ValD dynamic overridden Hdyn Himp Hover Hov].
      * rewrite Hdyn, Himp. by destruct (negb _).
      * rewrite Hcls, Hacc.
        apply (IHstorage kind storage Hacc) in Hst. by rewrite Hst.
      * rewrite Hdyn, Himp, Hover.
        apply (IHover overridden Hover) in Hov. rewrite Hov.
        by destruct (negb _).
  - intros Hdyn Hplain. rewrite isInferredDynamic_unfold, Hdyn.
    destruct Hplain as [Hcls|Hacc].
    + by destruct (class ValD).
    + rewrite Hacc. by destruct (class ValD).
Qed.

(** A getter whose property overrides one that was written [dynamic]:
    the getter's own [dynamic] is implicit, the property's too. *)
Definition writtenProperty : ValueDecl :=
  mkValueDecl AbstractStorageDecl false false (Some Internal)
    (Some (mkDynamicAttr false)) None None true true.

Definition derivedProperty : ValueDecl :=
  mkValueDecl AbstractStorageDecl false false (Some Internal)
    (Some (mkDynamicAttr true)) (Some writtenProperty) None false true.

Definition derivedGetter : ValueDecl :=
  mkValueDecl FuncDecl false false (Some Internal)
    (Some (mkDynamicAttr true)) None (Some (IsGetter, derivedProperty))
    false true.

Example derivedGetter_not_inferred :
  isInferredDynamic derivedGetter = false /\
  calledAddFinal (walkToValueDeclPre true derivedGetter) = false /\
  walkChildren (walkToValueDeclPre true derivedGetter) = false.
Proof. repeat split. Qed.

End Sealing.

(** ** The loop over function bodies and external definitions:
       typeCheckFunctionsAndExternalDecls *)

Module Scheduler.

Definition AbstractFunctionDecl := nat.
Definition NominalTypeDecl := nat.

Inductive NominalKind := StructDecl | ClassDecl | EnumDecl | ProtocolDecl.

(** The declarations found among the external definitions: a function, a
    nominal type, or (never expected there) anything else. *)
Inductive Decl :=
  | IsAbstractFunctionDecl (AFD : AbstractFunctionDecl)
  | IsNominalTypeDecl (kind : NominalKind) (nominal : NominalTypeDecl)
  | OtherDecl (id : nat).

(** How a run can end: it returns; or it runs out of the fuel that bounds
    the model's loops; or it hits [llvm_unreachable], or reads a vector
    past its end. *)
Inductive Outcome (A : Type) :=
  | Returned (a : A)
  | OutOfFuel
  | Unreachable
  | OutOfRange.
Arguments Returned {A} a.
Arguments OutOfFuel {A}.
Arguments Unreachable {A}.
Arguments OutOfRange {A}.

(** Sequencing: what follows a loop runs only if the loop returned. *)
#[local] Instance Outcome_bind : MBind Outcome := fun A B k o =>
  match o with
  | Returned a => k a
  | OutOfFuel => OutOfFuel
  | Unreachable => Unreachable
  | OutOfRange => OutOfRange
  end.

Section WithCollaborators.

(** Everything of the type checker and the AST that the loop itself does
    not look at. *)
Variable World : Type.

(** The state the loop reads and writes: the context's vector of external
    definitions and its index of the last one checked; the type checker's
    vector of defined functions, its buffer of implicitly defined
    functions and its vector of validated types, whose back is the last
    element of the list. *)
Record TypeChecker := mkTC {
  ExternalDefinitions : list Decl;
  LastCheckedExternalDefinition : nat;
  definedFunctions : list AbstractFunctionDecl;
  implicitlyDefinedFunctions : list AbstractFunctionDecl;
  ValidatedTypes : list NominalTypeDecl;
  world : World
}.

(** The type checker's functions that are defined in other files. *)
Variable typeCheckAbstractFunctionBody :
  AbstractFunctionDecl -> TypeChecker -> TypeChecker.
Variable computeCaptures : AbstractFunctionDecl -> TypeChecker -> TypeChecker.
Variable typeCheckDecl : NominalTypeDecl -> bool -> TypeChecker -> TypeChecker.
Variable addImplicitConstructors : NominalTypeDecl -> TypeChecker -> TypeChecker.
Variable addImplicitStructConformances :
  NominalTypeDecl -> TypeChecker -> TypeChecker.
Variable addImplicitDestructor : NominalTypeDecl -> TypeChecker -> TypeChecker.
Variable addImplicitEnumConformances :
  NominalTypeDecl -> TypeChecker -> TypeChecker.

(** Lines 55-67. *)
Definition handleExternalDecl (decl : Decl) (tc : TypeChecker) : TypeChecker :=
  let tc :=
    match decl with
    | IsNominalTypeDecl StructDecl SD =>
        addImplicitStructConformances SD (addImplicitConstructors SD tc)
    | _ => tc
    end in
  let tc :=
    match decl with
    | IsNominalTypeDecl ClassDecl CD => addImplicitDestructor CD tc
    | _ => tc
    end in
  match decl with
  | IsNominalTypeDecl EnumDecl ED => addImplicitEnumConformances ED tc
  | _ => tc
  end.

(** The places where the loop calls out, each with the index it is at and
    the declaration it passes. *)
Inductive Site :=
  | ExternalBody (index : nat) (AFD : AbstractFunctionDecl)
  | ExternalNominal (index : nat) (decl : Decl)
  | FunctionBody (index : nat) (AFD : AbstractFunctionDecl)
  | Captures (index : nat) (FD : AbstractFunctionDecl)
  | FirstPass (nominal : NominalTypeDecl).

(** One call: where it was made, and the state before and after it. The
    trace of a run is the list of its calls, oldest first; it is what the
    theorems observe, the loop never reads it. *)
Record Event := mkEvent {
  site : Site;
  before : TypeChecker;
  after : TypeChecker
}.

Definition State : Type := TypeChecker * list Event.

Definition call (s : Site) (f : TypeChecker -> TypeChecker) (st : State)
    : State :=
  (f st.1, st.2 ++ [mkEvent s st.1 (f st.1)]).

(** Lines 336-351: [for (n = size; currentExternalDef != n;
    ++currentExternalDef)], with [n] read once, before the loop. The
    cursors are indices into vectors and are kept as natural numbers
    (the vectors stay far below the range of [unsigned]); [fuel] bounds
    the number of turns of the model and is no part of the code. *)
Fixpoint externalLoop (fuel n currentExternalDef : nat) (st : State)
    : Outcome (nat * State) :=
  if currentExternalDef =? n then Returned (currentExternalDef, st) else
  match fuel with
  | 0 => OutOfFuel
  | S fuel =>
      match ExternalDefinitions st.1 !! currentExternalDef with
      | None => OutOfRange
      | Some decl =>
          match decl with
          | IsAbstractFunctionDecl AFD =>
              externalLoop fuel n (S currentExternalDef)
                (call (ExternalBody currentExternalDef AFD)
                   (typeCheckAbstractFunctionBody AFD) st)
          | IsNominalTypeDecl _ _ =>
              externalLoop fuel n (S currentExternalDef)
                (call (ExternalNominal currentExternalDef decl)
                   (handleExternalDecl decl) st)
          | OtherDecl _ => Unreachable
          end
      end
  end.

(** Lines 357-362. *)
Fixpoint functionLoop (fuel n currentFunctionIdx : nat) (st : State)
    : Outcome (nat * State) :=
  if currentFunctionIdx =? n then Returned (currentFunctionIdx, st) else
  match fuel with
  | 0 => OutOfFuel
  | S fuel =>
      match definedFunctions st.1 !! currentFunctionIdx with
      | None => OutOfRange
      | Some AFD =>
          functionLoop fuel n (S currentFunctionIdx)
            (call (FunctionBody currentFunctionIdx AFD)
               (typeCheckAbstractFunctionBody AFD) st)
      end
  end.

(** Lines 367-370: [for (i = currentFunctionIdx; i > previousFunctionIdx;
    --i)], on [definedFunctions[i-1]]. The vector holds function
    declarations, so the [dyn_cast] of line 368 always succeeds. *)
Fixpoint capturesLoop (i previousFunctionIdx : nat) (st : State)
    : Outcome State :=
  match i with
  | 0 => Returned st
  | S i' =>
      if previousFunctionIdx <? i then
        match definedFunctions st.1 !! i' with
        | None => OutOfRange
        | Some FD =>
            capturesLoop i' previousFunctionIdx
              (call (Captures i' FD) (computeCaptures FD) st)
        end
      else Returned st
  end.

Definition pop_back (tc : TypeChecker) : TypeChecker :=
  mkTC (ExternalDefinitions tc) (LastCheckedExternalDefinition tc)
    (definedFunctions tc) (implicitlyDefinedFunctions tc)
    (removelast (ValidatedTypes tc)) (world tc).

(** Lines 373-377: while the vector is not empty, take its back, pop it,
    and give it a first pass. *)
Fixpoint validatedTypesLoop (fuel : nat) (st : State) : Outcome State :=
  match last (ValidatedTypes st.1) with
  | None => Returned st
  | Some nominal =>
      match fuel with
      | 0 => OutOfFuel
      | S fuel =>
          validatedTypesLoop fuel
            (call (FirstPass nominal) (typeCheckDecl nominal true)
               (pop_back st.1, st.2))
      end
  end.

(** Lines 379-382. *)
Definition flushImplicitlyDefinedFunctions (tc : TypeChecker) : TypeChecker :=
  mkTC (ExternalDefinitions tc) (LastCheckedExternalDefinition tc)
    (definedFunctions tc ++ implicitlyDefinedFunctions tc) []
    (ValidatedTypes tc) (world tc).

(** Lines 335-382: the body of the do-while loop, once. It yields the two
    cursors and the state as the body leaves them. *)
Definition iteration (fuel currentFunctionIdx currentExternalDef : nat)
    (st : State) : Outcome (nat * nat * State) :=
  '(currentExternalDef, st) ←
    externalLoop fuel (length (ExternalDefinitions st.1)) currentExternalDef st;
  let previousFunctionIdx := currentFunctionIdx in
  '(currentFunctionIdx, st) ←
    functionLoop fuel (length (definedFunctions st.1)) currentFunctionIdx st;
  st ← capturesLoop currentFunctionIdx previousFunctionIdx st;
  st ← validatedTypesLoop fuel st;
  Returned (currentFunctionIdx, currentExternalDef,
            (flushImplicitlyDefinedFunctions st.1, st.2)).

(** Lines 334-385. *)
Fixpoint doWhile (fuel currentFunctionIdx currentExternalDef : nat)
    (st : State) : Outcome (nat * nat * State) :=
  match fuel with
  | 0 => OutOfFuel
  | S fuel =>
      '(currentFunctionIdx, currentExternalDef, st) ←
        iteration fuel currentFunctionIdx currentExternalDef st;
      if (currentFunctionIdx <? length (definedFunctions st.1))
         || (currentExternalDef <? length (ExternalDefinitions st.1))
      then doWhile fuel currentFunctionIdx currentExternalDef st
      else Returned (currentFunctionIdx, currentExternalDef, st)
  end.

(** What a run that returns leaves behind: the state, the two local
    cursors at the return, and the trace of the calls made. *)
Record Run := mkRun {
  final : TypeChecker;
  currentFunctionIdx : nat;
  currentExternalDef : nat;
  trace : list Event
}.

Definition setLastCheckedExternalDefinition (n : nat) (tc : TypeChecker)
    : TypeChecker :=
  mkTC (ExternalDefinitions tc) n (definedFunctions tc)
    (implicitlyDefinedFunctions tc) (ValidatedTypes tc) (world tc).

(** Lines 331-389. *)
Definition typeCheckFunctionsAndExternalDecls (fuel : nat) (TC : TypeChecker)
    : Outcome Run :=
  '(currentFunctionIdx, currentExternalDef, st) ←
    doWhile fuel 0 (LastCheckedExternalDefinition TC) (TC, []);
  Returned (mkRun (setLastCheckedExternalDefinition currentExternalDef st.1)
              currentFunctionIdx currentExternalDef st.2).

(** *** Observing a run *)

(** A vector with the index of every element. *)
Definition indexed {A} (l : list A) : list (nat * A) := imap pair l.

(** What a call was: a body check of a defined function, the processing
    of an external definition, a capture computation, a first pass over a
    validated type. *)
Definition checkedBody (s : Site) : option (nat * AbstractFunctionDecl) :=
  match s with FunctionBody i AFD => Some (i, AFD) | _ => None end.

Definition processedExternal (s : Site) : option (nat * Decl) :=
  match s with
  | ExternalBody i AFD => Some (i, IsAbstractFunctionDecl AFD)
  | ExternalNominal i decl => Some (i, decl)
  | _ => None
  end.

Definition computedCaptures (s : Site) : option (nat * AbstractFunctionDecl) :=
  match s with Captures i FD => Some (i, FD) | _ => None end.

Definition firstPassed (s : Site) : option NominalTypeDecl :=
  match s with FirstPass nominal => Some nominal | _ => None end.

Definition externalSite (p : nat * Decl) : Site :=
  match p.2 with
  | IsAbstractFunctionDecl AFD => ExternalBody p.1 AFD
  | decl => ExternalNominal p.1 decl
  end.

Definition bodySite (p : nat * AbstractFunctionDecl) : Site :=
  FunctionBody p.1 p.2.

Definition capturesSite (p : nat * AbstractFunctionDecl) : Site :=
  Captures p.1 p.2.

(** What a call appended to one of the collections, and what the calls
    of a trace appended to it, in order. *)
Definition grown {A} (X : TypeChecker -> list A) (e : Event) : list A :=
  drop (length (X (before e))) (X (after e)).

Definition appended {A} (X : TypeChecker -> list A) (evs : list Event)
    : list A :=
  evs ≫= grown X.

(** A collaborator that only appends to the four collections: whatever
    was in them stays, in place. *)
Definition growsOnly (f : TypeChecker -> TypeChecker) : Prop :=
  forall tc,
    ExternalDefinitions tc `prefix_of` ExternalDefinitions (f tc) /\
    definedFunctions tc `prefix_of` definedFunctions (f tc) /\
    implicitlyDefinedFunctions tc `prefix_of` implicitlyDefinedFunctions (f tc) /\
    ValidatedTypes tc `prefix_of` ValidatedTypes (f tc).

Definition collaboratorsAppendOnly : Prop :=
  (forall AFD, growsOnly (typeCheckAbstractFunctionBody AFD)) /\
  (forall FD, growsOnly (computeCaptures FD)) /\
  (forall nominal isFirstPass, growsOnly (typeCheckDecl nominal isFirstPass)) /\
  (forall SD, growsOnly (addImplicitConstructors SD)) /\
  (forall SD, growsOnly (addImplicitStructConformances SD)) /\
  (forall CD, growsOnly (addImplicitDestructor CD)) /\
  (forall ED, growsOnly (addImplicitEnumConformances ED)).

Lemma growsOnly_id : growsOnly (fun tc => tc).
Proof. by intros tc. Qed.

Lemma growsOnly_compose f g :
  growsOnly f -> growsOnly g -> growsOnly (fun tc => g (f tc)).
Proof.
  intros Hf Hg tc. destruct (Hf tc) as (?&?&?&?), (Hg (f tc)) as (?&?&?&?).
  repeat split; etrans; eauto.
Qed.

Lemma growsOnly_handleExternalDecl decl :
  collaboratorsAppendOnly -> growsOnly (handleExternalDecl decl).
Proof.
  intros (_ & _ & _ & Hctor & Hconf & Hdtor & Henum).
  unfold handleExternalDecl.
  destruct decl as [AFD|[] nominal|id]; try apply growsOnly_id; auto.
  apply (growsOnly_compose _ _ (Hctor nominal) (Hconf nominal)).
Qed.

(** The two vectors that are read through a cursor only grow. *)
Definition Mono (tc tc' : TypeChecker) : Prop :=
  ExternalDefinitions tc `prefix_of` ExternalDefinitions tc' /\
  definedFunctions tc `prefix_of` definedFunctions tc'.

Lemma Mono_refl tc : Mono tc tc.
Proof. by split. Qed.

Lemma Mono_trans tc1 tc2 tc3 : Mono tc1 tc2 -> Mono tc2 tc3 -> Mono tc1 tc3.
Proof. intros [? ?] [? ?]. split; etrans; eauto. Qed.

Lemma Mono_growsOnly f tc : growsOnly f -> Mono tc (f tc).
Proof. intros Hf. destruct (Hf tc) as (?&?&_). by split. Qed.

Lemma Mono_flush tc : Mono tc (flushImplicitlyDefinedFunctions tc).
Proof. split; simpl; [done|]. by apply prefix_app_r. Qed.

(** The books of a stretch of a run balance: the external definitions
    are those there were and those the calls appended; the defined
    functions and the buffered ones together are those there were and
    those the calls appended to either; the types given a first pass and
    those still on the stack are those there were and those the calls
    pushed. *)
Definition Ledger (tc : TypeChecker) (evs : list Event) (tc' : TypeChecker)
    : Prop :=
  ExternalDefinitions tc' =
    ExternalDefinitions tc ++ appended ExternalDefinitions evs /\
  definedFunctions tc' ++ implicitlyDefinedFunctions tc' ≡ₚ
    definedFunctions tc ++ implicitlyDefinedFunctions tc ++
    appended definedFunctions evs ++ appended implicitlyDefinedFunctions evs /\
  omap firstPassed (site <$> evs) ++ ValidatedTypes tc' ≡ₚ
    ValidatedTypes tc ++ appended ValidatedTypes evs.

Lemma prefix_grown {A} (l1 l2 : list A) :
  l1 `prefix_of` l2 -> l2 = l1 ++ drop (length l1) l2.
Proof. intros [k ->]. by rewrite drop_app_length. Qed.

Lemma Ledger_nil tc : Ledger tc [] tc.
Proof.
  unfold Ledger, appended. simpl. by rewrite !app_nil_r.
Qed.

Lemma Ledger_trans tc1 evs1 tc2 evs2 tc3 :
  Ledger tc1 evs1 tc2 -> Ledger tc2 evs2 tc3 -> Ledger tc1 (evs1 ++ evs2) tc3.
Proof.
  unfold Ledger, appended. intros (HE1 & HF1 & HV1) (HE2 & HF2 & HV2).
  rewrite !bind_app, fmap_app, omap_app. split; [|split].
  - by rewrite HE2, HE1, <- app_assoc.
  - rewrite HF2. rewrite (app_assoc (definedFunctions tc2)), HF1.
    rewrite <- !app_assoc. do 3 f_equiv.
    rewrite !app_assoc. f_equiv. apply Permutation_app_comm.
  - rewrite <- app_assoc, HV2, app_assoc, HV1. by rewrite <- app_assoc.
Qed.

Lemma Ledger_call s f tc :
  growsOnly f -> firstPassed s = None ->
  Ledger tc [mkEvent s tc (f tc)] (f tc).
Proof.
  intros Hf Hs. destruct (Hf tc) as (HE & HF & HS & HV).
  unfold Ledger, appended, grown. simpl. rewrite Hs, !app_nil_r. simpl.
  rewrite <- !prefix_grown by done. split; [done|]. split; [|done].
  rewrite (prefix_grown _ _ HF) at 1. rewrite (prefix_grown _ _ HS) at 1.
  rewrite <- !app_assoc. f_equiv. rewrite !app_assoc. f_equiv.
  apply Permutation_app_comm.
Qed.

Lemma Ledger_pop_call nominal f tc :
  growsOnly f -> last (ValidatedTypes tc) = Some nominal ->
  Ledger tc [mkEvent (FirstPass nominal) (pop_back tc) (f (pop_back tc))]
    (f (pop_back tc)).
Proof.
  intros Hf Hlast. destruct (Hf (pop_back tc)) as (HE & HF & HS & HV).
  apply last_Some in Hlast as [rest Hrest].
  unfold Ledger, appended, grown. simpl in *. rewrite !app_nil_r.
  rewrite Hrest, removelast_last in *.
  rewrite <- !prefix_grown by done. split; [done|]. split.
  - rewrite (prefix_grown _ _ HF) at 1. rewrite (prefix_grown _ _ HS) at 1.
    rewrite <- !app_assoc. f_equiv. rewrite !app_assoc. f_equiv.
    apply Permutation_app_comm.
  - rewrite (prefix_grown _ _ HV) at 1.
    rewrite <- app_assoc. simpl. by rewrite <- Permutation_middle.
Qed.

Lemma Ledger_flush tc evs tc' :
  Ledger tc evs tc' -> Ledger tc evs (flushImplicitlyDefinedFunctions tc').
Proof.
  unfold Ledger. simpl. intros (HE & HF & HV). by rewrite app_nil_r.
Qed.

(** A stretch of a run from [st] to [st']: the calls [evs] were added to
    the trace, the vectors read through cursors only grew, and the books
    balance. *)
Definition Stretch (st : State) (evs : list Event) (st' : State) : Prop :=
  st'.2 = st.2 ++ evs /\ Mono st.1 st'.1 /\ Ledger st.1 evs st'.1.

Lemma Stretch_nil st : Stretch st [] st.
Proof.
  split; [by rewrite app_nil_r|]. split; [apply Mono_refl|apply Ledger_nil].
Qed.

Lemma Stretch_trans st1 evs1 st2 evs2 st3 :
  Stretch st1 evs1 st2 -> Stretch st2 evs2 st3 ->
  Stretch st1 (evs1 ++ evs2) st3.
Proof.
  intros (Ht1 & Hm1 & Hl1) (Ht2 & Hm2 & Hl2). split; [|split].
  - by rewrite Ht2, Ht1, app_assoc.
  - by eapply Mono_trans.
  - by eapply Ledger_trans.
Qed.

Lemma Stretch_call s f st :
  growsOnly f -> firstPassed s = None ->
  Stretch st [mkEvent s st.1 (f st.1)] (call s f st).
Proof.
  intros Hf Hs. split; [done|]. split; [by apply Mono_growsOnly|].
  by apply Ledger_call.
Qed.

Lemma Stretch_pop_call nominal f st :
  growsOnly f -> last (ValidatedTypes st.1) = Some nominal ->
  Stretch st [mkEvent (FirstPass nominal) (pop_back st.1) (f (pop_back st.1))]
    (call (FirstPass nominal) f (pop_back st.1, st.2)).
Proof.
  intros Hf Hlast. split; [done|]. split; [|by apply Ledger_pop_call].
  apply (Mono_growsOnly f (pop_back st.1) Hf).
Qed.

Lemma indexed_lookup {A} (l : list A) i x :
  l !! i = Some x -> indexed l !! i = Some (i, x).
Proof. intros Hi. unfold indexed. by rewrite list_lookup_imap, Hi. Qed.

Lemma indexed_length {A} (l : list A) : length (indexed l) = length l.
Proof. apply length_imap. Qed.

Lemma indexed_prefix {A} (l1 l2 : list A) :
  l1 `prefix_of` l2 -> indexed l1 `prefix_of` indexed l2.
Proof. intros [k ->]. unfold indexed. rewrite imap_app. by eexists. Qed.

Lemma take_indexed_prefix {A} (l1 l2 : list A) n :
  l1 `prefix_of` l2 -> n <= length l1 ->
  take n (indexed l2) = take n (indexed l1).
Proof.
  intros Hp Hn. apply indexed_prefix in Hp as [k ->].
  apply take_app_le. by rewrite indexed_length.
Qed.

Lemma drop_take_nil {A} (l : list A) n m : n <= m -> drop m (take n l) = [].
Proof. intros Hnm. apply drop_ge. rewrite length_take. lia. Qed.

Lemma omap_fmap_Some {A B} (f : B -> option A) (g : A -> B) (l : list A) :
  (forall x, f (g x) = Some x) -> omap f (g <$> l) = l.
Proof. intros Hfg. induction l as [|x l IH]; csimpl; [done|]. by rewrite Hfg, IH. Qed.

Lemma omap_fmap_None {A B C} (f : B -> option C) (g : A -> B) (l : list A) :
  (forall x, f (g x) = None) -> omap f (g <$> l) = [].
Proof. intros Hfg. induction l as [|x l IH]; csimpl; [done|]. by rewrite Hfg, IH. Qed.

(** *** The four inner loops *)

Lemma externalLoop_spec fuel n cur st cur' st' :
  collaboratorsAppendOnly ->
  externalLoop fuel n cur st = Returned (cur', st') ->
  cur <= n /\ cur' = n /\
  exists evs,
    Stretch st evs st' /\
    site <$> evs =
      externalSite <$> drop cur (take n (indexed (ExternalDefinitions st'.1))).
Proof.
  intros Hcol. revert cur st.
  assert (Hdone : forall cur st, cur = n ->
            Returned (cur, st) = Returned (cur', st') ->
            cur <= n /\ cur' = n /\
            exists evs, Stretch st evs st' /\
              site <$> evs =
                externalSite <$> drop cur (take n (indexed (ExternalDefinitions st'.1)))).
  { intros cur st -> [= <- <-]. split; [done|]. split; [done|].
    exists []. split; [apply Stretch_nil|]. by rewrite drop_take_nil. }
  induction fuel as [|fuel IH]; intros cur st; simpl;
    destruct (Nat.eqb_spec cur n) as [Heq|Hne]; eauto; [done|].
  destruct (ExternalDefinitions st.1 !! cur) as [decl|] eqn:Hdecl; [|done].
  assert (Hstep : forall s f,
            growsOnly f -> firstPassed s = None ->
            s = externalSite (cur, decl) ->
            externalLoop fuel n (S cur) (call s f st) = Returned (cur', st') ->
            cur <= n /\ cur' = n /\
            exists evs, Stretch st evs st' /\
              site <$> evs =
                externalSite <$> drop cur (take n (indexed (ExternalDefinitions st'.1)))).
  { intros s f Hf Hs Hsite Hrun.
    apply IH in Hrun as (Hle & -> & evs & Hst & Hsites).
    split; [lia|]. split; [done|].
    exists (mkEvent s st.1 (f st.1) :: evs). split.
    - apply (Stretch_trans _ [_] _ _ _ (Stretch_call s f st Hf Hs) Hst).
    - pose proof (Stretch_trans _ [_] _ _ _ (Stretch_call s f st Hf Hs) Hst)
        as (_ & [HE _] & _).
      rewrite (drop_S _ (cur, decl)).
      + rewrite !fmap_cons, Hsites. cbn [site]. by rewrite Hsite.
      + rewrite lookup_take_lt by lia. apply indexed_lookup.
        by eapply prefix_lookup_Some. }
  destruct decl as [AFD|kind nominal|id]; [| |done].
  - apply Hstep; [apply Hcol|done|done].
  - apply Hstep; [by apply growsOnly_handleExternalDecl|done|done].
Qed.

Lemma functionLoop_spec fuel n cur st cur' st' :
  collaboratorsAppendOnly ->
  functionLoop fuel n cur st = Returned (cur', st') ->
  cur <= n /\ cur' = n /\
  exists evs,
    Stretch st evs st' /\
    site <$> evs =
      bodySite <$> drop cur (take n (indexed (definedFunctions st'.1))).
Proof.
  intros Hcol. revert cur st.
  induction fuel as [|fuel IH]; intros cur st; simpl;
    destruct (Nat.eqb_spec cur n) as [Heq|Hne];
    try (intros [= <- <-]; subst cur; split; [done|]; split; [done|];
         exists []; split; [apply Stretch_nil|]; by rewrite drop_take_nil);
    [done|].
  destruct (definedFunctions st.1 !! cur) as [AFD|] eqn:HAFD; [|done].
  intros Hrun. apply IH in Hrun as (Hle & -> & evs & Hst & Hsites).
  destruct Hcol as (Hbody & _).
  pose proof (Stretch_trans _ [_] _ _ _
                (Stretch_call (FunctionBody cur AFD) _ st (Hbody AFD) eq_refl) Hst)
    as Hall.
  split; [lia|]. split; [done|]. eexists. split; [exact Hall|].
  cbn [app]. destruct Hall as (_ & [_ HF] & _).
  rewrite (drop_S _ (cur, AFD)).
  - by rewrite !fmap_cons, Hsites.
  - rewrite lookup_take_lt by lia. apply indexed_lookup.
    by eapply prefix_lookup_Some.
Qed.

Lemma capturesLoop_spec i prev st st' :
  collaboratorsAppendOnly ->
  capturesLoop i prev st = Returned st' ->
  exists evs,
    Stretch st evs st' /\
    site <$> evs =
      capturesSite <$> reverse (drop prev (take i (indexed (definedFunctions st'.1)))).
Proof.
  intros Hcol. revert st.
  induction i as [|i IH]; intros st; simpl.
  { intros [= <-]. exists []. split; [apply Stretch_nil|].
    by rewrite take_0, drop_nil. }
  destruct (Nat.ltb_spec prev (S i)) as [Hlt|Hge].
  - destruct (definedFunctions st.1 !! i) as [FD|] eqn:HFD; [|done].
    intros Hrun. apply IH in Hrun as (evs & Hst & Hsites).
    destruct Hcol as (_ & Hcap & _).
    pose proof (Stretch_trans _ [_] _ _ _
                  (Stretch_call (Captures i FD) _ st (Hcap FD) eq_refl) Hst)
      as Hall.
    eexists. split; [exact Hall|].
    cbn [app]. destruct Hall as (_ & [_ HF] & _).
    assert (Hi : indexed (definedFunctions st'.1) !! i = Some (i, FD)).
    { apply indexed_lookup. by eapply prefix_lookup_Some. }
    rewrite (take_S_r _ _ _ Hi).
    rewrite drop_app_le.
    2:{ apply lookup_lt_Some in Hi. rewrite length_take. lia. }
    by rewrite reverse_snoc, !fmap_cons, Hsites.
  - intros [= <-]. exists []. split; [apply Stretch_nil|].
    rewrite drop_take_nil by lia. done.
Qed.

Lemma validatedTypesLoop_spec fuel st st' :
  collaboratorsAppendOnly ->
  validatedTypesLoop fuel st = Returned st' ->
  ValidatedTypes st'.1 = [] /\
  exists evs nominals,
    Stretch st evs st' /\ site <$> evs = FirstPass <$> nominals.
Proof.
  intros Hcol. revert st.
  assert (Hdone : forall st, last (ValidatedTypes st.1) = None ->
            Returned st = Returned st' ->
            ValidatedTypes st'.1 = [] /\
            exists evs nominals,
              Stretch st evs st' /\ site <$> evs = FirstPass <$> nominals).
  { intros st Hlast [= <-]. apply last_None in Hlast. split; [done|].
    exists [], []. split; [apply Stretch_nil|done]. }
  induction fuel as [|fuel IH]; intros st; simpl;
    destruct (last (ValidatedTypes st.1)) as [nominal|] eqn:Hlast; eauto;
    [done|].
  intros Hrun. apply IH in Hrun as (Hempty & evs & nominals & Hst & Hsites).
  split; [done|].
  destruct Hcol as (_ & _ & Hdecl & _).
  eexists (_ :: evs), (nominal :: nominals). split.
  - apply (Stretch_trans _ [_] _ _ _
             (Stretch_pop_call nominal _ st (Hdecl nominal true) Hlast) Hst).
  - by rewrite !fmap_cons, Hsites.
Qed.

(** *** One turn of the do-while loop *)

Lemma Stretch_flush st evs st' :
  Stretch st evs st' ->
  Stretch st evs (flushImplicitlyDefinedFunctions st'.1, st'.2).
Proof.
  intros (Ht & Hm & Hl). split; [done|]. split.
  - eapply Mono_trans; [exact Hm|apply Mono_flush].
  - by apply Ledger_flush.
Qed.

Lemma iteration_spec fuel prev curE st cur curE' st' :
  collaboratorsAppendOnly ->
  iteration fuel prev curE st = Returned (cur, curE', st') ->
  curE <= curE' /\ curE' = length (ExternalDefinitions st.1) /\
  prev <= cur /\ length (definedFunctions st.1) <= cur /\
  cur <= length (definedFunctions st'.1) /\
  ValidatedTypes st'.1 = [] /\ implicitlyDefinedFunctions st'.1 = [] /\
  exists evExt evBody evCap evVal nominals,
    Stretch st (evExt ++ evBody ++ evCap ++ evVal) st' /\
    site <$> evExt =
      externalSite <$>
        drop curE (take curE' (indexed (ExternalDefinitions st'.1))) /\
    site <$> evBody =
      bodySite <$> drop prev (take cur (indexed (definedFunctions st'.1))) /\
    site <$> evCap =
      capturesSite <$>
        reverse (drop prev (take cur (indexed (definedFunctions st'.1)))) /\
    site <$> evVal = FirstPass <$> nominals.
Proof.
  intros Hcol. unfold iteration. intros Hrun.
  destruct (externalLoop fuel (length (ExternalDefinitions st.1)) curE st)
    as [[curE1 st1]| | |] eqn:Hext; simpl in Hrun; try discriminate.
  destruct (functionLoop fuel (length (definedFunctions st1.1)) prev st1)
    as [[cur1 st2]| | |] eqn:Hfun; simpl in Hrun; try discriminate.
  destruct (capturesLoop cur1 prev st2) as [st3| | |] eqn:Hcap;
    simpl in Hrun; try discriminate.
  destruct (validatedTypesLoop fuel st3) as [st4| | |] eqn:Hval;
    simpl in Hrun; try discriminate.
  injection Hrun as <- <- <-.
  apply externalLoop_spec in Hext as (HleE & -> & evExt & Hs1 & Hsites1); [|done].
  apply functionLoop_spec in Hfun as (HleF & -> & evBody & Hs2 & Hsites2); [|done].
  apply capturesLoop_spec in Hcap as (evCap & Hs3 & Hsites3); [|done].
  apply validatedTypesLoop_spec in Hval as (Hempty & evVal & nominals & Hs4 & Hsites4);
    [|done].
  pose proof Hs1 as (_ & [HE1 HF1] & _).
  pose proof Hs2 as (_ & [HE2 HF2] & _).
  pose proof Hs3 as (_ & [HE3 HF3] & _).
  pose proof Hs4 as (_ & [HE4 HF4] & _).
  pose proof (Mono_flush st4.1) as [HE5 HF5].
  pose proof (prefix_length _ _ HE1). pose proof (prefix_length _ _ HF1).
  pose proof (prefix_length _ _ HE2). pose proof (prefix_length _ _ HF2).
  pose proof (prefix_length _ _ HE3). pose proof (prefix_length _ _ HF3).
  pose proof (prefix_length _ _ HE4). pose proof (prefix_length _ _ HF4).
  pose proof (prefix_length _ _ HE5). pose proof (prefix_length _ _ HF5).
  cbn [fst snd] in *.
  split; [done|]. split; [done|]. split; [done|]. split; [lia|].
  split; [lia|]. split; [done|]. split; [done|].
  exists evExt, evBody, evCap, evVal, nominals.
  split.
  { apply Stretch_flush.
    eapply Stretch_trans; [exact Hs1|].
    eapply Stretch_trans; [exact Hs2|].
    eapply Stretch_trans; [exact Hs3|exact Hs4]. }
  split.
  { rewrite Hsites1. do 2 f_equal. symmetry.
    apply take_indexed_prefix; [|done].
    do 4 (etrans; [eassumption|]). done. }
  split.
  { rewrite Hsites2. do 2 f_equal. symmetry.
    apply take_indexed_prefix; [|lia].
    do 3 (etrans; [eassumption|]). done. }
  split; [|done].
  rewrite Hsites3. do 3 f_equal. symmetry.
  apply take_indexed_prefix; [|lia].
  do 2 (etrans; [eassumption|]). done.
Qed.

(** [a] comes before [b] in [l]. *)
Definition precedes {A} (a b : A) (l : list A) : Prop :=
  exists i j, i < j /\ l !! i = Some a /\ l !! j = Some b.

Lemma precedes_app {A} (a b : A) l1 l l2 :
  precedes a b l -> precedes a b (l1 ++ l ++ l2).
Proof.
  intros (i & j & Hij & Hi & Hj). exists (length l1 + i), (length l1 + j).
  split; [lia|].
  split; rewrite lookup_app_r by lia.
  - replace (length l1 + i - length l1) with i by lia.
    by apply lookup_app_l_Some.
  - replace (length l1 + j - length l1) with j by lia.
    by apply lookup_app_l_Some.
Qed.

Lemma precedes_reverse {A} (a b : A) l :
  precedes a b l -> precedes b a (reverse l).
Proof.
  intros (i & j & Hij & Hi & Hj).
  pose proof (lookup_lt_Some _ _ _ Hi). pose proof (lookup_lt_Some _ _ _ Hj).
  exists (length l - S j), (length l - S i). split; [lia|].
  rewrite !reverse_lookup by lia.
  replace (length l - S (length l - S j)) with j by lia.
  replace (length l - S (length l - S i)) with i by lia. done.
Qed.

Lemma precedes_fmap {A B} (f : A -> B) (a b : A) l :
  precedes a b l -> precedes (f a) (f b) (f <$> l).
Proof.
  intros (i & j & Hij & Hi & Hj). exists i, j. split; [done|].
  by rewrite !list_lookup_fmap, Hi, Hj.
Qed.

Lemma precedes_segments {A} (a b : A) l1 l2 :
  a ∈ l1 -> b ∈ l2 -> precedes a b (l1 ++ l2).
Proof.
  intros [i Hi]%list_elem_of_lookup [j Hj]%list_elem_of_lookup.
  pose proof (lookup_lt_Some _ _ _ Hi).
  exists i, (length l1 + j). split; [lia|]. split.
  - by apply lookup_app_l_Some.
  - rewrite lookup_app_r by lia. by replace (length l1 + j - length l1) with j by lia.
Qed.

Lemma visited_lookup {A} (l : list A) prev cur i x :
  prev <= i -> i < cur -> l !! i = Some x ->
  drop prev (take cur (indexed l)) !! (i - prev) = Some (i, x).
Proof.
  intros Hp Hc Hi. rewrite lookup_drop, lookup_take_lt by lia.
  replace (prev + (i - prev)) with i by lia. by apply indexed_lookup.
Qed.

(** X18. In every turn of the do-while loop (with collaborators that only
    append to the collections), the calls of the turn are, in this order:
    the calls for external definitions; the body checks of the defined
    functions at the indices from [prev] up to [cur], in increasing
    order; computeCaptures on exactly those functions, in decreasing
    order of index; the first passes over validated types. [cur] is the
    size of the vector of defined functions when the body checks of the
    turn begin, that is, when the loop over the external definitions has
    returned: a function appended during a body check of the turn is not
    among those of the turn. So every capture computation of the turn
    comes after every body check of the turn, and of two functions whose
    bodies are checked in the same turn, the one at the higher index
    (appended later) has its captures computed first. *)
Theorem iteration_captures_reverse_order fuel prev curE st cur curE' st' :
  collaboratorsAppendOnly ->
  iteration fuel prev curE st = Returned (cur, curE', st') ->
  exists new externals validations,
    st'.2 = st.2 ++ new /\
    prev <= cur /\
    length (definedFunctions st.1) <= cur <= length (definedFunctions st'.1) /\
    (exists atBodies,
       externalLoop fuel (length (ExternalDefinitions st.1)) curE st =
         Returned (curE', atBodies) /\
       cur = length (definedFunctions atBodies.1)) /\
    site <$> new =
      externals ++
      (bodySite <$> drop prev (take cur (indexed (definedFunctions st'.1)))) ++
      (capturesSite <$>
         reverse (drop prev (take cur (indexed (definedFunctions st'.1))))) ++
      validations /\
    omap checkedBody externals = [] /\ omap computedCaptures externals = [] /\
    omap checkedBody validations = [] /\ omap computedCaptures validations = [] /\
    omap computedCaptures (site <$> new) =
      reverse (omap checkedBody (site <$> new)) /\
    (forall i j AFD FD,
       prev <= i < cur -> prev <= j < cur ->
       definedFunctions st'.1 !! i = Some AFD ->
       definedFunctions st'.1 !! j = Some FD ->
       precedes (FunctionBody i AFD) (Captures j FD) (site <$> new)) /\
    (forall i j outer nested,
       prev <= i -> i < j -> j < cur ->
       definedFunctions st'.1 !! i = Some outer ->
       definedFunctions st'.1 !! j = Some nested ->
       precedes (Captures j nested) (Captures i outer) (site <$> new)).
Proof.
  intros Hcol Hrun.
  assert (Hsize : exists atBodies,
            externalLoop fuel (length (ExternalDefinitions st.1)) curE st =
              Returned (curE', atBodies) /\
            cur = length (definedFunctions atBodies.1)).
  { unfold iteration in Hrun.
    destruct (externalLoop fuel (length (ExternalDefinitions st.1)) curE st)
      as [[curE1 st1]| | |] eqn:Hext; simpl in Hrun; try discriminate.
    destruct (functionLoop fuel (length (definedFunctions st1.1)) prev st1)
      as [[cur1 st2]| | |] eqn:Hfun; simpl in Hrun; try discriminate.
    destruct (capturesLoop cur1 prev st2) as [st3| | |]; simpl in Hrun;
      try discriminate.
    destruct (validatedTypesLoop fuel st3) as [st4| | |]; simpl in Hrun;
      try discriminate.
    injection Hrun as <- <- <-.
    apply functionLoop_spec in Hfun as (_ & -> & _); [|done].
    by exists st1. }
  apply iteration_spec in Hrun
    as (_ & _ & Hprev & Hlen & Hcur & _ & _ & evExt & evBody & evCap & evVal
        & nominals & (Htrace & _ & _) & HsExt & HsBody & HsCap & HsVal);
    [|done].
  set (visited := drop prev (take cur (indexed (definedFunctions st'.1)))) in *.
  exists (evExt ++ evBody ++ evCap ++ evVal), (site <$> evExt), (site <$> evVal).
  assert (Hsites : site <$> evExt ++ evBody ++ evCap ++ evVal =
            (site <$> evExt) ++ (bodySite <$> visited) ++
            (capturesSite <$> reverse visited) ++ (site <$> evVal)).
  { by rewrite !fmap_app, HsBody, HsCap. }
  assert (Hno1 : omap checkedBody (site <$> evExt) = []).
  { rewrite HsExt. apply omap_fmap_None. by intros [i []]. }
  assert (Hno2 : omap computedCaptures (site <$> evExt) = []).
  { rewrite HsExt. apply omap_fmap_None. by intros [i []]. }
  assert (Hno3 : omap checkedBody (site <$> evVal) = []).
  { rewrite HsVal. by apply omap_fmap_None. }
  assert (Hno4 : omap computedCaptures (site <$> evVal) = []).
  { rewrite HsVal. by apply omap_fmap_None. }
  split; [done|]. split; [done|]. split; [done|]. split; [exact Hsize|].
  split; [done|].
  split; [done|]. split; [done|]. split; [done|]. split; [done|].
  split.
  { rewrite Hsites, !omap_app, Hno1, Hno2, Hno3, Hno4.
    rewrite (omap_fmap_Some checkedBody bodySite) by (by intros []).
    rewrite (omap_fmap_None computedCaptures bodySite) by done.
    rewrite (omap_fmap_None checkedBody capturesSite) by done.
    rewrite (omap_fmap_Some computedCaptures capturesSite) by (by intros []).
    simpl. by rewrite !app_nil_r. }
  split.
  - intros i j AFD FD Hi Hj HAFD HFD. rewrite Hsites.
    rewrite (app_assoc (bodySite <$> visited)).
    apply precedes_app. apply precedes_segments.
    + apply (list_elem_of_fmap_2 bodySite _ (i, AFD)).
      eapply list_elem_of_lookup_2. apply visited_lookup; [lia|lia|done].
    + apply (list_elem_of_fmap_2 capturesSite _ (j, FD)).
      rewrite elem_of_reverse.
      eapply list_elem_of_lookup_2. apply visited_lookup; [lia|lia|done].
  - intros i j outer nested Hi Hij Hj Houter Hnested. rewrite Hsites.
    rewrite (app_assoc (site <$> evExt)).
    apply precedes_app.
    apply (precedes_fmap capturesSite (j, nested) (i, outer)).
    apply precedes_reverse.
    exists (i - prev), (j - prev). split; [lia|].
    split; apply visited_lookup; try done; lia.
Qed.

(** *** The whole loop *)

(** What holds of the cursors and the trace between two turns of the
    do-while loop of a run that began in [tc0] with an empty trace. *)
Definition BetweenTurns (tc0 : TypeChecker) (curF curE : nat) (st : State)
    : Prop :=
  LastCheckedExternalDefinition tc0 <= curE /\
  curF <= length (definedFunctions st.1) /\
  omap checkedBody (site <$> st.2) =
    take curF (indexed (definedFunctions st.1)) /\
  omap processedExternal (site <$> st.2) =
    drop (LastCheckedExternalDefinition tc0)
      (take curE (indexed (ExternalDefinitions st.1))) /\
  omap computedCaptures (site <$> st.2) ≡ₚ
    take curF (indexed (definedFunctions st.1)) /\
  Ledger tc0 st.2 st.1.

Lemma BetweenTurns_start tc0 :
  BetweenTurns tc0 0 (LastCheckedExternalDefinition tc0) (tc0, []).
Proof.
  split; [done|]. split; [simpl; lia|]. split; [done|].
  split; [by rewrite drop_take_nil|]. split; [done|apply Ledger_nil].
Qed.

Lemma BetweenTurns_iteration tc0 fuel curF curE st cur curE' st' :
  collaboratorsAppendOnly ->
  BetweenTurns tc0 curF curE st ->
  iteration fuel curF curE st = Returned (cur, curE', st') ->
  BetweenTurns tc0 cur curE' st' /\
  curE' <= length (ExternalDefinitions st'.1) /\
  ValidatedTypes st'.1 = [] /\ implicitlyDefinedFunctions st'.1 = [].
Proof.
  intros Hcol (HL0 & HcurF & Hbodies & Hexts & Hcaps & Hledger) Hrun.
  apply iteration_spec in Hrun
    as (HleE & HcurE' & Hprev & Hlen & Hcur & HV & HS & evExt & evBody & evCap
        & evVal & nominals & (Htrace & [HE HF] & Hl) & HsExt & HsBody & HsCap
        & HsVal); [|done].
  pose proof (prefix_length _ _ HE) as HlenE.
  set (F' := indexed (definedFunctions st'.1)) in *.
  set (E' := indexed (ExternalDefinitions st'.1)) in *.
  assert (Hp1 : omap checkedBody (site <$> evExt ++ evBody ++ evCap ++ evVal) =
                drop curF (take cur F')).
  { rewrite !fmap_app, !omap_app, HsExt, HsBody, HsCap, HsVal.
    rewrite (omap_fmap_None checkedBody externalSite) by (by intros [i []]).
    rewrite (omap_fmap_Some checkedBody bodySite) by (by intros []).
    rewrite (omap_fmap_None checkedBody capturesSite) by done.
    rewrite (omap_fmap_None checkedBody FirstPass) by done.
    simpl. by rewrite !app_nil_r. }
  assert (Hp2 : omap processedExternal (site <$> evExt ++ evBody ++ evCap ++ evVal) =
                drop curE (take curE' E')).
  { rewrite !fmap_app, !omap_app, HsExt, HsBody, HsCap, HsVal.
    rewrite (omap_fmap_Some processedExternal externalSite) by (by intros [i []]).
    rewrite (omap_fmap_None processedExternal bodySite) by done.
    rewrite (omap_fmap_None processedExternal capturesSite) by done.
    rewrite (omap_fmap_None processedExternal FirstPass) by done.
    by rewrite !app_nil_r. }
  assert (Hp3 : omap computedCaptures (site <$> evExt ++ evBody ++ evCap ++ evVal) =
                reverse (drop curF (take cur F'))).
  { rewrite !fmap_app, !omap_app, HsExt, HsBody, HsCap, HsVal.
    rewrite (omap_fmap_None computedCaptures externalSite) by (by intros [i []]).
    rewrite (omap_fmap_None computedCaptures bodySite) by done.
    rewrite (omap_fmap_Some computedCaptures capturesSite) by (by intros []).
    rewrite (omap_fmap_None computedCaptures FirstPass) by done.
    simpl. by rewrite !app_nil_r. }
  assert (HtF : take curF (indexed (definedFunctions st.1)) =
                take curF (take cur F')).
  { rewrite take_take, Nat.min_l by lia. symmetry.
    by apply take_indexed_prefix. }
  assert (HtE : take curE (indexed (ExternalDefinitions st.1)) =
                take curE (take curE' E')).
  { rewrite take_take, Nat.min_l by lia. symmetry.
    apply take_indexed_prefix; [done|lia]. }
  split; [|split; [lia|done]].
  split; [lia|]. split; [done|].
  rewrite Htrace, fmap_app, !omap_app, Hp1, Hp2, Hp3, Hbodies, Hexts, Hcaps.
  rewrite HtF, HtE.
  split; [by rewrite take_drop|].
  split; [by rewrite drop_take_drop by done|].
  split; [by rewrite reverse_Permutation, take_drop|].
  by eapply Ledger_trans.
Qed.

Lemma doWhile_spec tc0 fuel curF curE st curF' curE' st' :
  collaboratorsAppendOnly ->
  BetweenTurns tc0 curF curE st ->
  doWhile fuel curF curE st = Returned (curF', curE', st') ->
  BetweenTurns tc0 curF' curE' st' /\
  curF' = length (definedFunctions st'.1) /\
  curE' = length (ExternalDefinitions st'.1) /\
  ValidatedTypes st'.1 = [] /\ implicitlyDefinedFunctions st'.1 = [].
Proof.
  intros Hcol. revert curF curE st.
  induction fuel as [|fuel IH]; intros curF curE st Hinv; simpl; [done|].
  destruct (iteration fuel curF curE st) as [[[cur1 curE1] st1]| | |] eqn:Hit;
    simpl; try discriminate.
  apply (BetweenTurns_iteration tc0) in Hit as (Hinv1 & HleE & HV & HS);
    [|done..].
  destruct (Nat.ltb_spec cur1 (length (definedFunctions st1.1))) as [|HgeF];
    simpl; [by apply IH|].
  destruct (Nat.ltb_spec curE1 (length (ExternalDefinitions st1.1))) as [|HgeE];
    simpl; [by apply IH|].
  intros [= <- <- <-]. destruct Hinv1 as (? & HleF & ?).
  split; [done|]. split; [lia|]. split; [lia|]. done.
Qed.

(** C1. When typeCheckFunctionsAndExternalDecls returns (its
    collaborators only appending to the collections while it runs): the
    external-definition cursor is the length of the external
    definitions, and is what LastCheckedExternalDefinition is set to; the
    function cursor is the length of the defined functions; the stack of
    validated types and the buffer of implicitly defined functions are
    empty. Every defined function had its body checked exactly once, in
    the order of the vector, and its captures computed exactly once;
    every external definition from the one LastCheckedExternalDefinition
    pointed at had its turn exactly once, in order. The vectors hold what
    they held at the start and what was appended during the run: every
    function appended to the defined functions or to the buffer is among
    the defined functions at the end (and so was checked), and every type
    on the stack or pushed during the run was given its first pass. *)
Theorem typeCheckFunctionsAndExternalDecls_drains fuel TC run :
  collaboratorsAppendOnly ->
  typeCheckFunctionsAndExternalDecls fuel TC = Returned run ->
  currentExternalDef run = length (ExternalDefinitions (final run)) /\
  LastCheckedExternalDefinition (final run) =
    length (ExternalDefinitions (final run)) /\
  currentFunctionIdx run = length (definedFunctions (final run)) /\
  ValidatedTypes (final run) = [] /\
  implicitlyDefinedFunctions (final run) = [] /\
  omap checkedBody (site <$> trace run) =
    indexed (definedFunctions (final run)) /\
  omap computedCaptures (site <$> trace run) ≡ₚ
    indexed (definedFunctions (final run)) /\
  omap processedExternal (site <$> trace run) =
    drop (LastCheckedExternalDefinition TC)
      (indexed (ExternalDefinitions (final run))) /\
  ExternalDefinitions (final run) =
    ExternalDefinitions TC ++ appended ExternalDefinitions (trace run) /\
  definedFunctions (final run) ≡ₚ
    definedFunctions TC ++ implicitlyDefinedFunctions TC ++
    appended definedFunctions (trace run) ++
    appended implicitlyDefinedFunctions (trace run) /\
  omap firstPassed (site <$> trace run) ≡ₚ
    ValidatedTypes TC ++ appended ValidatedTypes (trace run).
Proof.
  intros Hcol. unfold typeCheckFunctionsAndExternalDecls.
  destruct (doWhile fuel 0 (LastCheckedExternalDefinition TC) (TC, []))
    as [[[curF curE] st]| | |] eqn:Hloop; simpl; try discriminate.
  intros [= <-]. simpl.
  apply (doWhile_spec TC) in Hloop
    as ((_ & _ & Hbodies & Hexts & Hcaps & HlE & HlF & HlV) & -> & -> & HV & HS);
    [|done|apply BetweenTurns_start].
  rewrite HV, HS, !app_nil_r in *.
  rewrite take_ge in Hbodies by (by rewrite indexed_length).
  rewrite take_ge in Hcaps by (by rewrite indexed_length).
  rewrite take_ge in Hexts by (by rewrite indexed_length).
  done.
Qed.

(** *** The loop returns when the work is bounded *)

Section Termination.

(** What the collaborators may still add: a number read off the part of
    the state that the loop does not touch. *)
Variable budget : World -> nat.

(** The work there is: what the four collections hold, and what may
    still be added to them. *)
Definition work (tc : TypeChecker) : nat :=
  length (ExternalDefinitions tc) + length (definedFunctions tc) +
  length (implicitlyDefinedFunctions tc) + length (ValidatedTypes tc) +
  budget (world tc).

(** A collaborator pays for what it appends out of the budget. *)
Definition paysForWork (f : TypeChecker -> TypeChecker) : Prop :=
  forall tc, work (f tc) <= work tc.

Definition handled (decl : Decl) : Prop :=
  match decl with OtherDecl _ => False | _ => True end.

(** A collaborator appends only functions and nominal types to the
    external definitions. *)
Definition keepsHandled (f : TypeChecker -> TypeChecker) : Prop :=
  forall tc, Forall handled (ExternalDefinitions tc) ->
             Forall handled (ExternalDefinitions (f tc)).

Definition tame (f : TypeChecker -> TypeChecker) : Prop :=
  growsOnly f /\ paysForWork f /\ keepsHandled f.

Definition collaboratorsTame : Prop :=
  (forall AFD, tame (typeCheckAbstractFunctionBody AFD)) /\
  (forall FD, tame (computeCaptures FD)) /\
  (forall nominal isFirstPass, tame (typeCheckDecl nominal isFirstPass)) /\
  (forall SD, tame (addImplicitConstructors SD)) /\
  (forall SD, tame (addImplicitStructConformances SD)) /\
  (forall CD, tame (addImplicitDestructor CD)) /\
  (forall ED, tame (addImplicitEnumConformances ED)).

Lemma tame_id : tame (fun tc => tc).
Proof. split; [apply growsOnly_id|]. split; by intros tc. Qed.

Lemma tame_compose f g : tame f -> tame g -> tame (fun tc => g (f tc)).
Proof.
  intros (Hf1 & Hf2 & Hf3) (Hg1 & Hg2 & Hg3). split; [|split].
  - by apply growsOnly_compose.
  - intros tc. etrans; [apply Hg2|apply Hf2].
  - intros tc Htc. by apply Hg3, Hf3.
Qed.

Lemma tame_handleExternalDecl decl :
  collaboratorsTame -> tame (handleExternalDecl decl).
Proof.
  intros (_ & _ & _ & Hctor & Hconf & Hdtor & Henum).
  unfold handleExternalDecl.
  destruct decl as [AFD|[] nominal|id]; try apply tame_id; auto.
  apply (tame_compose _ _ (Hctor nominal) (Hconf nominal)).
Qed.

(** The state between two calls of a run with tame collaborators. *)
Definition Sound (st : State) : Prop :=
  Forall handled (ExternalDefinitions st.1).

Lemma call_tame s f st :
  tame f -> Sound st ->
  Sound (call s f st) /\ work (call s f st).1 <= work st.1 /\
  length (ExternalDefinitions st.1) <= length (ExternalDefinitions (call s f st).1) /\
  length (definedFunctions st.1) <= length (definedFunctions (call s f st).1).
Proof.
  intros (Hg & Hw & Hh) Hs. destruct (Hg st.1) as (HE & HF & _).
  split; [by apply Hh|]. split; [apply Hw|].
  split; by apply prefix_length.
Qed.

Lemma externalLoop_returns fuel n cur st :
  collaboratorsTame -> Sound st ->
  cur <= n -> n <= length (ExternalDefinitions st.1) -> n - cur <= fuel ->
  exists st',
    externalLoop fuel n cur st = Returned (n, st') /\ Sound st' /\
    work st'.1 <= work st.1 /\
    length (ExternalDefinitions st.1) <= length (ExternalDefinitions st'.1) /\
    length (definedFunctions st.1) <= length (definedFunctions st'.1).
Proof.
  intros Htame. revert cur st.
  induction fuel as [|fuel IH]; intros cur st Hs Hcur Hn Hfuel; simpl;
    destruct (Nat.eqb_spec cur n) as [->|Hne]; eauto 10; [lia|].
  destruct (lookup_lt_is_Some_2 (ExternalDefinitions st.1) cur ltac:(lia))
    as [decl Hdecl].
  rewrite Hdecl.
  assert (Hstep : forall s f, tame f ->
            exists st',
              externalLoop fuel n (S cur) (call s f st) = Returned (n, st') /\
              Sound st' /\ work st'.1 <= work st.1 /\
              length (ExternalDefinitions st.1) <= length (ExternalDefinitions st'.1) /\
              length (definedFunctions st.1) <= length (definedFunctions st'.1)).
  { intros s f Hf.
    destruct (call_tame s f st Hf Hs) as (Hs1 & Hw1 & HE1 & HF1).
    destruct (IH (S cur) (call s f st) Hs1 ltac:(lia) ltac:(lia) ltac:(lia))
      as (st' & Hrun & Hs' & Hw' & HE' & HF').
    exists st'. split; [done|]. split; [done|]. lia. }
  pose proof (Forall_lookup_1 _ _ _ _ Hs Hdecl) as Hhandled.
  destruct decl as [AFD|kind nominal|id]; [| |done].
  - apply Hstep, Htame.
  - by apply Hstep, tame_handleExternalDecl.
Qed.

Lemma functionLoop_returns fuel n cur st :
  collaboratorsTame -> Sound st ->
  cur <= n -> n <= length (definedFunctions st.1) -> n - cur <= fuel ->
  exists st',
    functionLoop fuel n cur st = Returned (n, st') /\ Sound st' /\
    work st'.1 <= work st.1 /\
    length (ExternalDefinitions st.1) <= length (ExternalDefinitions st'.1) /\
    length (definedFunctions st.1) <= length (definedFunctions st'.1).
Proof.
  intros Htame. revert cur st.
  induction fuel as [|fuel IH]; intros cur st Hs Hcur Hn Hfuel; simpl;
    destruct (Nat.eqb_spec cur n) as [->|Hne]; eauto 10; [lia|].
  destruct (lookup_lt_is_Some_2 (definedFunctions st.1) cur ltac:(lia))
    as [AFD HAFD].
  rewrite HAFD. destruct Htame as (Hbody & _).
  destruct (call_tame (FunctionBody cur AFD) _ st (Hbody AFD) Hs)
    as (Hs1 & Hw1 & HE1 & HF1).
  destruct (IH (S cur) _ Hs1 ltac:(lia) ltac:(lia) ltac:(lia))
    as (st' & Hrun & Hs' & Hw' & HE' & HF').
  exists st'. split; [done|]. split; [done|]. lia.
Qed.

Lemma capturesLoop_returns i prev st :
  collaboratorsTame -> Sound st ->
  i <= length (definedFunctions st.1) ->
  exists st',
    capturesLoop i prev st = Returned st' /\ Sound st' /\
    work st'.1 <= work st.1 /\
    length (ExternalDefinitions st.1) <= length (ExternalDefinitions st'.1) /\
    length (definedFunctions st.1) <= length (definedFunctions st'.1).
Proof.
  intros Htame. revert st.
  induction i as [|i IH]; intros st Hs Hi; simpl; eauto 10.
  destruct (prev <? S i); eauto 10.
  destruct (lookup_lt_is_Some_2 (definedFunctions st.1) i ltac:(lia))
    as [FD HFD].
  rewrite HFD. destruct Htame as (_ & Hcap & _).
  destruct (call_tame (Captures i FD) _ st (Hcap FD) Hs)
    as (Hs1 & Hw1 & HE1 & HF1).
  destruct (IH _ Hs1 ltac:(lia)) as (st' & Hrun & Hs' & Hw' & HE' & HF').
  exists st'. split; [done|]. split; [done|]. lia.
Qed.

Lemma validatedTypesLoop_returns fuel st :
  collaboratorsTame -> Sound st ->
  length (ValidatedTypes st.1) + budget (world st.1) <= fuel ->
  exists st',
    validatedTypesLoop fuel st = Returned st' /\ Sound st' /\
    work st'.1 <= work st.1 /\
    length (ExternalDefinitions st.1) <= length (ExternalDefinitions st'.1) /\
    length (definedFunctions st.1) <= length (definedFunctions st'.1).
Proof.
  intros Htame. revert st.
  induction fuel as [|fuel IH]; intros st Hs Hfuel; simpl;
    destruct (last (ValidatedTypes st.1)) as [nominal|] eqn:Hlast; eauto 10.
  { apply last_Some in Hlast as [rest Hrest]. rewrite Hrest, length_app in Hfuel.
    simpl in Hfuel. lia. }
  apply last_Some in Hlast as [rest Hrest].
  destruct Htame as (_ & _ & Hdecl & _).
  destruct (Hdecl nominal true) as (Hg & Hw & Hh).
  set (popped := (pop_back st.1, st.2)).
  assert (Hpop : work popped.1 + 1 = work st.1).
  { unfold work. simpl. rewrite Hrest, removelast_last, length_app. simpl. lia. }
  destruct (call_tame (FirstPass nominal) _ popped (Hdecl nominal true) Hs)
    as (Hs1 & Hw1 & HE1 & HF1).
  destruct (Hg popped.1) as (_ & _ & HS1 & _). apply prefix_length in HS1.
  destruct (IH (call (FirstPass nominal) (typeCheckDecl nominal true) popped) Hs1)
    as (st' & Hrun & Hs' & Hw' & HE' & HF').
  { unfold work in *. simpl in *.
    rewrite Hrest, removelast_last, ?length_app in *. simpl in *. lia. }
  exists st'. split; [done|]. split; [done|]. simpl in *. lia.
Qed.

Lemma iteration_returns fuel prev curE st :
  collaboratorsTame -> Sound st ->
  curE <= length (ExternalDefinitions st.1) ->
  prev <= length (definedFunctions st.1) ->
  work st.1 - curE - prev <= fuel ->
  exists cur curE' st',
    iteration fuel prev curE st = Returned (cur, curE', st') /\ Sound st' /\
    work st'.1 <= work st.1 /\
    curE' = length (ExternalDefinitions st.1) /\
    length (definedFunctions st.1) <= cur /\
    curE' <= length (ExternalDefinitions st'.1) /\
    cur <= length (definedFunctions st'.1).
Proof.
  intros Htame Hs HcurE Hprev Hfuel. unfold iteration.
  assert (Hw0 : work st.1 =
            length (ExternalDefinitions st.1) + length (definedFunctions st.1) +
            length (implicitlyDefinedFunctions st.1) +
            length (ValidatedTypes st.1) + budget (world st.1)) by done.
  destruct (externalLoop_returns fuel (length (ExternalDefinitions st.1)) curE st
              Htame Hs ltac:(lia) ltac:(lia) ltac:(lia))
    as (st1 & -> & Hs1 & Hw1 & HE1 & HF1). simpl.
  assert (Hw1' : work st1.1 =
            length (ExternalDefinitions st1.1) + length (definedFunctions st1.1) +
            length (implicitlyDefinedFunctions st1.1) +
            length (ValidatedTypes st1.1) + budget (world st1.1)) by done.
  destruct (functionLoop_returns fuel (length (definedFunctions st1.1)) prev st1
              Htame Hs1 ltac:(lia) ltac:(lia) ltac:(lia))
    as (st2 & -> & Hs2 & Hw2 & HE2 & HF2). simpl.
  destruct (capturesLoop_returns (length (definedFunctions st1.1)) prev st2
              Htame Hs2 ltac:(lia))
    as (st3 & -> & Hs3 & Hw3 & HE3 & HF3). simpl.
  assert (Hw3' : work st3.1 =
            length (ExternalDefinitions st3.1) + length (definedFunctions st3.1) +
            length (implicitlyDefinedFunctions st3.1) +
            length (ValidatedTypes st3.1) + budget (world st3.1)) by done.
  destruct (validatedTypesLoop_returns fuel st3 Htame Hs3 ltac:(lia))
    as (st4 & -> & Hs4 & Hw4 & HE4 & HF4). simpl.
  eexists _, _, _. split; [done|]. split; [done|].
  split.
  { unfold work in *. simpl. rewrite length_app. simpl. lia. }
  split; [done|]. simpl. rewrite length_app. lia.
Qed.

Lemma doWhile_returns fuel curF curE st :
  collaboratorsTame -> Sound st ->
  curE <= length (ExternalDefinitions st.1) ->
  curF <= length (definedFunctions st.1) ->
  work st.1 - curE - curF + 2 <= fuel \/
  (work st.1 - curE - curF + 1 <= fuel /\
   (curF < length (definedFunctions st.1) \/
    curE < length (ExternalDefinitions st.1))) ->
  exists result, doWhile fuel curF curE st = Returned result.
Proof.
  intros Htame. revert curF curE st.
  induction fuel as [|fuel IH]; intros curF curE st Hs HcurE HcurF Hfuel; simpl.
  { lia. }
  assert (Hw0 : work st.1 =
            length (ExternalDefinitions st.1) + length (definedFunctions st.1) +
            length (implicitlyDefinedFunctions st.1) +
            length (ValidatedTypes st.1) + budget (world st.1)) by done.
  destruct (iteration_returns fuel curF curE st Htame Hs HcurE HcurF ltac:(lia))
    as (cur & curE' & st' & -> & Hs' & Hw' & -> & Hcur & HE' & HF'). simpl.
  assert (Hw1 : work st'.1 =
            length (ExternalDefinitions st'.1) + length (definedFunctions st'.1) +
            length (implicitlyDefinedFunctions st'.1) +
            length (ValidatedTypes st'.1) + budget (world st'.1)) by done.
  destruct (Nat.ltb_spec cur (length (definedFunctions st'.1))) as [HltF|HgeF];
    simpl.
  { apply IH; try done. right. split; [lia|]. by left. }
  destruct (Nat.ltb_spec (length (ExternalDefinitions st.1))
              (length (ExternalDefinitions st'.1))) as [HltE|HgeE]; simpl.
  { apply IH; try done. right. split; [lia|]. by right. }
  eauto.
Qed.

(** X13. With collaborators that only append, that pay for what they
    append out of a finite budget, and that bring in only functions and
    nominal types as external definitions, the loop returns, given fuel
    for the work at hand: the external definitions from a cursor within
    them, the defined and the buffered functions, the validated types,
    and what the budget still allows. *)
Theorem typeCheckFunctionsAndExternalDecls_returns fuel TC :
  collaboratorsTame ->
  Forall handled (ExternalDefinitions TC) ->
  LastCheckedExternalDefinition TC <= length (ExternalDefinitions TC) ->
  work TC + 2 <= fuel ->
  exists run, typeCheckFunctionsAndExternalDecls fuel TC = Returned run.
Proof.
  intros Htame Hs HL0 Hfuel. unfold typeCheckFunctionsAndExternalDecls.
  destruct (doWhile_returns fuel 0 (LastCheckedExternalDefinition TC) (TC, [])
              Htame Hs HL0 ltac:(simpl; lia) ltac:(left; simpl; lia))
    as [[[curF curE] st] ->].
  simpl. eauto.
Qed.

End Termination.

(** *** What a run that returns has met *)

Lemma run_returned fuel TC run :
  typeCheckFunctionsAndExternalDecls fuel TC = Returned run ->
  exists curF curE st,
    doWhile fuel 0 (LastCheckedExternalDefinition TC) (TC, []) =
      Returned (curF, curE, st) /\
    run = mkRun (setLastCheckedExternalDefinition curE st.1) curF curE st.2.
Proof.
  unfold typeCheckFunctionsAndExternalDecls.
  destruct (doWhile fuel 0 (LastCheckedExternalDefinition TC) (TC, []))
    as [[[curF curE] st]| | |]; simpl; try discriminate.
  intros [= <-]. by exists curF, curE, st.
Qed.

Lemma externalLoop_handled fuel n cur st cur' st' :
  collaboratorsAppendOnly ->
  cur <= n -> n <= length (ExternalDefinitions st.1) ->
  externalLoop fuel n cur st = Returned (cur', st') ->
  Forall handled (drop cur (take n (ExternalDefinitions st.1))).
Proof.
  intros Hcol. revert cur st.
  induction fuel as [|fuel IH]; intros cur st Hcur Hn; simpl;
    destruct (Nat.eqb_spec cur n) as [->|Hne];
    try (intros _; by rewrite drop_take_nil); [done|].
  destruct (ExternalDefinitions st.1 !! cur) as [decl|] eqn:Hdecl; [|done].
  assert (Hstep : forall s f, growsOnly f -> handled decl ->
            externalLoop fuel n (S cur) (call s f st) = Returned (cur', st') ->
            Forall handled (drop cur (take n (ExternalDefinitions st.1)))).
  { intros s f Hf Hdone Hrun. destruct (Hf st.1) as ([k HE] & _).
    apply IH in Hrun; [|lia|]; simpl in *.
    2:{ rewrite HE, length_app. lia. }
    rewrite HE, take_app_le in Hrun by done.
    rewrite (drop_S _ decl) by (by rewrite lookup_take_lt by lia).
    by constructor. }
  destruct decl as [AFD|kind nominal|id]; [| |done].
  - apply Hstep; [apply Hcol|done].
  - apply Hstep; [by apply growsOnly_handleExternalDecl|done].
Qed.

Lemma iteration_handled fuel prev curE st cur curE' st' :
  collaboratorsAppendOnly ->
  iteration fuel prev curE st = Returned (cur, curE', st') ->
  Forall handled (drop curE (ExternalDefinitions st.1)).
Proof.
  intros Hcol Hrun. unfold iteration in Hrun.
  destruct (externalLoop fuel (length (ExternalDefinitions st.1)) curE st)
    as [[curE1 st1]| | |] eqn:Hext; simpl in Hrun; try discriminate.
  pose proof Hext as (Hle & _)%externalLoop_spec; [|done].
  apply externalLoop_handled in Hext; [|done..].
  by rewrite take_ge in Hext.
Qed.

Lemma doWhile_handled L0 fuel curF curE st curF' curE' st' :
  collaboratorsAppendOnly ->
  L0 <= curE -> curE <= length (ExternalDefinitions st.1) ->
  Forall handled (drop L0 (take curE (ExternalDefinitions st.1))) ->
  doWhile fuel curF curE st = Returned (curF', curE', st') ->
  Forall handled (drop L0 (take curE' (ExternalDefinitions st'.1))).
Proof.
  intros Hcol. revert curF curE st.
  induction fuel as [|fuel IH]; intros curF curE st HL0 HcurE Hseen; simpl;
    [done|].
  destruct (iteration fuel curF curE st) as [[[cur1 curE1] st1]| | |] eqn:Hit;
    simpl; try discriminate.
  pose proof (iteration_handled _ _ _ _ _ _ _ Hcol Hit) as Hnew.
  apply iteration_spec in Hit
    as (HleE & -> & _ & _ & _ & _ & _ & evExt & evBody & evCap & evVal & nominals
        & (_ & [[k HE] _] & _) & _); [|done].
  assert (Hnow : Forall handled
            (drop L0 (take (length (ExternalDefinitions st.1))
                        (ExternalDefinitions st1.1)))).
  { rewrite HE, take_app_length.
    rewrite <- (drop_take_drop (ExternalDefinitions st.1) L0 curE) by done.
    by apply Forall_app. }
  assert (Hlen : length (ExternalDefinitions st.1) <=
                 length (ExternalDefinitions st1.1)).
  { rewrite HE, length_app. lia. }
  destruct (_ || _); [apply IH; [lia|done..]|].
  by intros [= <- <- <-].
Qed.

(** X14. A run that returns (its collaborators only appending) never met
    an external definition that is neither a function nor a nominal
    type: the cursor it started from lay within the external
    definitions, and from that cursor on all of them, those appended
    during the run too, are functions and nominal types. A declaration
    of any other class there takes the loop to llvm_unreachable. *)
Theorem typeCheckFunctionsAndExternalDecls_handles fuel TC run :
  collaboratorsAppendOnly ->
  typeCheckFunctionsAndExternalDecls fuel TC = Returned run ->
  LastCheckedExternalDefinition TC <= length (ExternalDefinitions TC) /\
  Forall handled
    (drop (LastCheckedExternalDefinition TC) (ExternalDefinitions (final run))).
Proof.
  intros Hcol (curF & curE & st & Hloop & ->)%run_returned. simpl.
  assert (Hle : LastCheckedExternalDefinition TC <=
                length (ExternalDefinitions TC)).
  { destruct fuel as [|fuel]; [done|]. simpl in Hloop.
    destruct (iteration fuel 0 (LastCheckedExternalDefinition TC) (TC, []))
      as [[[cur1 curE1] st1]| | |] eqn:Hit; try discriminate.
    apply iteration_spec in Hit as (HleE & -> & _); [done|done]. }
  split; [done|].
  pose proof (doWhile_handled (LastCheckedExternalDefinition TC) fuel 0
                (LastCheckedExternalDefinition TC) (TC, []) curF curE st
                Hcol (Nat.le_refl _) Hle) as Hall.
  rewrite drop_take_nil in Hall by done.
  specialize (Hall (Forall_nil_2 _) Hloop).
  apply (doWhile_spec TC) in Hloop as (_ & _ & -> & _);
    [|done|apply BetweenTurns_start].
  by rewrite take_ge in Hall.
Qed.

(** *** Bodies before captures *)

Lemma doWhile_body_first fuel curF curE st curF' curE' st' :
  collaboratorsAppendOnly ->
  curF <= length (definedFunctions st.1) ->
  (forall i FD, i < curF -> definedFunctions st.1 !! i = Some FD ->
     precedes (FunctionBody i FD) (Captures i FD) (site <$> st.2)) ->
  doWhile fuel curF curE st = Returned (curF', curE', st') ->
  forall i FD, i < curF' -> definedFunctions st'.1 !! i = Some FD ->
    precedes (FunctionBody i FD) (Captures i FD) (site <$> st'.2).
Proof.
  intros Hcol. revert curF curE st.
  induction fuel as [|fuel IH]; intros curF curE st HcurF Hseen; simpl;
    [done|].
  destruct (iteration fuel curF curE st) as [[[cur1 curE1] st1]| | |] eqn:Hit;
    simpl; try discriminate.
  apply iteration_spec in Hit
    as (_ & _ & Hprev & _ & Hcur & _ & _ & evExt & evBody & evCap & evVal
        & nominals & (Htrace & [_ HF] & _) & _ & HsBody & HsCap & _); [|done].
  assert (Hnow : forall i FD, i < cur1 ->
            definedFunctions st1.1 !! i = Some FD ->
            precedes (FunctionBody i FD) (Captures i FD) (site <$> st1.2)).
  { intros i FD Hi HFD. rewrite Htrace.
    destruct (Nat.lt_ge_cases i curF) as [Hold|Hnew].
    - destruct (lookup_lt_is_Some_2 (definedFunctions st.1) i ltac:(lia))
        as [FD' HFD'].
      pose proof (prefix_lookup_Some _ _ _ _ HFD' HF) as HFD''.
      assert (FD' = FD) as -> by congruence.
      rewrite fmap_app. apply (precedes_app _ _ []). by apply Hseen.
    - replace (st.2 ++ evExt ++ evBody ++ evCap ++ evVal)
        with ((st.2 ++ evExt) ++ (evBody ++ evCap) ++ evVal)
        by (by rewrite <- !app_assoc).
      rewrite (fmap_app _ (st.2 ++ evExt)), (fmap_app _ (evBody ++ evCap)),
        (fmap_app _ evBody), HsBody, HsCap.
      apply precedes_app, precedes_segments.
      + apply (list_elem_of_fmap_2 bodySite _ (i, FD)).
        eapply list_elem_of_lookup_2. by apply visited_lookup.
      + apply (list_elem_of_fmap_2 capturesSite _ (i, FD)).
        apply elem_of_reverse.
        eapply list_elem_of_lookup_2. by apply visited_lookup. }
  destruct (_ || _); [by apply IH|].
  by intros [= <- <- <-].
Qed.

(** X15. In a run that returns (its collaborators only appending),
    computeCaptures is called on a function only after the body of that
    function has been checked: for every defined function, the body
    check comes before the capture computation in the trace of the
    run. *)
Theorem typeCheckFunctionsAndExternalDecls_body_first fuel TC run :
  collaboratorsAppendOnly ->
  typeCheckFunctionsAndExternalDecls fuel TC = Returned run ->
  forall i FD, definedFunctions (final run) !! i = Some FD ->
    precedes (FunctionBody i FD) (Captures i FD) (site <$> trace run).
Proof.
  intros Hcol (curF & curE & st & Hloop & ->)%run_returned. simpl.
  intros i FD HFD.
  pose proof (doWhile_spec TC _ _ _ _ _ _ _ Hcol (BetweenTurns_start TC) Hloop)
    as (_ & -> & _).
  apply (doWhile_body_first _ _ _ _ _ _ _ Hcol (Nat.le_0_l _)) with (i := i) (FD := FD)
    in Hloop; [done|intros; lia|by eapply lookup_lt_Some|done].
Qed.

(** *** A later run over the external definitions *)

Inductive ASTStage := Parsing | Parsed | NameBound | TypeChecked.

(** Lines 391-396. The type checker is a new one over the context: the
    external definitions and the index of the last one checked are the
    context's, the three collections of the type checker are empty, and
    [newTypeChecker] is what constructing it makes of the rest. [None]
    is the failed assertion on the stage of the source file. *)
Definition typeCheckExternalDefinitions (newTypeChecker : World -> World)
    (fuel : nat) (stage : ASTStage) (Ctx : TypeChecker)
    : option (Outcome Run) :=
  match stage with
  | TypeChecked =>
      Some (typeCheckFunctionsAndExternalDecls fuel
              (mkTC (ExternalDefinitions Ctx)
                 (LastCheckedExternalDefinition Ctx) [] [] []
                 (newTypeChecker (world Ctx))))
  | _ => None
  end.

(** X16. typeCheckExternalDefinitions takes up where the loop left off.
    After a run of the loop, and whatever was appended to the external
    definitions since, a returning run of typeCheckExternalDefinitions
    processes the external definitions the first run has not seen: over
    the two runs every external definition from the first cursor on has
    its turn exactly once, in order. The later run checks the bodies of
    the functions that turn up while it runs, and of no others. *)
Theorem typeCheckExternalDefinitions_resumes newTypeChecker fuel1 fuel2 TC run1
    Ctx run2 :
  collaboratorsAppendOnly ->
  typeCheckFunctionsAndExternalDecls fuel1 TC = Returned run1 ->
  ExternalDefinitions (final run1) `prefix_of` ExternalDefinitions Ctx ->
  LastCheckedExternalDefinition Ctx =
    LastCheckedExternalDefinition (final run1) ->
  typeCheckExternalDefinitions newTypeChecker fuel2 TypeChecked Ctx =
    Some (Returned run2) ->
  omap processedExternal (site <$> trace run1 ++ trace run2) =
    drop (LastCheckedExternalDefinition TC)
      (indexed (ExternalDefinitions (final run2))) /\
  omap checkedBody (site <$> trace run2) =
    indexed (definedFunctions (final run2)) /\
  definedFunctions (final run2) ≡ₚ
    appended definedFunctions (trace run2) ++
    appended implicitlyDefinedFunctions (trace run2).
Proof.
  intros Hcol (curF1 & curE1 & st1 & Hloop1 & ->)%run_returned HE HL.
  unfold typeCheckExternalDefinitions.
  intros [= (curF2 & curE2 & st2 & Hloop2 & ->)%run_returned].
  cbn [final trace setLastCheckedExternalDefinition ExternalDefinitions
       LastCheckedExternalDefinition definedFunctions] in *.
  apply (doWhile_spec TC) in Hloop1
    as ((HL0 & _ & _ & Hexts1 & _) & _ & HcurE1 & _);
    [|done|apply BetweenTurns_start].
  pose proof (BetweenTurns_start
                (mkTC (ExternalDefinitions Ctx)
                   (LastCheckedExternalDefinition Ctx) [] [] []
                   (newTypeChecker (world Ctx)))) as Hstart.
  apply (doWhile_spec (mkTC (ExternalDefinitions Ctx)
                         (LastCheckedExternalDefinition Ctx) [] [] []
                         (newTypeChecker (world Ctx)))) in Hloop2
    as ((_ & _ & Hbodies2 & Hexts2 & _ & HlE & HlF & _) & HcurF2 & HcurE2 & _ & HS);
    [|done|exact Hstart].
  clear Hstart.
  cbn [fst snd ExternalDefinitions LastCheckedExternalDefinition
       definedFunctions implicitlyDefinedFunctions] in *.
  subst curF2 curE2.
  rewrite take_ge in Hexts2 by (by rewrite indexed_length).
  rewrite take_ge in Hbodies2 by (by rewrite indexed_length).
  rewrite HL, HcurE1 in Hexts2.
  assert (Hpre : ExternalDefinitions st1.1 `prefix_of`
                 ExternalDefinitions st2.1).
  { etrans; [exact HE|]. rewrite HlE. by apply prefix_app_r. }
  split; [|split; [done|]].
  - rewrite fmap_app, omap_app, Hexts1, Hexts2. subst curE1.
    rewrite <- (take_indexed_prefix _ _ (length (ExternalDefinitions st1.1)) Hpre)
      by lia.
    apply drop_take_drop. lia.
  - rewrite HS, app_nil_r in HlF. exact HlF.
Qed.

(** X17. When nothing is new, typeCheckExternalDefinitions calls
    nothing: if the index of the last external definition checked is the
    number of external definitions, the run returns at once, with an
    empty trace and the context as it was. On a source file that is not
    type-checked yet the assertion fails. *)
Theorem typeCheckExternalDefinitions_idle newTypeChecker fuel stage Ctx :
  LastCheckedExternalDefinition Ctx = length (ExternalDefinitions Ctx) ->
  typeCheckExternalDefinitions newTypeChecker (S fuel) stage Ctx =
    match stage with
    | TypeChecked =>
        Some (Returned
                (mkRun (mkTC (ExternalDefinitions Ctx)
                          (LastCheckedExternalDefinition Ctx) [] [] []
                          (newTypeChecker (world Ctx)))
                   0 (LastCheckedExternalDefinition Ctx) []))
    | _ => None
    end.
Proof.
  intros HL. destruct stage; try done.
  unfold typeCheckExternalDefinitions, typeCheckFunctionsAndExternalDecls.
  cbn [doWhile]. unfold iteration. cbn [ExternalDefinitions fst].
  assert (Hext : forall st : State,
            externalLoop fuel (length (ExternalDefinitions Ctx))
              (LastCheckedExternalDefinition Ctx) st =
            Returned (LastCheckedExternalDefinition Ctx, st)).
  { intros st. rewrite HL. destruct fuel; simpl; by rewrite Nat.eqb_refl. }
  rewrite Hext. cbn [mbind Outcome_bind definedFunctions fst length].
  assert (Hfun : forall st : State,
            functionLoop fuel 0 0 st = Returned (0, st)).
  { intros st. by destruct fuel. }
  rewrite Hfun. cbn [mbind Outcome_bind capturesLoop].
  assert (Hval : validatedTypesLoop fuel
                   (mkTC (ExternalDefinitions Ctx)
                      (LastCheckedExternalDefinition Ctx) [] [] []
                      (newTypeChecker (world Ctx)), []) =
                 Returned (mkTC (ExternalDefinitions Ctx)
                             (LastCheckedExternalDefinition Ctx) [] [] []
                             (newTypeChecker (world Ctx)), [])).
  { by destruct fuel. }
  rewrite Hval. simpl. rewrite HL, Nat.ltb_irrefl. done.
Qed.

End WithCollaborators.

Arguments mkTC {World}.
Arguments ExternalDefinitions {World}.
Arguments LastCheckedExternalDefinition {World}.
Arguments definedFunctions {World}.
Arguments implicitlyDefinedFunctions {World}.
Arguments ValidatedTypes {World}.
Arguments world {World}.
Arguments site {World}.
Arguments final {World}.
Arguments trace {World}.
Arguments currentFunctionIdx {World}.
Arguments currentExternalDef {World}.

(** *** Two concrete type checkers *)

(** What a collaborator may do to the collections. *)
Definition appendFunction {World} (AFD : AbstractFunctionDecl)
    (tc : TypeChecker World) : TypeChecker World :=
  mkTC (ExternalDefinitions tc) (LastCheckedExternalDefinition tc)
    (definedFunctions tc ++ [AFD]) (implicitlyDefinedFunctions tc)
    (ValidatedTypes tc) (world tc).

Definition appendExternal {World} (decl : Decl) (tc : TypeChecker World)
    : TypeChecker World :=
  mkTC (ExternalDefinitions tc ++ [decl]) (LastCheckedExternalDefinition tc)
    (definedFunctions tc) (implicitlyDefinedFunctions tc)
    (ValidatedTypes tc) (world tc).

Definition bufferImplicit {World} (AFD : AbstractFunctionDecl)
    (tc : TypeChecker World) : TypeChecker World :=
  mkTC (ExternalDefinitions tc) (LastCheckedExternalDefinition tc)
    (definedFunctions tc) (implicitlyDefinedFunctions tc ++ [AFD])
    (ValidatedTypes tc) (world tc).

Definition pushValidated {World} (nominal : NominalTypeDecl)
    (tc : TypeChecker World) : TypeChecker World :=
  mkTC (ExternalDefinitions tc) (LastCheckedExternalDefinition tc)
    (definedFunctions tc) (implicitlyDefinedFunctions tc)
    (ValidatedTypes tc ++ [nominal]) (world tc).

Definition nothing {A World} (_ : A) (tc : TypeChecker World)
    : TypeChecker World := tc.

Lemma growsOnly_nothing {World} : growsOnly World (fun tc => tc).
Proof. apply growsOnly_id. Qed.

Lemma growsOnly_appendFunction {World} AFD :
  growsOnly World (appendFunction AFD).
Proof. intros tc. repeat split; simpl; try done. by apply prefix_app_r. Qed.

Lemma growsOnly_appendExternal {World} decl :
  growsOnly World (appendExternal decl).
Proof. intros tc. repeat split; simpl; try done. by apply prefix_app_r. Qed.

Lemma growsOnly_bufferImplicit {World} AFD :
  growsOnly World (bufferImplicit AFD).
Proof. intros tc. repeat split; simpl; try done. by apply prefix_app_r. Qed.

Lemma growsOnly_pushValidated {World} nominal :
  growsOnly World (pushValidated nominal).
Proof. intros tc. repeat split; simpl; try done. by apply prefix_app_r. Qed.

(** Three functions nested in one another: F (0) contains G (1), which
    contains H (2). A nested function is found, and appended to the
    defined functions, when the body of the function around it is
    checked. At the start only F is known. *)
Definition F : AbstractFunctionDecl := 0.
Definition G : AbstractFunctionDecl := 1.
Definition H : AbstractFunctionDecl := 2.

Definition nestedBody (AFD : AbstractFunctionDecl) (tc : TypeChecker unit)
    : TypeChecker unit :=
  if AFD =? F then appendFunction G tc
  else if AFD =? G then appendFunction H tc
  else tc.

Definition nestedStart : TypeChecker unit := mkTC [] 0 [F] [] [] tt.

Definition nestedOutcome : Outcome (Run unit) :=
  typeCheckFunctionsAndExternalDecls unit nestedBody nothing (fun n _ => nothing n)
    nothing nothing nothing nothing 8 nestedStart.

Lemma nested_appendOnly :
  collaboratorsAppendOnly unit nestedBody nothing (fun n _ => nothing n)
    nothing nothing nothing nothing.
Proof.
  unfold collaboratorsAppendOnly. split_and!; try (intros; apply growsOnly_nothing).
  intros AFD. unfold nestedBody.
  destruct (AFD =? F); [apply growsOnly_appendFunction|].
  destruct (AFD =? G); [apply growsOnly_appendFunction|apply growsOnly_nothing].
Qed.

(** A busier type checker: checking the body of F finds G and pushes the
    struct 50 on the validated types; checking G finds H and brings in
    the external struct 60; the first pass over 50 buffers the implicit
    function 7, and the implicit constructors of 60 buffer the function
    8. *)
Definition busyBody (AFD : AbstractFunctionDecl) (tc : TypeChecker unit)
    : TypeChecker unit :=
  if AFD =? F then pushValidated 50 (appendFunction G tc)
  else if AFD =? G
  then appendExternal (IsNominalTypeDecl StructDecl 60) (appendFunction H tc)
  else tc.

Definition busyFirstPass (nominal : NominalTypeDecl) (isFirstPass : bool)
    (tc : TypeChecker unit) : TypeChecker unit :=
  if nominal =? 50 then bufferImplicit 7 tc else tc.

Definition busyConstructors (SD : NominalTypeDecl) (tc : TypeChecker unit)
    : TypeChecker unit :=
  if SD =? 60 then bufferImplicit 8 tc else tc.

Definition busyOutcome : Outcome (Run unit) :=
  typeCheckFunctionsAndExternalDecls unit busyBody nothing busyFirstPass
    busyConstructors nothing nothing nothing 12 nestedStart.

Lemma busy_appendOnly :
  collaboratorsAppendOnly unit busyBody nothing busyFirstPass
    busyConstructors nothing nothing nothing.
Proof.
  unfold collaboratorsAppendOnly. split_and!; try (intros; apply growsOnly_nothing).
  - intros AFD. unfold busyBody.
    destruct (AFD =? F).
    { apply (growsOnly_compose unit (appendFunction G) (pushValidated 50));
        [apply growsOnly_appendFunction|apply growsOnly_pushValidated]. }
    destruct (AFD =? G); [|apply growsOnly_nothing].
    apply (growsOnly_compose unit (appendFunction H)
             (appendExternal (IsNominalTypeDecl StructDecl 60)));
      [apply growsOnly_appendFunction|apply growsOnly_appendExternal].
  - intros nominal isFirstPass. unfold busyFirstPass.
    destruct (nominal =? 50); [apply growsOnly_bufferImplicit|apply growsOnly_nothing].
  - intros SD. unfold busyConstructors.
    destruct (SD =? 60); [apply growsOnly_bufferImplicit|apply growsOnly_nothing].
Qed.

(** A type checker whose world is the depth of nesting still to be
    found: each body check finds one more nested function until the depth
    is used up. *)
Definition deepBody (AFD : AbstractFunctionDecl) (tc : TypeChecker nat)
    : TypeChecker nat :=
  match world tc with
  | 0 => tc
  | S depth =>
      mkTC (ExternalDefinitions tc) (LastCheckedExternalDefinition tc)
        (definedFunctions tc ++ [S AFD]) (implicitlyDefinedFunctions tc)
        (ValidatedTypes tc) depth
  end.

Lemma tame_nothing {World} (budget : World -> nat) :
  tame World budget (fun tc => tc).
Proof. apply tame_id. Qed.

Lemma deep_tame :
  collaboratorsTame nat deepBody nothing (fun n _ => nothing n)
    nothing nothing nothing nothing (fun depth => depth).
Proof.
  unfold collaboratorsTame. split_and!; try (intros; apply tame_nothing).
  intros AFD. split; [|split]; intros tc; unfold deepBody;
    destruct (world tc) as [|depth] eqn:Hdepth; simpl; try done.
  - repeat split; simpl; try done. by apply prefix_app_r.
  - unfold work. simpl. rewrite Hdepth, length_app. simpl. lia.
Qed.

Lemma typeCheckFunctionsAndExternalDecls_returns_witness :
  exists run,
    typeCheckFunctionsAndExternalDecls nat deepBody nothing
      (fun n _ => nothing n) nothing nothing nothing nothing
      8 (mkTC [] 0 [F] [] [] 5) = Returned run.
Proof.
  apply (typeCheckFunctionsAndExternalDecls_returns nat deepBody nothing
           (fun n _ => nothing n) nothing nothing nothing nothing
           (fun depth => depth)).
  - apply deep_tame.
  - apply Forall_nil_2.
  - apply Nat.le_refl.
  - apply Nat.le_refl.
Defined.

(** A type checker that finds nothing new, started with F, G and H all
    among the defined functions already. *)
Definition knownStart : TypeChecker unit := mkTC [] 0 [F; G; H] [] [] tt.

Lemma idle_appendOnly :
  collaboratorsAppendOnly unit nothing nothing (fun n _ => nothing n)
    nothing nothing nothing nothing.
Proof.
  unfold collaboratorsAppendOnly. split_and!; intros; apply growsOnly_nothing.
Qed.

Definition nestedRun : Run unit :=
  match nestedOutcome with
  | Returned run => run
  | _ => mkRun unit nestedStart 0 0 []
  end.

Definition busyRun : Run unit :=
  match busyOutcome with
  | Returned run => run
  | _ => mkRun unit nestedStart 0 0 []
  end.

Lemma nestedOutcome_returned :
  typeCheckFunctionsAndExternalDecls unit nestedBody nothing
    (fun n _ => nothing n) nothing nothing nothing nothing 8 nestedStart =
  Returned nestedRun.
Proof. vm_compute. reflexivity. Qed.

Lemma busyOutcome_returned :
  typeCheckFunctionsAndExternalDecls unit busyBody nothing busyFirstPass
    busyConstructors nothing nothing nothing 12 nestedStart =
  Returned busyRun.
Proof. vm_compute. reflexivity. Qed.

(** The one turn of the loop over [knownStart]. *)
Definition knownTurn : Outcome (nat * nat * State unit) :=
  iteration unit nothing nothing (fun n _ => nothing n) nothing nothing
    nothing nothing 4 0 0 (knownStart, []).

Definition knownTurnState : State unit :=
  match knownTurn with
  | Returned (_, _, st) => st
  | _ => (knownStart, [])
  end.

Lemma knownTurn_returned :
  iteration unit nothing nothing (fun n _ => nothing n) nothing nothing
    nothing nothing 4 0 0 (knownStart, []) =
  Returned (3, 0, knownTurnState).
Proof. vm_compute. reflexivity. Qed.

(** The busy run returns with all five functions checked and nothing left
    over. *)
Lemma typeCheckFunctionsAndExternalDecls_drains_witness :
  typeCheckFunctionsAndExternalDecls unit busyBody nothing busyFirstPass
    busyConstructors nothing nothing nothing 12 nestedStart =
  Returned busyRun /\
  currentFunctionIdx busyRun = length (definedFunctions (final busyRun)) /\
  currentExternalDef busyRun = length (ExternalDefinitions (final busyRun)) /\
  ValidatedTypes (final busyRun) = [] /\
  implicitlyDefinedFunctions (final busyRun) = [] /\
  omap checkedBody (site <$> trace busyRun) =
    indexed (definedFunctions (final busyRun)).
Proof.
  destruct (typeCheckFunctionsAndExternalDecls_drains unit busyBody nothing
              busyFirstPass busyConstructors nothing nothing nothing
              12 nestedStart busyRun busy_appendOnly busyOutcome_returned)
    as (HcurE & _ & HcurF & HV & HS & Hbodies & _).
  exact (conj busyOutcome_returned
           (conj HcurF (conj HcurE (conj HV (conj HS Hbodies))))).
Defined.

(** What the busy run leaves: the five functions, the two implicit ones
    among them, each checked once. *)
Example busyRun_result :
  definedFunctions (final busyRun) = [F; G; 7; H; 8] /\
  ExternalDefinitions (final busyRun) = [IsNominalTypeDecl StructDecl 60] /\
  LastCheckedExternalDefinition (final busyRun) = 1 /\
  site <$> trace busyRun =
    [FunctionBody 0 F; Captures 0 F; FirstPass 50;
     FunctionBody 1 G; FunctionBody 2 7; Captures 2 7; Captures 1 G;
     ExternalNominal 0 (IsNominalTypeDecl StructDecl 60);
     FunctionBody 3 H; Captures 3 H; FunctionBody 4 8; Captures 4 8].
Proof. vm_compute. repeat split. Qed.

(** With F, G and H checked in one turn, the captures are computed for
    H, then G, then F. *)
Lemma iteration_captures_reverse_order_witness :
  exists new : list (Event unit),
    knownTurnState.2 = [] ++ new /\
    precedes (Captures 2 H) (Captures 1 G) (site <$> new) /\
    precedes (Captures 1 G) (Captures 0 F) (site <$> new) /\
    precedes (FunctionBody 2 H) (Captures 2 H) (site <$> new).
Proof.
  destruct (iteration_captures_reverse_order unit nothing nothing
              (fun n _ => nothing n) nothing nothing nothing nothing
              4 0 0 (knownStart, []) 3 0 knownTurnState
              idle_appendOnly knownTurn_returned)
    as (new & externals & validations & Htrace & _ & _ & _ & _ & _ & _ & _ & _
        & _ & Hbody & Hcaps).
  exists new. split; [exact Htrace|]. split; [|split].
  - apply (Hcaps 1 2 G H); [lia|lia|lia|vm_compute; reflexivity..].
  - apply (Hcaps 0 1 F G); [lia|lia|lia|vm_compute; reflexivity..].
  - apply (Hbody 2 2 H H); [lia|lia|vm_compute; reflexivity..].
Defined.

(** The first turn over the nesting: the body check of F appends G, and
    the turn stops at the size it read before, with G unvisited. *)
Example nested_first_turn :
  match iteration unit nestedBody nothing (fun n _ => nothing n) nothing
          nothing nothing nothing 8 0 0 (nestedStart, []) with
  | Returned (cur, _, st) =>
      cur = 1 /\ definedFunctions st.1 = [F; G] /\
      site <$> st.2 = [FunctionBody 0 F; Captures 0 F]
  | _ => False
  end.
Proof. vm_compute. repeat split. Qed.

(** Finds the positions at which a concrete list can hold the element
    that [H] says it holds at [i]. *)
Ltac pin_index i H :=
  first [ discriminate H
        | destruct i as [|i]; simpl in H;
          [try discriminate H | pin_index i H] ].

(** C2. The loop, run on the nesting the claim speaks of. G is nested in
    F and H in G, and each is found (appended to the defined functions)
    when the body of the function around it is checked; at the start only
    F is known. The run returns with F, G and H defined, and
    computeCaptures was called on F first, then on G, then on H: the
    captures of the outer function are computed before those of the
    functions nested in it, and never the other way round. The comment
    at lines 364-366 promises the opposite ("the nested DefinedFunctions
    will be visited before the outer DefinedFunctions"): line 357 reads
    the size of the vector once, so a function found during a body check
    waits for the next turn, after the captures of the function around
    it. *)
Lemma nested_captures_outer_first :
  typeCheckFunctionsAndExternalDecls unit nestedBody nothing
    (fun n _ => nothing n) nothing nothing nothing nothing 8 nestedStart =
  Returned nestedRun /\
  definedFunctions (final nestedRun) = [F; G; H] /\
  site <$> trace nestedRun =
    [FunctionBody 0 F; Captures 0 F; FunctionBody 1 G; Captures 1 G;
     FunctionBody 2 H; Captures 2 H] /\
  precedes (Captures 0 F) (Captures 1 G) (site <$> trace nestedRun) /\
  precedes (Captures 1 G) (Captures 2 H) (site <$> trace nestedRun) /\
  ~ precedes (Captures 2 H) (Captures 1 G) (site <$> trace nestedRun) /\
  ~ precedes (Captures 1 G) (Captures 0 F) (site <$> trace nestedRun).
Proof.
  assert (Hsites : site <$> trace nestedRun =
            [FunctionBody 0 F; Captures 0 F; FunctionBody 1 G; Captures 1 G;
             FunctionBody 2 H; Captures 2 H]) by (vm_compute; reflexivity).
  split; [exact nestedOutcome_returned|].
  split; [vm_compute; reflexivity|].
  split; [exact Hsites|]. rewrite Hsites.
  split; [exists 1, 3; repeat split; lia|].
  split; [exists 3, 5; repeat split; lia|].
  split; intros (i & j & Hij & Hi & Hj);
    pin_index i Hi; pin_index j Hj; lia.
Qed.

(** *** The busy run, and a later run over its context *)

Lemma typeCheckFunctionsAndExternalDecls_handles_witness :
  LastCheckedExternalDefinition nestedStart <=
    length (ExternalDefinitions nestedStart) /\
  Forall handled
    (drop (LastCheckedExternalDefinition nestedStart)
       (ExternalDefinitions (final busyRun))).
Proof.
  exact (typeCheckFunctionsAndExternalDecls_handles unit busyBody nothing
           busyFirstPass busyConstructors nothing nothing nothing
           12 nestedStart busyRun busy_appendOnly busyOutcome_returned).
Defined.

Lemma typeCheckFunctionsAndExternalDecls_body_first_witness :
  precedes (FunctionBody 1 G) (Captures 1 G) (site <$> trace busyRun).
Proof.
  apply (typeCheckFunctionsAndExternalDecls_body_first unit busyBody nothing
           busyFirstPass busyConstructors nothing nothing nothing
           12 nestedStart busyRun busy_appendOnly busyOutcome_returned 1 G).
  vm_compute. reflexivity.
Defined.

(** The context the busy run leaves, and the same context once the
    external function 9 has been added to it. *)
Definition busyContext : TypeChecker unit :=
  mkTC [IsNominalTypeDecl StructDecl 60] 1 [F; G; 7; H; 8] [] [] tt.

Definition laterContext : TypeChecker unit :=
  appendExternal (IsAbstractFunctionDecl 9) busyContext.

Definition laterRun : Run unit :=
  match typeCheckExternalDefinitions unit busyBody nothing busyFirstPass
          busyConstructors nothing nothing nothing (fun w => w) 12
          TypeChecked laterContext with
  | Some (Returned run) => run
  | _ => mkRun unit nestedStart 0 0 []
  end.

Lemma laterRun_returned :
  typeCheckExternalDefinitions unit busyBody nothing busyFirstPass
    busyConstructors nothing nothing nothing (fun w => w) 12
    TypeChecked laterContext =
  Some (Returned laterRun).
Proof. vm_compute. reflexivity. Qed.

Lemma busyRun_context :
  ExternalDefinitions (final busyRun) `prefix_of`
    ExternalDefinitions laterContext.
Proof. exists [IsAbstractFunctionDecl 9]. vm_compute. reflexivity. Qed.

Lemma busyRun_cursor :
  LastCheckedExternalDefinition laterContext =
  LastCheckedExternalDefinition (final busyRun).
Proof. vm_compute. reflexivity. Qed.

Lemma typeCheckExternalDefinitions_resumes_witness :
  omap processedExternal (site <$> trace busyRun ++ trace laterRun) =
    drop (LastCheckedExternalDefinition nestedStart)
      (indexed (ExternalDefinitions (final laterRun))) /\
  omap checkedBody (site <$> trace laterRun) =
    indexed (definedFunctions (final laterRun)) /\
  definedFunctions (final laterRun) ≡ₚ
    appended unit definedFunctions (trace laterRun) ++
    appended unit implicitlyDefinedFunctions (trace laterRun).
Proof.
  exact (typeCheckExternalDefinitions_resumes unit busyBody nothing
           busyFirstPass busyConstructors nothing nothing nothing
           (fun w => w) 12 12 nestedStart busyRun laterContext laterRun
           busy_appendOnly busyOutcome_returned busyRun_context
           busyRun_cursor laterRun_returned).
Defined.

(** The later run has one call, the body check of the external function
    9, and checks no function of the earlier run again. *)
Example laterRun_result :
  site <$> trace laterRun = [ExternalBody 1 9] /\
  definedFunctions (final laterRun) = [] /\
  LastCheckedExternalDefinition (final laterRun) = 2.
Proof. vm_compute. repeat split. Qed.

Lemma busyContext_checked :
  LastCheckedExternalDefinition busyContext =
  length (ExternalDefinitions busyContext).
Proof. reflexivity. Qed.

Lemma typeCheckExternalDefinitions_idle_witness :
  typeCheckExternalDefinitions unit busyBody nothing busyFirstPass
    busyConstructors nothing nothing nothing (fun w => w) 1
    TypeChecked busyContext =
  Some (Returned
          (mkRun unit
             (mkTC (ExternalDefinitions busyContext)
                (LastCheckedExternalDefinition busyContext) [] [] [] tt)
             0 (LastCheckedExternalDefinition busyContext) [])).
Proof.
  exact (typeCheckExternalDefinitions_idle unit busyBody nothing
           busyFirstPass busyConstructors nothing nothing nothing
           (fun w => w) 0 TypeChecked busyContext busyContext_checked).
Defined.

End Scheduler.
